(** * portal-app: the work queue and its idempotent task engine

    A shallow embedding of [queue/WorkQueue.ts] (Arguments, JsonArguments,
    Task, ProviderRepository, runTask, processQueue, enqueueTask), of the
    key-value cache and the queued-task table of [services/DatabaseService.ts],
    and of [queue/tasks/WaitForRelaysConnected.ts], followed by the properties
    of the engine stated in the specification.

    Conventions.  Timestamps are [Z]: milliseconds for [Date.now()] and for
    [Date] objects, seconds for the [expires_at] and [added_at] columns.
    JavaScript values are the inductive [JsValue]; a [number] is an integer
    (the engine only computes with timestamps, row ids and priorities).
    Asynchronous code is written in a state-and-exception monad over the
    [World]: one logical thread runs to completion, every [await] on the
    database or on a timer advances the clock by the latency the world
    prescribes.  The interleaving of several [run()] calls is the subject of
    the module [Interleaving] alone. *)

From Stdlib Require Import ZArith Lia List Ascii String Bool DecimalString DecimalPos Sorted.
From stdpp Require Import base option list gmap strings.

#[local] Set Warnings "-register-all,-clear-no-such-hyp".
Local Open Scope string_scope.
Local Open Scope Z_scope.

(* ===================================================================== *)
(** * Part I: definitions                                                *)
(* ===================================================================== *)

(** ** JavaScript values *)

(** The values the tasks pass around.  A number is an integer; a function
    is known by a name only, its code is not modelled.  An array is dense
    and has no members but its elements; an object is a plain one, with
    [Object.prototype] as prototype and data properties only, listed in
    the order [for ... in] and [JSON.stringify] enumerate them. *)
Inductive JsValue : Type :=
| JUndefined
| JNull
| JBool (b : bool)
| JNumber (n : Z)
| JBigInt (n : Z)
| JString (s : string)
| JFunction (name : string)
| JArray (elems : list JsValue)
| JObject (props : list (string * JsValue)).

(** [typeof v] *)
Definition typeof (v : JsValue) : string :=
  match v with
  | JUndefined => "undefined"
  | JNull => "object"
  | JBool _ => "boolean"
  | JNumber _ => "number"
  | JBigInt _ => "bigint"
  | JString _ => "string"
  | JFunction _ => "function"
  | JArray _ | JObject _ => "object"
  end.

(** JavaScript truthiness, as [if (v)] and [!v] read it. *)
Definition truthy (v : JsValue) : bool :=
  match v with
  | JUndefined | JNull => false
  | JBool b => b
  | JNumber n | JBigInt n => negb (n =? 0)
  | JString s => negb (String.eqb s "")
  | JFunction _ | JArray _ | JObject _ => true
  end.

(** [n.toString()] for a bigint; for a number, [String(n)] as long as [n]
    is an integer below 10^21 in magnitude, where [String] starts to print
    an exponent. *)
Definition Number_toString (n : Z) : string :=
  NilZero.string_of_int (Z.to_int n).

(** The value of a canonical array-index key (["0"], ["17"], no sign, no
    leading zero, below 2^32 - 1); such keys are enumerated first and in
    ascending order by [for ... in] and by [JSON.stringify]. *)
Definition array_index (k : string) : option Z :=
  match NilZero.int_of_string k with
  | Some i =>
      let n := Z.of_int i in
      if (0 <=? n) && (n <? 4294967295) && String.eqb (Number_toString n) k
      then Some n else None
  | None => None
  end.

(** The own property [k] of an ordinary object, whose own properties in
    enumeration order are [props], is set to [v], as [JSON.parse] does it
    for every key and [ob[k] = v] for every key but [__proto__] (for which
    see [assign]): an existing key keeps its place, a new array index goes
    before the first larger index or the first other key, a new other key
    goes last. *)
Fixpoint obj_replace (k : string) (v : JsValue) (props : list (string * JsValue))
  : option (list (string * JsValue)) :=
  match props with
  | [] => None
  | (k', v') :: rest =>
      if String.eqb k' k then Some ((k, v) :: rest)
      else option_map (cons (k', v')) (obj_replace k v rest)
  end.

Fixpoint obj_insert_index (n : Z) (k : string) (v : JsValue)
    (props : list (string * JsValue)) : list (string * JsValue) :=
  match props with
  | [] => [(k, v)]
  | (k', v') :: rest =>
      match array_index k' with
      | Some n' =>
          if n <? n' then (k, v) :: props
          else (k', v') :: obj_insert_index n k v rest
      | None => (k, v) :: props
      end
  end.

Definition obj_set (k : string) (v : JsValue) (props : list (string * JsValue))
  : list (string * JsValue) :=
  match obj_replace k v props with
  | Some props' => props'
  | None =>
      match array_index k with
      | Some n => obj_insert_index n k v props
      | None => props ++ [(k, v)]
      end
  end.

(** The elements of an array as properties ["0"], ["1"], ... *)
Fixpoint indexed_from (i : Z) (xs : list JsValue) : list (string * JsValue) :=
  match xs with
  | [] => []
  | x :: xs' => (Number_toString i, x) :: indexed_from (i + 1) xs'
  end.

(** The own enumerable properties [for (const i in ob)] visits and
    [ob.hasOwnProperty(i)] lets through; [null] and the primitives the
    engine passes have none. *)
Definition own_properties (ob : JsValue) : list (string * JsValue) :=
  match ob with
  | JArray xs => indexed_from 0 xs
  | JObject ps => ps
  | _ => []
  end.

(** ** JSON text *)

Definition dquote : ascii := ascii_of_N 34.
Definition backslash : ascii := ascii_of_N 92.

Definition hex_digit (n : N) : ascii :=
  ascii_of_N (if (n <? 10)%N then 48 + n else 87 + n)%N.

(** [QuoteJSONString], without the closing and opening quotes. *)
Fixpoint json_escape (s : string) : string :=
  match s with
  | EmptyString => EmptyString
  | String c rest =>
      let n := N_of_ascii c in
      let tail := json_escape rest in
      if (n =? 34)%N then String backslash (String dquote tail)
      else if (n =? 92)%N then String backslash (String backslash tail)
      else if (n =? 8)%N then String backslash (String "b" tail)
      else if (n =? 9)%N then String backslash (String "t" tail)
      else if (n =? 10)%N then String backslash (String "n" tail)
      else if (n =? 12)%N then String backslash (String "f" tail)
      else if (n =? 13)%N then String backslash (String "r" tail)
      else if (n <? 32)%N then
        String backslash (String "u" (String "0" (String "0"
          (String (hex_digit (n / 16)) (String (hex_digit (n mod 16)) tail)))))
      else String c tail
  end.

Definition QuoteJSONString (s : string) : string :=
  String dquote (json_escape s) +:+ String dquote EmptyString.

Fixpoint join (sep : string) (parts : list string) : string :=
  match parts with
  | [] => EmptyString
  | [p] => p
  | p :: rest => p +:+ sep +:+ join sep rest
  end.

(** What [JSON.stringify] produces: a text, [undefined], or a [TypeError]
    (a bigint that no replacer turned into something else). *)
Inductive Stringified : Type :=
| Text (s : string)
| Undefined
| ThrowsTypeError.

(** [SerializeJSONProperty] on a value that is not an array or an object. *)
Definition serialize_leaf (v : JsValue) : Stringified :=
  match v with
  | JNull => Text "null"
  | JBool true => Text "true"
  | JBool false => Text "false"
  | JNumber n => Text (Number_toString n)
  | JString s => Text (QuoteJSONString s)
  | JBigInt _ => ThrowsTypeError
  | _ => Undefined
  end.

(** [SerializeJSONProperty]: [leaf key v] is the text of a value that is not
    a container; arrays print [null] for what has no text, objects leave such
    members out. *)
Fixpoint SerializeJSONProperty (leaf : string -> JsValue -> Stringified)
    (key : string) (value : JsValue) {struct value} : Stringified :=
  match value with
  | JArray xs =>
      let parts :=
        (fix elements (i : Z) (xs : list JsValue) : option (list string) :=
           match xs with
           | [] => Some []
           | x :: xs' =>
               match SerializeJSONProperty leaf (Number_toString i) x with
               | ThrowsTypeError => None
               | Undefined => option_map (cons "null") (elements (i + 1) xs')
               | Text s => option_map (cons s) (elements (i + 1) xs')
               end
           end) 0 xs in
      match parts with
      | Some ps => Text ("[" +:+ join "," ps +:+ "]")
      | None => ThrowsTypeError
      end
  | JObject props =>
      let parts :=
        (fix members (props : list (string * JsValue)) : option (list string) :=
           match props with
           | [] => Some []
           | (k, x) :: props' =>
               match SerializeJSONProperty leaf k x with
               | ThrowsTypeError => None
               | Undefined => members props'
               | Text s =>
                   option_map (cons (QuoteJSONString k +:+ ":" +:+ s)) (members props')
               end
           end) props in
      match parts with
      | Some ps => Text ("{" +:+ join "," ps +:+ "}")
      | None => ThrowsTypeError
      end
  | _ => leaf key value
  end.

(** [JSON.stringify(value)] *)
Definition JSON_stringify (value : JsValue) : Stringified :=
  SerializeJSONProperty (fun _ v => serialize_leaf v) "" value.

(** The replacer of [JsonArguments.hash] and of [Task.serialize]:
<<
  (_, v) => typeof v === 'function' ? null
          : typeof v === 'bigint' ? `BigInt(${v.toString()})` : v
>> *)
Definition replacer (key : string) (v : JsValue) : JsValue :=
  if String.eqb (typeof v) "function" then JNull
  else match v with
       | JBigInt n => JString ("BigInt(" +:+ Number_toString n +:+ ")")
       | _ => v
       end.

(** [JSON.stringify(value, replacer)]: the replacer returns arrays and
    objects as they are, so it acts on the leaves. *)
Definition JSON_stringify_replacer (value : JsValue) : Stringified :=
  SerializeJSONProperty (fun k v => serialize_leaf (replacer k v)) "" value.


(** ** JSON.parse *)

Definition is_ws (c : ascii) : bool :=
  let n := N_of_ascii c in
  ((n =? 32) || (n =? 9) || (n =? 10) || (n =? 13))%N.

Fixpoint skip_ws (s : list ascii) : list ascii :=
  match s with
  | c :: rest => if is_ws c then skip_ws rest else s
  | [] => []
  end.

Definition digit_value (c : ascii) : option Z :=
  let n := N_of_ascii c in
  if ((48 <=? n) && (n <=? 57))%N then Some (Z.of_N n - 48) else None.

Definition hex_value (c : ascii) : option N :=
  let n := N_of_ascii c in
  if ((48 <=? n) && (n <=? 57))%N then Some (n - 48)%N
  else if ((97 <=? n) && (n <=? 102))%N then Some (n - 87)%N
  else if ((65 <=? n) && (n <=? 70))%N then Some (n - 55)%N
  else None.

(** The digits at the head of [s], read in base ten after [acc]. *)
Fixpoint read_digits (acc : Z) (s : list ascii) : Z * list ascii :=
  match s with
  | c :: rest =>
      match digit_value c with
      | Some d => read_digits (10 * acc + d) rest
      | None => (acc, s)
      end
  | [] => (acc, [])
  end.

Definition starts_number_tail (s : list ascii) : bool :=
  match s with
  | c :: _ => let n := N_of_ascii c in ((n =? 46) || (n =? 101) || (n =? 69))%N
  | [] => false
  end.

(** A JSON number: an optional minus, then [0] or a digit string without a
    leading zero.  The numbers of this embedding are integers: a number
    with a fraction or an exponent has no value here and gets the answer
    [None], and an integer is read as it is written, where [JSON.parse]
    rounds one that no double holds.  So [parse_number] is [JSON.parse] on
    the integers a double holds exactly, written without fraction and
    exponent, as [JSON.stringify] writes them below 10^21. *)
Definition parse_number (s : list ascii) : option (JsValue * list ascii) :=
  let '(neg, s1) :=
    match s with
    | c :: rest => if (N_of_ascii c =? 45)%N then (true, rest) else (false, s)
    | [] => (false, s)
    end in
  match s1 with
  | c :: rest =>
      match digit_value c with
      | Some 0 =>
          if starts_number_tail rest then None
          else match rest with
               | c' :: _ => match digit_value c' with
                            | Some _ => None
                            | None => Some (JNumber 0, rest)
                            end
               | [] => Some (JNumber 0, rest)
               end
      | Some d =>
          let '(n, rest') := read_digits d rest in
          if starts_number_tail rest' then None
          else Some (JNumber (if neg then - n else n), rest')
      | None => None
      end
  | [] => None
  end.

(** The UTF-8 bytes of a code point of the basic plane, for [\uXXXX]. *)
Definition utf8_encode (cp : N) : list ascii :=
  (if cp <? 128 then [ascii_of_N cp]
   else if cp <? 2048 then
     [ascii_of_N (192 + cp / 64); ascii_of_N (128 + cp mod 64)]
   else
     [ascii_of_N (224 + cp / 4096); ascii_of_N (128 + (cp / 64) mod 64);
      ascii_of_N (128 + cp mod 64)])%N.

(** The characters of a string literal after its opening quote. *)
Fixpoint parse_string_body (fuel : nat) (s : list ascii) (acc : list ascii)
  : option (string * list ascii) :=
  match fuel with
  | O => None
  | S fuel' =>
      match s with
      | [] => None
      | c :: rest =>
          let n := N_of_ascii c in
          if (n =? 34)%N then Some (string_of_list_ascii (rev acc), rest)
          else if (n <? 32)%N then None
          else if (n =? 92)%N then
            match rest with
            | e :: rest' =>
                let m := N_of_ascii e in
                if (m =? 34)%N then parse_string_body fuel' rest' (dquote :: acc)
                else if (m =? 92)%N then parse_string_body fuel' rest' (backslash :: acc)
                else if (m =? 47)%N then parse_string_body fuel' rest' ("/"%char :: acc)
                else if (m =? 98)%N then parse_string_body fuel' rest' (ascii_of_N 8 :: acc)
                else if (m =? 102)%N then parse_string_body fuel' rest' (ascii_of_N 12 :: acc)
                else if (m =? 110)%N then parse_string_body fuel' rest' (ascii_of_N 10 :: acc)
                else if (m =? 114)%N then parse_string_body fuel' rest' (ascii_of_N 13 :: acc)
                else if (m =? 116)%N then parse_string_body fuel' rest' (ascii_of_N 9 :: acc)
                else if (m =? 117)%N then
                  match rest' with
                  | h1 :: h2 :: h3 :: h4 :: rest'' =>
                      match hex_value h1, hex_value h2, hex_value h3, hex_value h4 with
                      | Some a, Some b, Some c', Some d =>
                          parse_string_body fuel' rest''
                            (rev (utf8_encode (4096 * a + 256 * b + 16 * c' + d)%N) ++ acc)
                      | _, _, _, _ => None
                      end
                  | _ => None
                  end
                else None
            | [] => None
            end
          else parse_string_body fuel' rest (c :: acc)
      end
  end.

Definition expect (c : ascii) (s : list ascii) : option (list ascii) :=
  match skip_ws s with
  | c' :: rest => if Ascii.eqb c c' then Some rest else None
  | [] => None
  end.

(** A JSON value at the head of [s]; [fuel] bounds the nesting and the
    number of members, the length of the text is always enough. *)
Fixpoint parse_value (fuel : nat) (s : list ascii) : option (JsValue * list ascii) :=
  match fuel with
  | O => None
  | S fuel' =>
      match skip_ws s with
      | [] => None
      | c :: rest =>
          let n := N_of_ascii c in
          if (n =? 34)%N then
            match parse_string_body (S (length rest)) rest [] with
            | Some (str, rest') => Some (JString str, rest')
            | None => None
            end
          else if (n =? 91)%N then
            match skip_ws rest with
            | c' :: rest' =>
                if (N_of_ascii c' =? 93)%N then Some (JArray [], rest')
                else
                  match parse_elements fuel' rest with
                  | Some (xs, rest'') => Some (JArray xs, rest'')
                  | None => None
                  end
            | [] => None
            end
          else if (n =? 123)%N then
            match skip_ws rest with
            | c' :: rest' =>
                if (N_of_ascii c' =? 125)%N then Some (JObject [], rest')
                else
                  match parse_members fuel' rest [] with
                  | Some (ps, rest'') => Some (JObject ps, rest'')
                  | None => None
                  end
            | [] => None
            end
          else
            match c :: rest with
            | "n" :: "u" :: "l" :: "l" :: r => Some (JNull, r)
            | "t" :: "r" :: "u" :: "e" :: r => Some (JBool true, r)
            | "f" :: "a" :: "l" :: "s" :: "e" :: r => Some (JBool false, r)
            | _ => parse_number (c :: rest)
            end%char
      end
  end
with parse_elements (fuel : nat) (s : list ascii) : option (list JsValue * list ascii) :=
  match fuel with
  | O => None
  | S fuel' =>
      match parse_value fuel' s with
      | Some (x, rest) =>
          match skip_ws rest with
          | c :: rest' =>
              if (N_of_ascii c =? 93)%N then Some ([x], rest')
              else if (N_of_ascii c =? 44)%N then
                match parse_elements fuel' rest' with
                | Some (xs, rest'') => Some (x :: xs, rest'')
                | None => None
                end
              else None
          | [] => None
          end
      | None => None
      end
  end
with parse_members (fuel : nat) (s : list ascii) (acc : list (string * JsValue))
  : option (list (string * JsValue) * list ascii) :=
  match fuel with
  | O => None
  | S fuel' =>
      match expect dquote s with
      | Some rest =>
          match parse_string_body (S (length rest)) rest [] with
          | Some (k, rest1) =>
              match expect ":"%char rest1 with
              | Some rest2 =>
                  match parse_value fuel' rest2 with
                  | Some (x, rest3) =>
                      let acc' := obj_set k x acc in
                      match skip_ws rest3 with
                      | c :: rest4 =>
                          if (N_of_ascii c =? 125)%N then Some (acc', rest4)
                          else if (N_of_ascii c =? 44)%N then parse_members fuel' rest4 acc'
                          else None
                      | [] => None
                      end
                  | None => None
                  end
              | None => None
              end
          | None => None
          end
      | None => None
      end
  end.

(** [JSON.parse(text)] on the texts whose numbers [parse_number] reads;
    [None] is the [SyntaxError] it throws, and also the answer to a text
    with a number that is none of this embedding's. *)
Definition JSON_parse (text : string) : option JsValue :=
  let s := list_ascii_of_string text in
  match parse_value (2 * length s + 2) s with
  | Some (v, rest) => match skip_ws rest with [] => Some v | _ => None end
  | None => None
  end.


(** [BigInt(text)] on a decimal literal with an optional sign, which is
    what [v.toString()] prints for a bigint; the empty text is [0n].  [None]
    is the [SyntaxError] it throws, and also the answer to the literals
    that are left out here: those in another base ([0x], [0o], [0b]) and
    those with white space around them. *)
Definition BigInt_of_string (text : string) : option Z :=
  let s := list_ascii_of_string text in
  let '(neg, ds) :=
    match s with
    | c :: rest =>
        if (N_of_ascii c =? 45)%N then (true, rest)
        else if (N_of_ascii c =? 43)%N then (false, rest)
        else (false, s)
    | [] => (false, s)
    end in
  match ds, s with
  | [], [] => Some 0
  | [], _ => None
  | _, _ =>
      match read_digits 0 ds with
      | (n, []) => Some (if neg then - n else n)
      | _ => None
      end
  end.

(** [value.slice(7, -1)] *)
Definition slice_7_minus_1 (value : string) : string :=
  substring 7 (String.length value - 1 - 7) value.

(** The reviver of [Task.deserialize]:
<<
  (key, value) => typeof value === 'string' && value.startsWith('BigInt(')
                  ? BigInt(value.slice(7, -1)) : value
>>
    [None] when [BigInt] throws. *)
Definition reviver (key : string) (value : JsValue) : option JsValue :=
  match value with
  | JString s =>
      if String.prefix "BigInt(" s
      then option_map JBigInt (BigInt_of_string (slice_7_minus_1 s))
      else Some value
  | _ => Some value
  end.

(** [InternalizeJSONProperty] with that reviver: the members are revived
    first, then the value itself; the reviver returns arrays and objects as
    they are and never returns [undefined], so no member is deleted. *)
Fixpoint revive (key : string) (value : JsValue) {struct value} : option JsValue :=
  match value with
  | JArray xs =>
      option_map JArray
        ((fix elements (i : Z) (xs : list JsValue) : option (list JsValue) :=
            match xs with
            | [] => Some []
            | x :: xs' =>
                match revive (Number_toString i) x with
                | Some x' => option_map (cons x') (elements (i + 1) xs')
                | None => None
                end
            end) 0 xs)
  | JObject props =>
      option_map JObject
        ((fix members (props : list (string * JsValue))
            : option (list (string * JsValue)) :=
            match props with
            | [] => Some []
            | (k, x) :: props' =>
                match revive k x with
                | Some x' => option_map (cons (k, x')) (members props')
                | None => None
                end
            end) props)
  | _ => reviver key value
  end.

(** [JSON.parse(text, reviver)] *)
Definition JSON_parse_reviver (text : string) : option JsValue :=
  match JSON_parse text with
  | Some v => revive "" v
  | None => None
  end.

(** ** SHA-256 (the digest [@aws-crypto/sha256-js] computes, FIPS 180-4) *)

Module Sha256.

Definition w32 (x : Z) : Z := x mod 4294967296.
Definition rotr (n x : Z) : Z :=
  Z.lor (Z.shiftr x n) (w32 (Z.shiftl x (32 - n))).
Definition Ch (x y z : Z) : Z :=
  Z.lxor (Z.land x y) (Z.land (Z.lxor x 4294967295) z).
Definition Maj (x y z : Z) : Z :=
  Z.lxor (Z.lxor (Z.land x y) (Z.land x z)) (Z.land y z).
Definition Sigma0 (x : Z) : Z := Z.lxor (Z.lxor (rotr 2 x) (rotr 13 x)) (rotr 22 x).
Definition Sigma1 (x : Z) : Z := Z.lxor (Z.lxor (rotr 6 x) (rotr 11 x)) (rotr 25 x).
Definition sigma0 (x : Z) : Z := Z.lxor (Z.lxor (rotr 7 x) (rotr 18 x)) (Z.shiftr x 3).
Definition sigma1 (x : Z) : Z := Z.lxor (Z.lxor (rotr 17 x) (rotr 19 x)) (Z.shiftr x 10).

(** The first [count] primes, by trial division. *)
Definition is_prime (n : nat) : bool :=
  forallb (fun d => negb (Nat.eqb (Nat.modulo n d) 0)) (seq 2 (n - 2)).

Definition primes (count : nat) : list Z :=
  map Z.of_nat (firstn count (List.filter is_prime (seq 2 400))).

(** The integer cube root, one bit after the other. *)
Fixpoint cube_root_bits (bits : nat) (x root : Z) : Z :=
  match bits with
  | O => root
  | S bits' =>
      let candidate := root + 2 ^ Z.of_nat bits' in
      cube_root_bits bits' x
        (if candidate * candidate * candidate <=? x then candidate else root)
  end.

(** The round constants: the first 32 bits of the fractional parts of the
    cube roots of the first 64 primes. *)
Definition K : list Z :=
  Eval vm_compute in
    map (fun p => w32 (cube_root_bits 40 (p * 2 ^ 96) 0)) (primes 64).

(** The initial hash value: the first 32 bits of the fractional parts of the
    square roots of the first 8 primes. *)
Definition H0 : list Z :=
  Eval vm_compute in map (fun p => w32 (Z.sqrt (p * 2 ^ 64))) (primes 8).

(** The [count] low bytes of [x], most significant first. *)
Definition be_bytes (count : nat) (x : Z) : list Z :=
  map (fun i => Z.shiftr x (8 * Z.of_nat i) mod 256) (rev (seq 0 count)).

(** The message, the byte 0x80, zeros up to 56 mod 64, then its length in
    bits as eight big-endian bytes. *)
Definition pad (msg : list Z) : list Z :=
  let len := Z.of_nat (length msg) in
  let zeros := Z.to_nat ((55 - len) mod 64) in
  msg ++ [128] ++ repeat 0 zeros ++ be_bytes 8 (8 * len).

Fixpoint words (fuel : nat) (bytes : list Z) : list Z :=
  match fuel, bytes with
  | S fuel', b0 :: b1 :: b2 :: b3 :: rest =>
      (b0 * 16777216 + b1 * 65536 + b2 * 256 + b3) :: words fuel' rest
  | _, _ => []
  end.

(** The message schedule, most recent word first. *)
Fixpoint schedule (count : nat) (w : list Z) : list Z :=
  match count with
  | O => w
  | S count' =>
      let next :=
        w32 (sigma1 (nth 1 w 0) + nth 6 w 0 + sigma0 (nth 14 w 0) + nth 15 w 0) in
      schedule count' (next :: w)
  end.

Definition round (st : list Z) (kw : Z * Z) : list Z :=
  match st with
  | [a; b; c; d; e; f; g; h] =>
      let t1 := h + Sigma1 e + Ch e f g + fst kw + snd kw in
      let t2 := Sigma0 a + Maj a b c in
      [w32 (t1 + t2); a; b; c; w32 (d + t1); e; f; g]
  | _ => st
  end.

Definition compress (h : list Z) (block : list Z) : list Z :=
  let w := rev (schedule 48 (rev block)) in
  let st := fold_left round (combine K w) h in
  map (fun p => w32 (fst p + snd p)) (combine h st).

Fixpoint blocks (fuel : nat) (ws : list Z) (h : list Z) : list Z :=
  match fuel, ws with
  | S fuel', _ :: _ => blocks fuel' (skipn 16 ws) (compress h (firstn 16 ws))
  | _, _ => h
  end.

(** [hash.update(text); hash.digestSync()]: the 32 bytes of the digest. *)
Definition digest (text : string) : list Z :=
  let bytes := map (fun c => Z.of_N (N_of_ascii c)) (list_ascii_of_string text) in
  let ws := words (length bytes + 72) (pad bytes) in
  flat_map (be_bytes 4) (blocks (length ws) ws H0).

End Sha256.

(** [Uint8Array.prototype.toString]: the bytes in decimal, comma-separated. *)
Definition Uint8Array_toString (bytes : list Z) : string :=
  join "," (map Number_toString bytes).


(** ** Arguments and their fingerprint ([JsonArguments.hash]) *)

(** [ob.hasOwnProperty] is the method every object inherits as long as the
    object has no member of that name itself.  With such a member
    [ob.hasOwnProperty(i)] is another call: a [TypeError] when the member is
    not a function, the member's own code when it is. *)
Definition inherits_hasOwnProperty (props : list (string * JsValue)) : bool :=
  negb (existsb (fun kx => String.eqb (fst kx) "hasOwnProperty") props).

(** [toReturn[k] = v] on the ordinary object [toReturn] of [flattenObject].
    Every key is written with [obj_set] but [__proto__], which is the
    accessor of the prototype: it stores no member, ignores a value that is
    neither an object nor [null], and makes any other value the prototype of
    [toReturn].  [None] stands for that last case, where [toReturn] stops
    being an ordinary object. *)
Definition assign (k : string) (v : JsValue) (toReturn : list (string * JsValue))
  : option (list (string * JsValue)) :=
  if String.eqb k "__proto__" then
    match v with
    | JNull | JFunction _ | JArray _ | JObject _ => None
    | _ => Some toReturn
    end
  else Some (obj_set k v toReturn).

(** The inner loop of [flattenObject]:
    [for (var x in flatObject) { if (!flatObject.hasOwnProperty(x)) continue;
    toReturn[i + '.' + x] = flatObject[x]; }]. *)
Definition copy_leaves (i : string) (flatObject toReturn : list (string * JsValue))
  : option (list (string * JsValue)) :=
  fold_left
    (fun acc xf =>
       match acc with
       | Some toReturn =>
           if inherits_hasOwnProperty flatObject
           then assign (i +:+ "." +:+ fst xf) (snd xf) toReturn
           else None
       | None => None
       end)
    flatObject (Some toReturn).

(** [flattenObject]: one level of dotted keys for the leaves of [ob].
    A value whose [typeof] is ['object'] (an array, an object, [null]) is
    flattened and its leaves copied under [i + '.' + x], any other value is
    stored under [i].  The members of an array are its elements, and an
    array inherits [hasOwnProperty]; [for ... in] over [null] has no turn.
    The result is [None] where the loop leaves the data: a call of
    [hasOwnProperty] that is not the inherited method, or an assignment that
    replaces the prototype of [toReturn] (see [assign]). *)
Fixpoint flattenObject (ob : JsValue) {struct ob} : option (list (string * JsValue)) :=
  match ob with
  | JArray xs =>
      (fix each (i : Z) (xs : list JsValue) (toReturn : list (string * JsValue))
         : option (list (string * JsValue)) :=
         match xs with
         | [] => Some toReturn
         | v :: xs' =>
             match
               (if String.eqb (typeof v) "object" then
                  match flattenObject v with
                  | Some flatObject => copy_leaves (Number_toString i) flatObject toReturn
                  | None => None
                  end
                else assign (Number_toString i) v toReturn)
             with
             | Some toReturn => each (i + 1) xs' toReturn
             | None => None
             end
         end) 0 xs []
  | JObject props =>
      (fix each (rest : list (string * JsValue)) (toReturn : list (string * JsValue))
         : option (list (string * JsValue)) :=
         match rest with
         | [] => Some toReturn
         | (i, v) :: rest' =>
             if inherits_hasOwnProperty props then
               match
                 (if String.eqb (typeof v) "object" then
                    match flattenObject v with
                    | Some flatObject => copy_leaves i flatObject toReturn
                    | None => None
                    end
                  else assign i v toReturn)
               with
               | Some toReturn => each rest' toReturn
               | None => None
               end
             else None
         end) props []
  | _ => Some []
  end.

(** The text [JsonArguments.hash] digests: the flattened arguments, as JSON
    text with the replacer.  [None] where [flattenObject] gives no object;
    where it gives one the text exists, the root being an object and the
    replacer leaving no bigint (lemma [stringify_replacer_defined]). *)
Definition hash_text (args : list JsValue) : option string :=
  match flattenObject (JArray args) with
  | Some flattenedArgs =>
      match JSON_stringify_replacer (JObject flattenedArgs) with
      | Text jsonArgs => Some jsonArgs
      | _ => None
      end
  | None => None
  end.

(** [JsonArguments.hash]: [hash_text] through SHA-256, printed as the
    digest's bytes; the empty string, which is no digest, where there is no
    text to digest. *)
Definition JsonArguments_hash (args : list JsValue) : string :=
  match hash_text args with
  | Some jsonArgs => Uint8Array_toString (Sha256.digest jsonArgs)
  | None => EmptyString
  end.

Global Arguments JsonArguments_hash : simpl never.

(** An [Arguments] object: the tuple and its [hash()]. *)
Record Arguments : Type := {
  values : list JsValue;
  hash : string;
}.

Definition JsonArguments (args : list JsValue) : Arguments :=
  {| values := args; hash := JsonArguments_hash args |}.

(** [Arguments.equals] *)
Definition Arguments_equals (a b : Arguments) : bool :=
  String.eqb (hash a) (hash b).

(** ** Exceptions and outcomes *)

Inductive Exn : Type :=
| Error (message : string)
| TypeError (message : string)
| SyntaxError (message : string).

(** How an awaited promise settles. *)
Inductive Outcome (A : Type) : Type :=
| Ok (a : A)
| Throw (e : Exn).
Arguments Ok {A} a.
Arguments Throw {A} e.

(** ** Rows of the two tables *)

(** [toUnixSeconds]: [Math.floor(ms / 1000)] *)
Definition toUnixSeconds (ms : Z) : Z := ms / 1000.

(** A row of [key_value_cache] (its [key] is the key of the map below). *)
Record KeyValueCacheRecord : Type := {
  kv_value : string;
  kv_expires_at : option Z;
}.

(** A row of [queued_tasks]. *)
Record QueuedTaskRecord : Type := {
  task_id : Z;
  task_name : string;
  arguments : string;
  added_at : Z;
  expires_at : option Z;
  priority : Z;
}.

#[global] Instance QueuedTaskRecord_eq_dec : EqDecision QueuedTaskRecord.
Proof. solve_decision. Defined.

(** The database: [key_value_cache] has [key] as primary key; the rows of
    [queued_tasks] are kept in rowid order, [queued_tasks_seq] is the largest
    rowid AUTOINCREMENT has handed out.

    [ORDER BY] leaves open in which order rows come out that tie in its
    keys: they come out in the order in which the plan the engine chooses
    for the statement visits them, and that depends on the statement and
    on the indexes.  [scan_order sql r] is the place of the row [r] in the
    order in which the plan of the statement [sql] visits the rows; rows
    with the same place are visited in rowid order. *)
Record Database : Type := {
  key_value_cache : gmap string KeyValueCacheRecord;
  queued_tasks : list QueuedTaskRecord;
  queued_tasks_seq : Z;
  scan_order : string -> QueuedTaskRecord -> Z;
}.

(** [expires_at IS NULL OR expires_at > now] *)
Definition not_expired (expires : option Z) (now : Z) : bool :=
  match expires with
  | None => true
  | Some e => now <? e
  end.

(** [ORDER BY priority DESC, added_at ASC]: [a] sorts strictly before [b]. *)
Definition precedes (a b : QueuedTaskRecord) : bool :=
  (priority b <? priority a)
  || ((priority a =? priority b) && (added_at a <? added_at b)).

(** The sorter: rows with equal priority and [added_at] stay in the order
    in which they reach it. *)
Fixpoint insert_row (r : QueuedTaskRecord) (sorted : list QueuedTaskRecord)
  : list QueuedTaskRecord :=
  match sorted with
  | [] => [r]
  | x :: rest => if precedes x r then x :: insert_row r rest else r :: sorted
  end.

Definition order_by (rows : list QueuedTaskRecord) : list QueuedTaskRecord :=
  foldr insert_row [] rows.

(** The rows in the order in which a plan visits them: by their places,
    rows with the same place in rowid order. *)
Fixpoint visit_row (place : QueuedTaskRecord -> Z) (r : QueuedTaskRecord)
    (visited : list QueuedTaskRecord) : list QueuedTaskRecord :=
  match visited with
  | [] => [r]
  | x :: rest =>
      if place x <? place r then x :: visit_row place r rest else r :: visited
  end.

Definition scan (place : QueuedTaskRecord -> Z) (rows : list QueuedTaskRecord)
  : list QueuedTaskRecord :=
  foldr (visit_row place) [] rows.

(** The statement of [extractNextQueuedTask] (its line breaks left out). *)
Definition extractNextQueuedTask_sql : string :=
  "SELECT * FROM queued_tasks WHERE (expires_at IS NULL OR expires_at > ?) " +:+
  "ORDER BY priority DESC, added_at ASC LIMIT 1".

(** [SELECT * FROM queued_tasks WHERE (expires_at IS NULL OR expires_at > ?)
    ORDER BY priority DESC, added_at ASC LIMIT 1]: the first of the rows
    that have not expired, sorted as they are visited. *)
Definition select_next (place : QueuedTaskRecord -> Z) (rows : list QueuedTaskRecord)
    (now : Z) : option QueuedTaskRecord :=
  head (order_by (scan place
                    (filter (fun r => not_expired (expires_at r) now = true) rows))).

(** [SELECT * FROM key_value_cache WHERE key = ? AND
    (expires_at IS NULL OR expires_at > ?)] *)
Definition select_cache (cache : gmap string KeyValueCacheRecord) (key : string)
    (now : Z) : option KeyValueCacheRecord :=
  match cache !! key with
  | Some r => if not_expired (kv_expires_at r) now then Some r else None
  | None => None
  end.

(** [Date | 'forever'] *)
Inductive Expiry : Type :=
| ExpiryDate (ms : Z)
| forever.

(** An entry of [RelayInfo[]]. *)
Record RelayInfo : Type := {
  url : string;
  connected : bool;
}.

(** ** The world a task runs in *)

Section Engine.

(** The state of what lies outside the engine (relays, wallets, the user):
    provider methods read and change it. *)
Context {E : Type}.

(** What [ProviderRepository] holds.  The [DatabaseService] instance wraps
    the one database of the world.  A [RelayStatusesProvider] holds the
    reference [relayStatuses]; reading [relayStatuses.current] observes the
    environment, which answers and moves on. *)
Inductive Provider : Type :=
| DatabaseService
| RelayStatusesProvider (relayStatuses_current : E -> list RelayInfo * E)
| OtherProvider (class_name : string).

(** [provider.constructor.name] *)
Definition Provider_constructor_name (p : Provider) : string :=
  match p with
  | DatabaseService => "DatabaseService"
  | RelayStatusesProvider _ => "RelayStatusesProvider"
  | OtherProvider n => n
  end.

(** [now] is [Date.now()]; [latency] lists how long the awaits to come
    take, in milliseconds, beyond what they ask for (none listed: no
    time); [locksMap] maps a key to the promise registered for it, a
    promise being known by the way it settles. *)
Record World : Type := {
  now : Z;
  latency : list N;
  db : Database;
  providers : gmap string Provider;
  locksMap : gmap string (Outcome JsValue);
  ext : E;
}.

Definition set_db (d : Database) (w : World) : World :=
  {| now := now w; latency := latency w; db := d; providers := providers w;
     locksMap := locksMap w; ext := ext w |}.
Definition set_providers (p : gmap string Provider) (w : World) : World :=
  {| now := now w; latency := latency w; db := db w; providers := p;
     locksMap := locksMap w; ext := ext w |}.
Definition set_locksMap (l : gmap string (Outcome JsValue)) (w : World) : World :=
  {| now := now w; latency := latency w; db := db w; providers := providers w;
     locksMap := l; ext := ext w |}.
Definition set_ext (e : E) (w : World) : World :=
  {| now := now w; latency := latency w; db := db w; providers := providers w;
     locksMap := locksMap w; ext := e |}.

(** Time passes: [ms] milliseconds, and the latency of one await. *)
Definition elapse (ms : Z) (w : World) : World :=
  {| now := now w + ms + Z.of_N (hd 0%N (latency w));
     latency := tl (latency w);
     db := db w; providers := providers w; locksMap := locksMap w; ext := ext w |}.

(** *** The monad of asynchronous code *)

Definition M (A : Type) : Type := World -> Outcome A * World.

Definition ret {A} (a : A) : M A := fun w => (Ok a, w).
Definition throw {A} (e : Exn) : M A := fun w => (Throw e, w).
Definition bind {A B} (m : M A) (k : A -> M B) : M B :=
  fun w => match m w with
           | (Ok a, w') => k a w'
           | (Throw e, w') => (Throw e, w')
           end.
(** [await promise] for a promise that settles as [o]. *)
Definition settle {A} (o : Outcome A) : M A := fun w => (o, w).
(** [try { m } catch (error) { handler error }] *)
Definition try_catch {A} (m : M A) (handler : Exn -> M A) : M A :=
  fun w => match m w with
           | (Ok a, w') => (Ok a, w')
           | (Throw e, w') => handler e w'
           end.
(** [try { m } finally { fin }] *)
Definition try_finally {A} (m : M A) (fin : M unit) : M A :=
  fun w => match m w with
           | (o, w') => match fin w' with
                        | (Ok _, w'') => (o, w'')
                        | (Throw e, w'') => (Throw e, w'')
                        end
           end.

Notation "'let*' x ':=' m 'in' k" := (bind m (fun x => k))
  (at level 10, x name, m at level 100, k at level 200).
Notation "'do' m 'then' k" := (bind m (fun _ => k))
  (at level 10, m at level 100, k at level 200).

(** [Date.now()] *)
Definition Date_now : M Z := fun w => (Ok (now w), w).

(** [await new Promise(resolve => setTimeout(resolve, ms))] *)
Definition sleep (ms : Z) : M unit := fun w => (Ok tt, elapse ms w).

(** [await this.db.getFirstAsync(...)] and [getAllAsync]: a query. *)
Definition getFirstAsync {A} (query : Database -> A) : M A :=
  fun w => (Ok (query (db w)), elapse 0 w).
(** [await this.db.runAsync(...)]: a statement and its result. *)
Definition runAsync {A} (statement : Database -> A * Database) : M A :=
  fun w => let '(a, d) := statement (db w) in (Ok a, elapse 0 (set_db d w)).

(** *** DatabaseService: the key-value cache *)

(** [record?.value || null] *)
Definition value_or_null (record : option KeyValueCacheRecord) : option string :=
  match record with
  | Some r => if String.eqb (kv_value r) "" then None else Some (kv_value r)
  | None => None
  end.

Definition getCache (key : string) : M (option string) :=
  let* now := Date_now in
  let now := toUnixSeconds now in
  let* record := getFirstAsync (fun d => select_cache (key_value_cache d) key now) in
  ret (value_or_null record).

(** [value] is [None] for [undefined] (what [JSON.stringify] gives for a
    result that has no JSON text). *)
Definition setCache (key : string) (value : option string) (expiresAt : Expiry)
  : M unit :=
  let expiresAtSeconds :=
    match expiresAt with
    | forever => None
    | ExpiryDate ms => Some (toUnixSeconds ms)
    end in
  let value := match value with
               | None => "{}" (* FIXME: make the column nullable *)
               | Some v => v
               end in
  runAsync (fun d =>
    (tt, {| key_value_cache :=
              <[key := {| kv_value := value; kv_expires_at := expiresAtSeconds |}]>
                (key_value_cache d);
            queued_tasks := queued_tasks d;
            queued_tasks_seq := queued_tasks_seq d;
        scan_order := scan_order d |})).

Definition deleteCache (key : string) : M unit :=
  runAsync (fun d =>
    (tt, {| key_value_cache := delete key (key_value_cache d);
            queued_tasks := queued_tasks d;
            queued_tasks_seq := queued_tasks_seq d;
        scan_order := scan_order d |})).

(** [DELETE FROM key_value_cache WHERE expires_at IS NOT NULL AND
    expires_at <= ?], returning [result.changes]. *)
Definition cleanExpiredCache : M Z :=
  let* now := Date_now in
  let now := toUnixSeconds now in
  runAsync (fun d =>
    let kept := filter (fun kr => not_expired (kv_expires_at kr.2) now = true)
                  (key_value_cache d) in
    (Z.of_nat (size (key_value_cache d)) - Z.of_nat (size kept),
     {| key_value_cache := kept;
        queued_tasks := queued_tasks d;
        queued_tasks_seq := queued_tasks_seq d;
        scan_order := scan_order d |})).

(** *** DatabaseService: the queued tasks *)

(** [expiresAt] is [None] for [undefined], [null] and ['forever'], a number
    of milliseconds otherwise. *)
Definition addQueuedTask (taskName argumentsJson : string) (expiresAt : option Z)
    (priority : Z) : M Z :=
  let* now := Date_now in
  let now := toUnixSeconds now in
  let expiresAtSeconds := option_map toUnixSeconds expiresAt in
  runAsync (fun d =>
    let lastInsertRowId := queued_tasks_seq d + 1 in
    (lastInsertRowId,
     {| key_value_cache := key_value_cache d;
        queued_tasks :=
          queued_tasks d ++
            [ {| task_id := lastInsertRowId; task_name := taskName;
                 arguments := argumentsJson; added_at := now;
                 expires_at := expiresAtSeconds; priority := priority |} ];
        queued_tasks_seq := lastInsertRowId;
        scan_order := scan_order d |})).

Definition extractNextQueuedTask : M (option QueuedTaskRecord) :=
  let* now := Date_now in
  let now := toUnixSeconds now in
  getFirstAsync (fun d =>
    select_next (scan_order d extractNextQueuedTask_sql) (queued_tasks d) now).

(** [DELETE FROM queued_tasks WHERE id = ?] *)
Definition deleteQueuedTask (id : Z) : M unit :=
  runAsync (fun d =>
    (tt, {| key_value_cache := key_value_cache d;
            queued_tasks := filter (fun r => task_id r <> id) (queued_tasks d);
            queued_tasks_seq := queued_tasks_seq d;
        scan_order := scan_order d |})).

Definition cleanExpiredQueuedTasks : M Z :=
  let* now := Date_now in
  let now := toUnixSeconds now in
  runAsync (fun d =>
    let kept := filter (fun r => not_expired (expires_at r) now = true)
                  (queued_tasks d) in
    (Z.of_nat (length (queued_tasks d)) - Z.of_nat (length kept),
     {| key_value_cache := key_value_cache d;
        queued_tasks := kept;
        queued_tasks_seq := queued_tasks_seq d;
        scan_order := scan_order d |})).

(** *** ProviderRepository *)

(** [register(provider, name?)]: under [name || provider.constructor.name] *)
Definition ProviderRepository_register (provider : Provider) (name : option string)
  : M unit :=
  fun w =>
    let key := match name with
               | Some n => if String.eqb n "" then Provider_constructor_name provider else n
               | None => Provider_constructor_name provider
               end in
    (Ok tt, set_providers (<[key := provider]> (providers w)) w).

Definition ProviderRepository_get (type : string) : M (option Provider) :=
  fun w => (Ok (providers w !! type), w).

(** *** Task *)

(** A task instance.  [constructor_name] is [this.constructor.name], the
    name of the concrete class; [task_db] and [task_providers] are what the
    constructor resolved. *)
Record Task : Type := {
  constructor_name : string;
  args : Arguments;
  providerNames : list string;
  fn : list Provider -> list JsValue -> M JsValue;
  task_db : Provider;
  task_providers : list Provider;
  expiry : Expiry;
}.

Definition set_expiry (e : Expiry) (t : Task) : Task :=
  {| constructor_name := constructor_name t; args := args t;
     providerNames := providerNames t; fn := fn t; task_db := task_db t;
     task_providers := task_providers t; expiry := e |}.

(** [this.providerNames.map(name => ...)], in order. *)
Fixpoint resolve_providers (names : list string) : M (list Provider) :=
  match names with
  | [] => ret []
  | name :: rest =>
      let* provider := ProviderRepository_get name in
      match provider with
      | None => throw (Error ("Provider " +:+ name +:+ " not found"))
      | Some p =>
          let* ps := resolve_providers rest in
          ret (p :: ps)
      end
  end.

(** The constructor of [Task], called by the constructor of the class
    [class_name] through [super(args, providerNames, fn)]; [args] is an
    [Arguments] object or a plain tuple. *)
Definition Task_constructor (class_name : string)
    (args : Arguments + list JsValue) (providerNames : list string)
    (fn : list Provider -> list JsValue -> M JsValue) : M Task :=
  let args := match args with
              | inl a => a
              | inr tuple => JsonArguments tuple
              end in
  let* db := ProviderRepository_get "DatabaseService" in
  match db with
  | None => throw (Error "DatabaseService not found")
  | Some db =>
      let* providers := resolve_providers providerNames in
      ret {| constructor_name := class_name; args := args;
             providerNames := providerNames; fn := fn; task_db := db;
             task_providers := providers; expiry := forever |}
  end.

(** The key of [run()]: [`${this.constructor.name}:${this.args.hash()}`] *)
Definition task_key (t : Task) : string :=
  constructor_name t +:+ ":" +:+ hash (args t).

Definition locksMap_get (key : string) : M (option (Outcome JsValue)) :=
  fun w => (Ok (locksMap w !! key), w).
Definition locksMap_set (key : string) (promise : Outcome JsValue) : M unit :=
  fun w => (Ok tt, set_locksMap (<[key := promise]> (locksMap w)) w).
Definition locksMap_delete (key : string) : M unit :=
  fun w => (Ok tt, set_locksMap (delete key (locksMap w)) w).

(** [this.fn(this.providers, ...this.args.values())]: the promise of the
    body.  One logical thread: the body has run when the promise is first
    awaited, and the promise is known by its outcome. *)
Definition call_fn (t : Task) : M (Outcome JsValue) :=
  fun w => let '(o, w') := fn t (task_providers t) (values (args t)) w in (Ok o, w').

(** [JSON.stringify(data)], as the argument of [setCache]. *)
Definition stringify_data (data : JsValue) : M (option string) :=
  match JSON_stringify data with
  | Text s => ret (Some s)
  | Undefined => ret None
  | ThrowsTypeError => throw (TypeError "Do not know how to serialize a BigInt")
  end.

(** What [run()] does when the cache has nothing for [key]: the [try]
    block with the in-flight table and the body. *)
Definition run_uncached (t : Task) (key : string) : M JsValue :=
  try_catch
    (let* lock := locksMap_get key in
     match lock with
     | Some lock => settle lock
     | None =>
         let* promise := call_fn t in
         do locksMap_set key promise then
         try_finally
           (let* data := settle promise in
            let* text := stringify_data data in
            do setCache key text (expiry t) then
            ret data)
           (locksMap_delete key)
     end)
    (fun error => throw error).

Definition run (t : Task) : M JsValue :=
  let key := task_key t in
  let* cached := getCache key in
  match cached with
  | Some cached =>
      match JSON_parse cached with
      | Some v => ret v
      | None => throw (SyntaxError "JSON Parse error")
      end
  | None => run_uncached t key
  end.

(** [serialize()]: [expires_at] is [this.expiry.getTime()], milliseconds. *)
Definition serialize (t : Task) : M QueuedTaskRecord :=
  let* now := Date_now in
  ret {| task_id := 0;
         task_name := constructor_name t;
         arguments := match JSON_stringify_replacer (JArray (values (args t))) with
                      | Text s => s
                      | _ => EmptyString
                      end;
         added_at := toUnixSeconds now;
         expires_at := match expiry t with
                       | forever => None
                       | ExpiryDate ms => Some ms
                       end;
         priority := 0 |}.

(** A registered class: [new constructor(...args)]. *)
Definition TaskConstructor : Type := list JsValue -> M Task.

(** [Task.register(instance)]: [Task.registry.set(instance.name, instance)].
    The registry is filled while the modules load, before any task runs. *)
Definition Task_register (name : string) (instance : TaskConstructor)
    (registry : gmap string TaskConstructor) : gmap string TaskConstructor :=
  <[name := instance]> registry.

Definition getFromRegistry (registry : gmap string TaskConstructor) (name : string)
  : option TaskConstructor :=
  registry !! name.

(** The arguments [...x] spreads: the elements of an array, the characters
    of a string; nothing else the parser returns is iterable. *)
Definition spread (x : JsValue) : option (list JsValue) :=
  match x with
  | JArray xs => Some xs
  | JString s =>
      Some (map (fun c => JString (String c EmptyString)) (list_ascii_of_string s))
  | _ => None
  end.

Definition deserialize (registry : gmap string TaskConstructor)
    (serialized : QueuedTaskRecord) : M Task :=
  match getFromRegistry registry (task_name serialized) with
  | None => throw (Error ("Task constructor not found: " +:+ task_name serialized))
  | Some constructor =>
      match JSON_parse_reviver (arguments serialized) with
      | None => throw (SyntaxError "JSON Parse error")
      | Some parsed =>
          match spread parsed with
          | None => throw (TypeError "Spread syntax requires ...iterable")
          | Some arguments => constructor arguments
          end
      end
  end.

(** *** The queue drainer *)

Definition runTask (registry : gmap string TaskConstructor)
    (record : QueuedTaskRecord) : M JsValue :=
  try_catch
    (let* task := deserialize registry record in
     let* result := run task in
     do deleteQueuedTask (task_id record) then
     ret result)
    (fun error =>
       do deleteQueuedTask (task_id record) then
       throw error).

(** The loop of [processQueue]; [None] when [fuel] iterations did not reach
    the [break]. *)
Fixpoint processQueue_loop (registry : gmap string TaskConstructor) (fuel : nat)
    (w : World) : option (Outcome unit * World) :=
  match fuel with
  | O => None
  | S fuel' =>
      match extractNextQueuedTask w with
      | (Ok None, w1) => Some (Ok tt, w1)
      | (Ok (Some record), w1) =>
          match runTask registry record w1 with
          | (Ok _, w2) => processQueue_loop registry fuel' w2
          | (Throw e, w2) => Some (Throw e, w2)
          end
      | (Throw e, w1) => Some (Throw e, w1)
      end
  end.

Definition processQueue (registry : gmap string TaskConstructor) (fuel : nat)
    (w : World) : option (Outcome unit * World) :=
  match providers w !! "DatabaseService" with
  | None => Some (Throw (Error "DatabaseService not found"), w)
  | Some _ => processQueue_loop registry fuel w
  end.

Definition enqueueTask (registry : gmap string TaskConstructor) (task : Task)
  : M JsValue :=
  let* db := ProviderRepository_get "DatabaseService" in
  match db with
  | None => throw (Error "DatabaseService not found")
  | Some _ =>
      let* record := serialize task in
      let* id := addQueuedTask (task_name record) (arguments record)
                   (expires_at record) (priority record) in
      runTask registry record
  end.

(** *** WaitForRelaysConnected *)

(** [RelayStatusesProvider.areRelaysConnected]:
    [this.relayStatuses.current.some(r => r.connected)] *)
Definition areRelaysConnected (provider : Provider) : M bool :=
  match provider with
  | RelayStatusesProvider current =>
      fun w => let '(statuses, e) := current (ext w) in
               (Ok (existsb connected statuses), set_ext e w)
  | _ => throw (TypeError "relayStatusesProvider.areRelaysConnected is not a function")
  end.

Definition CheckRelayStatusTask_fn (providers : list Provider) (_ : list JsValue)
  : M JsValue :=
  match providers with
  | relayStatusesProvider :: _ =>
      let* c := areRelaysConnected relayStatusesProvider in
      ret (JBool c)
  | [] => throw (TypeError "undefined is not an object")
  end.

(** [new CheckRelayStatusTask()] *)
Definition CheckRelayStatusTask : M Task :=
  let* this := Task_constructor "CheckRelayStatusTask" (inr [])
                 ["RelayStatusesProvider"] CheckRelayStatusTask_fn in
  let* now := Date_now in
  ret (set_expiry (ExpiryDate (now + 1000)) this).

(** The loop [while (count < 5) { ... count++ }] of the body, with
    [remaining = 5 - count] iterations to go. *)
Fixpoint poll_relays (remaining : nat) : M JsValue :=
  match remaining with
  | O => throw (Error "Relays did not connect in time")
  | S remaining' =>
      let* task := CheckRelayStatusTask in
      let* isConnected := run task in
      if truthy isConnected then ret JUndefined
      else
        do sleep 1000 then
        poll_relays remaining'
  end.

Definition WaitForRelaysConnectedTask_fn (_ : list Provider) (_ : list JsValue)
  : M JsValue :=
  poll_relays 5.

(** [new WaitForRelaysConnectedTask()] *)
Definition WaitForRelaysConnectedTask : M Task :=
  let* this := Task_constructor "WaitForRelaysConnectedTask" (inr []) []
                 WaitForRelaysConnectedTask_fn in
  ret (set_expiry (ExpiryDate 0) this).

(** The registry after [Task.register(WaitForRelaysConnectedTask)] and
    [Task.register(CheckRelayStatusTask)]. *)
Definition relay_tasks_registry : gmap string TaskConstructor :=
  Task_register "CheckRelayStatusTask" (fun _ => CheckRelayStatusTask)
    (Task_register "WaitForRelaysConnectedTask" (fun _ => WaitForRelaysConnectedTask) ∅).

End Engine.

Arguments Provider : clear implicits.
Arguments World : clear implicits.
Arguments M : clear implicits.
Arguments Task : clear implicits.
Arguments TaskConstructor : clear implicits.

Notation "'let*' x ':=' m 'in' k" := (bind m (fun x => k))
  (at level 10, x name, m at level 100, k at level 200).
Notation "'do' m 'then' k" := (bind m (fun _ => k))
  (at level 10, m at level 100, k at level 200).

(** ** Scenarios the properties are stated on *)

Section Scenarios.
Context {E : Type}.

(** What a drainer does with an extracted record once it is done with it. *)
Definition delete_extracted (record : option QueuedTaskRecord) : M E unit :=
  match record with
  | Some r => deleteQueuedTask (task_id r)
  | None => ret tt
  end.

(** Enqueue A (priority 5), B (priority 1), C (priority 5), each with
    its expiry, then extract four times, deleting each extracted record
    before the next call. *)
Definition enqueue_ABC_then_drain (a b c : string) (ea eb ec : option Z)
  : M E (list (option string)) :=
  do addQueuedTask "A" a ea 5 then
  do addQueuedTask "B" b eb 1 then
  do addQueuedTask "C" c ec 5 then
  let* r1 := extractNextQueuedTask in
  do delete_extracted r1 then
  let* r2 := extractNextQueuedTask in
  do delete_extracted r2 then
  let* r3 := extractNextQueuedTask in
  do delete_extracted r3 then
  let* r4 := extractNextQueuedTask in
  ret (map (option_map task_name) [r1; r2; r3; r4]).

(** The clock after [n] awaits that wait for nothing but their latency. *)
Fixpoint awaits (n : nat) (w : World E) : World E :=
  match n with
  | O => w
  | S n' => awaits n' (elapse 0 w)
  end.

End Scenarios.

(** ** Values that differ only in their functions *)

(** Every function-valued leaf of [v] replaced by one and the same function. *)
Fixpoint erase_functions (v : JsValue) : JsValue :=
  match v with
  | JFunction _ => JFunction EmptyString
  | JArray xs => JArray (map erase_functions xs)
  | JObject props =>
      JObject (map (fun kx => let '(k, x) := kx in (k, erase_functions x)) props)
  | _ => v
  end.

(** [a] and [b] are the same value up to which functions sit at their
    function-valued leaves. *)
Definition same_modulo_functions (a b : JsValue) : Prop :=
  erase_functions a = erase_functions b.

(** ** Worlds and bodies the properties are stated on *)

Section Observations.
Context {E : Type}.

(** [w'] is [w] after some time has passed and nothing else. *)
Definition later (w w' : World E) : Prop :=
  db w' = db w /\ providers w' = providers w /\ locksMap w' = locksMap w /\
  ext w' = ext w /\ now w <= now w'.

(** [w'] has the clock of [w0]: the time and the latencies to come. *)
Definition at_clock (w' w0 : World E) : Prop :=
  now w' = now w0 /\ latency w' = latency w0.

(** The seconds until which the cache keeps a result stored with the
    expiry [e]. *)
Definition expiry_seconds (e : Expiry) : option Z :=
  match e with
  | forever => None
  | ExpiryDate ms => Some (toUnixSeconds ms)
  end.

(** What [run()] answers from a cached text. *)
Definition decoded (cached : string) : Outcome JsValue :=
  match JSON_parse cached with
  | Some v => Ok v
  | None => Throw (SyntaxError "JSON Parse error")
  end.

(** What [run()] answers when the body settled as [o]: a result that
    [JSON.stringify] refuses turns into its [TypeError]. *)
Definition answered (o : Outcome JsValue) : Outcome JsValue :=
  match o with
  | Ok data =>
      match JSON_stringify data with
      | ThrowsTypeError => Throw (TypeError "Do not know how to serialize a BigInt")
      | _ => Ok data
      end
  | Throw e => Throw e
  end.
End Observations.

(** A body instrumented with a call counter: the external state is the
    number of calls so far, each call adds one and settles as [o]. *)
Definition counting_body (o : Outcome JsValue)
  : list (Provider nat) -> list JsValue -> M nat JsValue :=
  fun _ _ w => (o, set_ext (S (ext w)) w).

(** An engine whose plans visit the rows in rowid order, whatever the
    statement. *)
Definition rowid_order : string -> QueuedTaskRecord -> Z := fun _ _ => 0.

(** SQLite 3.40 with the indexes of the schema: it runs the statement of
    [extractNextQueuedTask] as the union of two searches of the index on
    [expires_at], first for the rows where it is [NULL], then for the rows
    where it is later than now, in the order of the index (dates after
    1970); other statements are left in rowid order here. *)
Definition index_on_expires_at : string -> QueuedTaskRecord -> Z :=
  fun sql r =>
    if String.eqb sql extractNextQueuedTask_sql then
      match expires_at r with
      | None => 0
      | Some e => Z.max 1 (e + 1)
      end
    else 0.

(** A world with an empty database, the database service registered, no
    task in flight and the counter at zero. *)
Definition fresh_world (time : Z) : World nat :=
  {| now := time; latency := [];
     db := {| key_value_cache := ∅; queued_tasks := []; queued_tasks_seq := 0;
       scan_order := rowid_order |};
     providers := {[ "DatabaseService" := DatabaseService ]};
     locksMap := ∅; ext := O |}.

(** A fresh world in which every await takes 600 ms. *)
Definition slow_world (time : Z) : World nat :=
  {| now := time; latency := repeat 600%N 20;
     db := {| key_value_cache := ∅; queued_tasks := []; queued_tasks_seq := 0;
              scan_order := rowid_order |};
     providers := {[ "DatabaseService" := DatabaseService ]};
     locksMap := ∅; ext := O |}.

(** A fresh world on SQLite 3.40, every await within the millisecond. *)
Definition sqlite_world (time : Z) : World nat :=
  {| now := time; latency := [];
     db := {| key_value_cache := ∅; queued_tasks := []; queued_tasks_seq := 0;
              scan_order := index_on_expires_at |};
     providers := {[ "DatabaseService" := DatabaseService ]};
     locksMap := ∅; ext := O |}.

(** [new T(1n, {amount: 5})] for a class [T] whose body is counted. *)
Definition counted_task (o : Outcome JsValue) : M nat (Task nat) :=
  Task_constructor "T" (inr [JBigInt 1; JObject [("amount", JNumber 5)]]) []
    (counting_body o).

(** The instance [counted_task o] constructs in a world where the database
    service is registered. *)
Definition counted_T (o : Outcome JsValue) : Task nat :=
  {| constructor_name := "T";
     args := JsonArguments [JBigInt 1; JObject [("amount", JNumber 5)]];
     providerNames := [];
     fn := counting_body o;
     task_db := DatabaseService;
     task_providers := [];
     expiry := forever |}.

(** The registry after [Task.register(T)]: [new T(...args)] builds a task
    whose counted body settles as [o]. *)
Definition counted_registry (o : Outcome JsValue) : gmap string (TaskConstructor nat) :=
  Task_register "T" (fun arguments => Task_constructor "T" (inr arguments) [] (counting_body o)) ∅.

(** A queue with two records waiting: the first names a class that is not
    registered, the second is a [T]. *)
Definition two_queued (time : Z) : World nat :=
  set_db
    {| key_value_cache := ∅;
       queued_tasks :=
         [ {| task_id := 1; task_name := "Gone"; arguments := "[]";
              added_at := 10; expires_at := None; priority := 0 |};
           {| task_id := 2; task_name := "T"; arguments := "[7]";
              added_at := 11; expires_at := None; priority := 0 |} ];
       queued_tasks_seq := 2;
       scan_order := rowid_order |}
    (fresh_world time).

(** ** Polling the relays *)

Section Probe.
Context {E : Type}.

(** What one call of [areRelaysConnected] answers in the environment [e],
    and the environment after it. *)
Definition probe (current : E -> list RelayInfo * E) (e : E) : bool * E :=
  let '(statuses, e') := current e in (existsb connected statuses, e').

(** The answers of [n] successive calls, and the environment after them. *)
Fixpoint poll_n (current : E -> list RelayInfo * E) (n : nat) (e : E)
  : list bool * E :=
  match n with
  | O => ([], e)
  | S n' =>
      let '(b, e1) := probe current e in
      let '(bs, e2) := poll_n current n' e1 in
      (b :: bs, e2)
  end.



End Probe.

(** An environment that counts the polls: relays are reported connected
    from the poll numbered [connect_at] on (never, if there is none). *)
Definition counting_relays (connect_at : option nat) (polls : nat)
  : list RelayInfo * nat :=
  ([ {| url := "wss://relay.one";
        connected := match connect_at with
                     | Some k => Nat.leb k (S polls)
                     | None => false
                     end |};
     {| url := "wss://relay.two"; connected := false |} ],
   S polls).

Definition relay_world (connect_at : option nat) (time : Z) : World nat :=
  set_providers
    (<["RelayStatusesProvider" := RelayStatusesProvider (counting_relays connect_at)]>
       (providers (fresh_world time)))
    (fresh_world time).




(** ** Concrete worlds *)


(** A record that expired at second 10. *)
Definition stale_record : QueuedTaskRecord :=
  {| task_id := 1; task_name := "T"; arguments := "[]";
     added_at := 5; expires_at := Some 10; priority := 9 |}.

(** At second 20, a cache entry for the counted task and a queued record
    that both expired at second 10 and were never swept. *)
Definition stale_world : World nat :=
  set_db
    {| key_value_cache :=
         {[ task_key (counted_T (Ok JNull)) :=
              {| kv_value := "null"; kv_expires_at := Some 10 |} ]};
       queued_tasks := [stale_record];
       queued_tasks_seq := 1;
       scan_order := rowid_order |}
    (fresh_world 20000).

(** One object written twice, its two members inserted in either order. *)
Definition amount_then_memo : JsValue :=
  JObject [("amount", JNumber 21); ("memo", JString "tea")].
Definition memo_then_amount : JsValue :=
  JObject [("memo", JString "tea"); ("amount", JNumber 21)].

(** Two argument tuples with a large integer and nested objects, which
    differ only in the functions at their leaves. *)
Definition tuple_a : list JsValue :=
  [ JBigInt 9007199254740993;
    JObject [ ("onDone", JFunction "resolve");
              ("request", JObject [ ("tags", JArray [JString "p"; JFunction "f"]);
                                    ("amount", JNumber 21) ]) ] ].
Definition tuple_b : list JsValue :=
  [ JBigInt 9007199254740993;
    JObject [ ("onDone", JFunction "reject");
              ("request", JObject [ ("tags", JArray [JString "p"; JFunction "g"]);
                                    ("amount", JNumber 21) ]) ] ].

(** ** Several [run()] calls for one key, interleaved *)

(** The calls of [run()] made on tasks of one class with fingerprint-equal
    arguments, hence with one key, as they interleave on the single thread
    of the process.  A caller advances by one synchronous segment of
    [run()] at a time, from one [await] to the next; between two segments
    of a caller anything else may happen: other callers advance, the
    database executes a query or a statement, a body settles, time passes.
    No order is assumed between these events beyond what each one needs to
    be enabled, so every schedule of the process is among those of the
    model. *)
Module Interleaving.

(** Where a caller's answer came from. *)
Inductive Source : Type :=
| FromCache
| FromLock (p : nat)
| FromBody (p : nat).

(** Where a caller is in [run()].  Promises of bodies are numbered in the
    order the bodies start.
    - [NotCalled]: [run()] has not been called;
    - [AwaitGetCache now answer]: in [await this.db.getCache(key)], the
      query made with [now]; [answer] is what the database returned, once
      it has executed the query;
    - [AwaitLock p]: in [return await lock], the lock being promise [p];
    - [AwaitBody p]: in [const data = await promise], the caller having
      started the body and registered its promise [p];
    - [AwaitSetCache p data row written]: in [await this.db.setCache(...)],
      which writes [row]; [written] once the database has executed it;
    - [Finished source o]: [run()] has settled as [o]. *)
Inductive Pc : Type :=
| NotCalled
| AwaitGetCache (now : Z) (answer : option (option string))
| AwaitLock (p : nat)
| AwaitBody (p : nat)
| AwaitSetCache (p : nat) (data : JsValue) (row : KeyValueCacheRecord) (written : bool)
| Finished (source : Source) (o : Outcome JsValue).

(** A caller: the [expiry] of its task instance, and where it is. *)
Record Caller : Type := {
  caller_expiry : Expiry;
  pc : Pc;
}.

(** The process, as far as the key is concerned: the clock, the row of
    [key_value_cache] for the key, the entry of [locksMap] for the key, how
    each body promise stands ([None]: pending), the callers, and two
    counters kept for the statements below: the bodies started and the
    entries removed from [locksMap]. *)
Record State : Type := {
  clock : Z;
  entry : option KeyValueCacheRecord;
  lock : option nat;
  promises : list (option (Outcome JsValue));
  started : nat;
  released : nat;
  callers : list Caller;
}.

Definition set_clock (t : Z) (s : State) : State :=
  {| clock := t; entry := entry s; lock := lock s; promises := promises s;
     started := started s; released := released s; callers := callers s |}.
Definition set_entry (r : option KeyValueCacheRecord) (s : State) : State :=
  {| clock := clock s; entry := r; lock := lock s; promises := promises s;
     started := started s; released := released s; callers := callers s |}.
Definition set_promises (ps : list (option (Outcome JsValue))) (s : State) : State :=
  {| clock := clock s; entry := entry s; lock := lock s; promises := ps;
     started := started s; released := released s; callers := callers s |}.
(** Caller [i] moves to [next]. *)
Definition move (i : nat) (next : Pc) (s : State) : State :=
  {| clock := clock s; entry := entry s; lock := lock s; promises := promises s;
     started := started s; released := released s;
     callers := alter (fun c => {| caller_expiry := caller_expiry c; pc := next |})
                  i (callers s) |}.
(** [locksMap.delete(key)] *)
Definition release (s : State) : State :=
  {| clock := clock s; entry := entry s; lock := None; promises := promises s;
     started := started s; released := S (released s); callers := callers s |}.
(** [const promise = this.fn(...); locksMap.set(key, promise)] *)
Definition start_body (s : State) : State :=
  {| clock := clock s; entry := entry s; lock := Some (length (promises s));
     promises := promises s ++ [None];
     started := S (started s); released := released s; callers := callers s |}.

(** The query of [getCache] on the row of the key. *)
Definition select_entry (row : option KeyValueCacheRecord) (now : Z)
  : option KeyValueCacheRecord :=
  match row with
  | Some r => if not_expired (kv_expires_at r) now then Some r else None
  | None => None
  end.

(** The row [setCache(key, JSON.stringify(data), expiry)] writes. *)
Definition cache_row (data : JsValue) (e : Expiry) : KeyValueCacheRecord :=
  {| kv_value := match JSON_stringify data with
                 | Text s => s
                 | _ => "{}"
                 end;
     kv_expires_at := expiry_seconds e |}.

(** What can happen. *)
Inductive Action : Type :=
| Tick (ms : N)                         (* time passes *)
| Call (i : nat)                        (* caller [i] calls [run()] *)
| DbGet (i : nat)                       (* the database executes [i]'s query *)
| DbSet (i : nat)                       (* the database executes [i]'s statement *)
| Settle (p : nat) (o : Outcome JsValue) (* the body of promise [p] settles *)
| Resume (i : nat).                     (* [i] runs on from its [await] *)

(** The segment of [run()] caller [c] executes when it runs on. *)
Definition resume (i : nat) (c : Caller) (s : State) : option State :=
  match pc c with
  | AwaitGetCache _ (Some (Some cached)) =>
      Some (move i (Finished FromCache (decoded cached)) s)
  | AwaitGetCache _ (Some None) =>
      match lock s with
      | Some p => Some (move i (AwaitLock p) s)
      | None => Some (move i (AwaitBody (length (promises s))) (start_body s))
      end
  | AwaitLock p =>
      match promises s !! p with
      | Some (Some o) => Some (move i (Finished (FromLock p) o) s)
      | _ => None
      end
  | AwaitBody p =>
      match promises s !! p with
      | Some (Some (Ok data)) =>
          match JSON_stringify data with
          | ThrowsTypeError =>
              Some (move i (Finished (FromBody p) (answered (Ok data))) (release s))
          | _ =>
              Some (move i (AwaitSetCache p data (cache_row data (caller_expiry c)) false) s)
          end
      | Some (Some (Throw e)) =>
          Some (move i (Finished (FromBody p) (Throw e)) (release s))
      | _ => None
      end
  | AwaitSetCache p data row true =>
      Some (move i (Finished (FromBody p) (Ok data)) (release s))
  | _ => None
  end.

(** The state after an action, when the action is enabled. *)
Definition act (a : Action) (s : State) : option State :=
  match a with
  | Tick ms => Some (set_clock (clock s + Z.of_N ms) s)
  | Call i =>
      match callers s !! i with
      | Some c =>
          match pc c with
          | NotCalled => Some (move i (AwaitGetCache (toUnixSeconds (clock s)) None) s)
          | _ => None
          end
      | None => None
      end
  | DbGet i =>
      match callers s !! i with
      | Some c =>
          match pc c with
          | AwaitGetCache now None =>
              Some (move i (AwaitGetCache now
                              (Some (value_or_null (select_entry (entry s) now)))) s)
          | _ => None
          end
      | None => None
      end
  | DbSet i =>
      match callers s !! i with
      | Some c =>
          match pc c with
          | AwaitSetCache p data row false =>
              Some (move i (AwaitSetCache p data row true) (set_entry (Some row) s))
          | _ => None
          end
      | None => None
      end
  | Settle p o =>
      match promises s !! p with
      | Some None => Some (set_promises (<[p := Some o]> (promises s)) s)
      | _ => None
      end
  | Resume i =>
      match callers s !! i with
      | Some c => resume i c s
      | None => None
      end
  end.

Definition step (s s' : State) : Prop := exists a, act a s = Some s'.

(** A schedule, run from [s]. *)
Fixpoint play (schedule : list Action) (s : State) : option State :=
  match schedule with
  | [] => Some s
  | a :: rest =>
      match act a s with
      | Some s' => play rest s'
      | None => None
      end
  end.

(** [n] callers that have not called yet, nothing in flight. *)
Definition init (time : Z) (row : option KeyValueCacheRecord) (expiries : list Expiry)
  : State :=
  {| clock := time; entry := row; lock := None; promises := [];
     started := O; released := O;
     callers := map (fun e => {| caller_expiry := e; pc := NotCalled |}) expiries |}.

(** Caller [i] has started the body of promise [p]. *)
Definition owns (c : Pc) (p : nat) : Prop :=
  match c with
  | AwaitBody q | AwaitSetCache q _ _ _ | Finished (FromBody q) _ => q = p
  | _ => False
  end.

(** Caller [i] holds the entry of [locksMap]: it started a body and has not
    yet removed the entry. *)
Definition holds (c : Pc) (p : nat) : Prop :=
  match c with
  | AwaitBody q | AwaitSetCache q _ _ _ => q = p
  | _ => False
  end.

(** The bodies that are executing: the promises that have not settled. *)
Definition is_pending (x : option (Outcome JsValue)) : bool :=
  match x with
  | None => true
  | Some _ => false
  end.
Definition executing (s : State) : nat :=
  length (filter (fun x => is_pending x = true) (promises s)).

(** One caller alone, its body settling as [o]. *)
Definition alone (o : Outcome JsValue) : list Action :=
  ([Call 0; DbGet 0; Resume 0; Settle 0 o; Resume 0] ++
   match answered o with
   | Ok _ => [DbSet 0; Resume 0]
   | Throw _ => []
   end)%list%nat.

(** Three callers, all called before the body settles: caller 0 starts the
    body, callers 1 and 2 find it registered. *)
Definition three_callers : list Action :=
  [Call 0; Call 1; DbGet 0; DbGet 1; Resume 0; Call 2; Resume 1; DbGet 2; Resume 2;
   Settle 0 (Ok (JNumber 7)); Resume 1; Resume 0; DbSet 0; Resume 2; Resume 0]%nat.

(** Two callers of a task whose results expire at once ([new Date(0)]):
    caller 1 calls while caller 0 is storing its result, the database
    executes the statement of caller 0 and then the query of caller 1, and
    caller 1 runs on once caller 0 has removed its entry. *)
Definition overlapping_callers : list Action :=
  [Call 0; DbGet 0; Resume 0; Settle 0 (Ok JUndefined); Resume 0; Call 1; DbSet 0;
   DbGet 1; Resume 0; Resume 1; Settle 1 (Ok JUndefined); Resume 1; DbSet 1;
   Resume 1]%nat.

(** Two callers, the body returning a [BigInt]: caller 0 starts the body,
    caller 1 finds it registered. *)
Definition bigint_callers : list Action :=
  [Call 0; Call 1; DbGet 0; DbGet 1; Resume 0; Resume 1; Settle 0 (Ok (JBigInt 5));
   Resume 1; Resume 0]%nat.

(** The state a schedule ends in. *)
Definition after (schedule : list Action) (s : State) : State :=
  match play schedule s with
  | Some s' => s'
  | None => s
  end.

Definition three_callers_end : State :=
  after three_callers (init 5000 None [forever; forever; forever]).

(** What holds in every state the callers can reach. *)
Record Invariant (s : State) : Prop := {
  inv_pending : forall p, promises s !! p = Some None -> lock s = Some p;
  inv_holder : forall i c p,
      callers s !! i = Some c -> holds (pc c) p -> lock s = Some p;
  inv_lock_lt : forall p, lock s = Some p -> (p < length (promises s))%nat;
  inv_count : started s = (released s + match lock s with Some _ => 1 | None => 0 end)%nat;
  inv_length : length (promises s) = started s;
  inv_owner_lt : forall i c p,
      callers s !! i = Some c -> owns (pc c) p -> (p < length (promises s))%nat;
  inv_owner_inj : forall i j ci cj p,
      callers s !! i = Some ci -> callers s !! j = Some cj ->
      owns (pc ci) p -> owns (pc cj) p -> i = j;
  inv_owner_ex : forall p,
      (p < length (promises s))%nat ->
      exists i c, callers s !! i = Some c /\ owns (pc c) p;
  inv_waiter : forall i c p,
      callers s !! i = Some c -> pc c = AwaitLock p -> (p < length (promises s))%nat;
  inv_joined : forall i c p o,
      callers s !! i = Some c -> pc c = Finished (FromLock p) o ->
      promises s !! p = Some (Some o);
  inv_body_done : forall i c p o,
      callers s !! i = Some c -> pc c = Finished (FromBody p) o ->
      exists o', promises s !! p = Some (Some o') /\ o = answered o';
  inv_set_cache : forall i c p data row written,
      callers s !! i = Some c -> pc c = AwaitSetCache p data row written ->
      promises s !! p = Some (Some (Ok data)) /\
      JSON_stringify data <> ThrowsTypeError;
}.

End Interleaving.

(** ** More of DatabaseService: lookups and listings of the queue *)

(** [fromUnixSeconds]: [new Date(Number(seconds) * 1000)], a date known by
    its time value in milliseconds; [None] is the Invalid Date, which is
    what [new Date] makes of a time value more than 8.64e15 ms away from
    the epoch. *)
Definition fromUnixSeconds (seconds : Z) : option Z :=
  let ms := seconds * 1000 in
  if Z.abs ms <=? 8640000000000000 then Some ms else None.

(** The options of [getQueuedTasks]; a field is [None] when it is absent. *)
Record QueuedTasksOptions : Type := {
  taskName : option string;
  excludeExpired : option bool;
  limit : option Z;
  offset : option Z;
}.

(** [getQueuedTasks()] and [getQueuedTasks({})] *)
Definition no_options : QueuedTasksOptions :=
  {| taskName := None; excludeExpired := None; limit := None; offset := None |}.

(** [options.limit ? ... : ''] and [options.offset ? ... : '']: the number
    when it is given and not zero. *)
Definition given_number (n : option Z) : option Z :=
  match n with
  | Some n => if n =? 0 then None else Some n
  | None => None
  end.

(** [LIMIT n OFFSET m] in SQLite: a negative [n] is no limit, a negative [m]
    no offset. *)
Definition limit_offset {A} (n m : Z) (rows : list A) : list A :=
  let rest := drop (Z.to_nat m) rows in
  if n <? 0 then rest else take (Z.to_nat n) rest.

(** The ids of a table with [id INTEGER PRIMARY KEY AUTOINCREMENT]: distinct,
    positive, and none above the last one handed out. *)
Definition unique_ids (d : Database) : Prop :=
  NoDup (map task_id (queued_tasks d)) /\
  Forall (fun r => 0 < task_id r <= queued_tasks_seq d) (queued_tasks d) /\
  0 <= queued_tasks_seq d.

(** The conditions of [getQueuedTasks]: [task_name = ?] when a name that is
    not empty is given, [(expires_at IS NULL OR expires_at > ?)] unless
    [excludeExpired] is [false]. *)
Definition named (options : QueuedTasksOptions) (r : QueuedTaskRecord) : bool :=
  match taskName options with
  | Some n => if String.eqb n "" then true else String.eqb (task_name r) n
  | None => true
  end.

Definition live (options : QueuedTasksOptions) (now : Z) (r : QueuedTaskRecord) : bool :=
  match excludeExpired options with
  | Some false => true
  | _ => not_expired (expires_at r) now
  end.

(** The text of the statement of [getQueuedTasks]:
<<
  `SELECT * FROM queued_tasks ${whereClause} ORDER BY priority DESC,
   added_at ASC ${limitClause} ${offsetClause}`
>>
    with [whereClause] the conditions joined by [AND] after [WHERE], or
    nothing. *)
Definition getQueuedTasks_sql (options : QueuedTasksOptions) : string :=
  let conditions :=
    (match taskName options with
     | Some n => if String.eqb n "" then [] else ["task_name = ?"]
     | None => []
     end ++
     match excludeExpired options with
     | Some false => []
     | _ => ["(expires_at IS NULL OR expires_at > ?)"]
     end)%list in
  let whereClause :=
    match conditions with
    | [] => ""
    | _ => "WHERE " +:+ join " AND " conditions
    end in
  let limitClause :=
    match given_number (limit options) with
    | Some n => "LIMIT " +:+ Number_toString n
    | None => ""
    end in
  let offsetClause :=
    match given_number (offset options) with
    | Some m => "OFFSET " +:+ Number_toString m
    | None => ""
    end in
  "SELECT * FROM queued_tasks " +:+ whereClause +:+
  " ORDER BY priority DESC, added_at ASC " +:+ limitClause +:+ " " +:+ offsetClause.

Section DatabaseMore.
Context {E : Type}.

(** [SELECT * FROM queued_tasks WHERE id = ?], then [record || null] *)
Definition getQueuedTask (id : Z) : M E (option QueuedTaskRecord) :=
  getFirstAsync (fun d => head (filter (fun r => task_id r = id) (queued_tasks d))).

(** [getQueuedTasks(options)].  With an offset and no limit the statement
    reads [... OFFSET m], which SQLite, whose [OFFSET] belongs to a
    [LIMIT], does not accept: the query fails. *)
Definition getQueuedTasks (options : QueuedTasksOptions) : M E (list QueuedTaskRecord) :=
  let* now := Date_now in
  let now := toUnixSeconds now in
  match given_number (limit options), given_number (offset options) with
  | None, Some _ =>
      fun w => (Throw (Error "near OFFSET: syntax error"), elapse 0 w)
  | n, m =>
      getFirstAsync (fun d =>
        limit_offset (default (-1) n) (default 0 m)
          (order_by
             (scan (scan_order d (getQueuedTasks_sql options))
                (filter (fun r => named options r && live options now r = true)
                   (queued_tasks d)))))
  end.

End DatabaseMore.

(** ** Values the fingerprint reads alike *)

(** [v] with every leaf, that is every value that is neither an array nor
    an object, replaced by what [g] makes of it. *)
Fixpoint relabel (g : JsValue -> JsValue) (v : JsValue) : JsValue :=
  match v with
  | JArray xs => JArray (map (relabel g) xs)
  | JObject props =>
      JObject (map (fun kx => let '(k, x) := kx in (k, relabel g x)) props)
  | _ => g v
  end.

Definition is_container (v : JsValue) : bool :=
  match v with
  | JArray _ | JObject _ => true
  | _ => false
  end.

(** A bigint as the string the replacer prints for it. *)
Definition tag_bigint (v : JsValue) : JsValue :=
  match v with
  | JBigInt n => JString ("BigInt(" +:+ Number_toString n +:+ ")")
  | _ => v
  end.

(** What [flattenObject] returns for a value with no member named
    [hasOwnProperty] or [__proto__] (lemma [flattenObject_ordinary]): every
    call of [hasOwnProperty] is the inherited one and every assignment
    stores a member. *)
Fixpoint flattened (ob : JsValue) {struct ob} : list (string * JsValue) :=
  match ob with
  | JArray xs =>
      (fix each (i : Z) (xs : list JsValue) (toReturn : list (string * JsValue))
         : list (string * JsValue) :=
         match xs with
         | [] => toReturn
         | v :: xs' =>
             each (i + 1) xs'
               (if String.eqb (typeof v) "object" then
                  fold_left
                    (fun acc xf => obj_set (Number_toString i +:+ "." +:+ fst xf) (snd xf) acc)
                    (flattened v) toReturn
                else obj_set (Number_toString i) v toReturn)
         end) 0 xs []
  | JObject props =>
      (fix each (props : list (string * JsValue)) (toReturn : list (string * JsValue))
         : list (string * JsValue) :=
         match props with
         | [] => toReturn
         | (i, v) :: props' =>
             each props'
               (if String.eqb (typeof v) "object" then
                  fold_left
                    (fun acc xf => obj_set (i +:+ "." +:+ fst xf) (snd xf) acc)
                    (flattened v) toReturn
                else obj_set i v toReturn)
         end) props []
  | _ => []
  end.

(** A key that is neither [hasOwnProperty] nor [__proto__]. *)
Definition plain_key (k : string) : bool :=
  negb (String.eqb k "hasOwnProperty") && negb (String.eqb k "__proto__").

(** A value with no member named [hasOwnProperty] or [__proto__], at any
    depth. *)
Fixpoint ordinary (v : JsValue) : bool :=
  match v with
  | JArray xs => forallb ordinary xs
  | JObject props => forallb (fun kx => plain_key (fst kx) && ordinary (snd kx)) props
  | _ => true
  end.

(** One turn of the loop of [flattened], on the property [i] that holds
    [v]. *)
Definition flatten_property (toReturn : list (string * JsValue)) (iv : string * JsValue)
  : list (string * JsValue) :=
  if String.eqb (typeof iv.2) "object" then
    fold_left (fun acc xf => obj_set (iv.1 +:+ "." +:+ fst xf) (snd xf) acc)
      (flattened iv.2) toReturn
  else obj_set iv.1 iv.2 toReturn.

(** An ordinary value that [flattenObject] descends into and finds no leaf
    in: [null], an empty array, an empty object, an array or object of
    such. *)
Definition hollow (v : JsValue) : Prop :=
  ordinary v = true /\ typeof v = "object" /\ flattenObject v = Some [].

(** The keys of an object in the order the engine enumerates them: no key
    twice, the array indices first and ascending, then the other keys. *)
Fixpoint ordered_keys (ks : list string) : Prop :=
  match ks with
  | [] => True
  | k :: rest =>
      (k ∉ rest) /\ ordered_keys rest /\
      match array_index k with
      | Some n =>
          Forall (fun k' => match array_index k' with
                            | Some n' => n < n'
                            | None => True
                            end) rest
      | None => Forall (fun k' => array_index k' = None) rest
      end
  end.

(** ** Providers *)

Section ProvidersMore.
Context {E : Type}.

(** [RelayStatusesProvider.waitForRelaysConnected()]:
<<
  new Promise((resolve, reject) => {
    const interval = setInterval(() => {
      if (this.areRelaysConnected()) { clearInterval(interval); resolve(); }
    }, 500);
  })
>>
    as the promise stands after [ticks] ticks of the interval: [None] while
    it is pending. *)
Fixpoint waitForRelaysConnected (current : E -> list RelayInfo * E) (ticks : nat)
    (w : World E) : option (Outcome unit * World E) :=
  match ticks with
  | O => None
  | S ticks' =>
      match areRelaysConnected (RelayStatusesProvider current) (elapse 500 w) with
      | (Ok true, w1) => Some (Ok tt, w1)
      | (_, w1) => waitForRelaysConnected current ticks' w1
      end
  end.

End ProvidersMore.

(** ** Interleaved callers: where the cache row comes from *)

(** The cache row of the key is the row [row0], or the row written for a
    body that returned: some caller started a body whose promise resolved
    with [data], [JSON.stringify] accepts [data], and the row holds the text
    of [data] and the expiry of that caller's task. *)
Definition cached_from_a_result (row0 : option KeyValueCacheRecord)
    (s : Interleaving.State) : Prop :=
  Interleaving.entry s = row0 \/
  exists i c p data,
    Interleaving.callers s !! i = Some c /\
    Interleaving.owns (Interleaving.pc c) p /\
    Interleaving.promises s !! p = Some (Some (Ok data)) /\
    JSON_stringify data <> ThrowsTypeError /\
    Interleaving.entry s =
      Some (Interleaving.cache_row data (Interleaving.caller_expiry c)).

(** What is kept along the way: a caller in [setCache] writes the row of
    the result it awaited. *)
Record CacheInvariant (row0 : option KeyValueCacheRecord) (s : Interleaving.State)
  : Prop := {
  cinv_entry : cached_from_a_result row0 s;
  cinv_row : forall i c p data row written,
      Interleaving.callers s !! i = Some c ->
      Interleaving.pc c = Interleaving.AwaitSetCache p data row written ->
      row = Interleaving.cache_row data (Interleaving.caller_expiry c);
}.

(** ** More worlds the properties are stated on *)

(** [new T(1)] for the class [T] whose counted body settles as [o]. *)
Definition counted_T1 (o : Outcome JsValue) : Task nat :=
  {| constructor_name := "T";
     args := JsonArguments [JNumber 1];
     providerNames := [];
     fn := counting_body o;
     task_db := DatabaseService;
     task_providers := [];
     expiry := forever |}.

(** A queue with two records of [T], both made from [new T(1)]. *)
Definition queue_of_two (time : Z) : World nat :=
  set_db
    {| key_value_cache := ∅;
       queued_tasks :=
         [ {| task_id := 1; task_name := "T"; arguments := "[1]";
              added_at := 10; expires_at := None; priority := 0 |};
           {| task_id := 2; task_name := "T"; arguments := "[1]";
              added_at := 11; expires_at := None; priority := 0 |} ];
       queued_tasks_seq := 2;
       scan_order := rowid_order |}
    (fresh_world time).

(** What a drain pass over such a queue keeps: the providers of a fresh
    world, nothing in flight, records of [new T(1)] only, and in the cache
    nothing for their key but the text of the body's result 7. *)
Definition draining_T1 (w : World nat) : Prop :=
  providers w = providers (fresh_world 0) /\
  locksMap w = ∅ /\
  Forall (fun r => task_name r = "T" /\ arguments r = "[1]") (queued_tasks (db w)) /\
  forall entry,
    key_value_cache (db w) !! task_key (counted_T1 (Ok (JNumber 7))) = Some entry ->
    entry = {| kv_value := "7"; kv_expires_at := None |}.

(** [new T('BigInt(5)', ['BigInt(-12)'])]: strings that spell bigints. *)
Definition spelled_T (o : Outcome JsValue) : Task nat :=
  {| constructor_name := "T";
     args := JsonArguments [JString "BigInt(5)"; JArray [JString "BigInt(-12)"]];
     providerNames := [];
     fn := counting_body o;
     task_db := DatabaseService;
     task_providers := [];
     expiry := forever |}.

(** A result with a member of every kind of JSON. *)
Definition receipt : JsValue :=
  JObject [("amount", JNumber 5); ("memo", JString "a\b, {c}");
           ("tags", JArray [JNull; JBool true; JNumber (-12)])].

(** ** Values that JSON carries over *)

(** The members of an object are in the order [for ... in] enumerates
    them, no key twice: setting them one after the other on an empty object
    gives the object back. *)
Definition in_own_order (props : list (string * JsValue)) : Prop :=
  fold_left (fun acc kx => obj_set kx.1 kx.2 acc) props [] = props.

(** The values [JSON.parse] returns: [null], booleans, numbers (here the
    integers a double holds exactly), strings, arrays and objects of such
    values. *)
Inductive json_value : JsValue -> Prop :=
| json_null : json_value JNull
| json_bool b : json_value (JBool b)
| json_number n :
    - 9007199254740991 <= n <= 9007199254740991 -> json_value (JNumber n)
| json_string s : json_value (JString s)
| json_array xs : Forall json_value xs -> json_value (JArray xs)
| json_object props :
    Forall (fun kx => json_value kx.2) props -> in_own_order props ->
    json_value (JObject props).

(** The arguments [serialize()] writes and [deserialize()] reads back as
    they were: the values of JSON and bigints, but no string that starts
    with [BigInt(]. *)
Inductive plain_argument : JsValue -> Prop :=
| plain_null : plain_argument JNull
| plain_bool b : plain_argument (JBool b)
| plain_number n :
    - 9007199254740991 <= n <= 9007199254740991 -> plain_argument (JNumber n)
| plain_bigint n : plain_argument (JBigInt n)
| plain_string s : String.prefix "BigInt(" s = false -> plain_argument (JString s)
| plain_array xs : Forall plain_argument xs -> plain_argument (JArray xs)
| plain_object props :
    Forall (fun kx => plain_argument kx.2) props -> in_own_order props ->
    plain_argument (JObject props).

(** The number of values in a value, itself included, and one for every
    element and member: the fuel that parsing its text takes. *)
Fixpoint value_size (v : JsValue) : nat :=
  match v with
  | JArray xs =>
      S ((fix sum (xs : list JsValue) : nat :=
            match xs with
            | [] => O
            | x :: xs' => S (value_size x + sum xs')
            end) xs)
  | JObject props =>
      S ((fix sum (props : list (string * JsValue)) : nat :=
            match props with
            | [] => O
            | (_, x) :: props' => S (value_size x + sum props')
            end) props)
  | _ => 1%nat
  end.

(** What may follow the text of a value inside a JSON text: nothing, a
    comma, or a closing bracket or brace. *)
Definition delimited (rest : list ascii) : Prop :=
  match rest with
  | [] => True
  | c :: _ => c = ","%char \/ c = "]"%char \/ c = "}"%char
  end.

(** The number the decimal digits [d] denote after the digits of [acc]. *)
Fixpoint digits_after (d : Decimal.uint) (acc : Z) : Z :=
  match d with
  | Decimal.Nil => acc
  | Decimal.D0 l => digits_after l (10 * acc + 0)
  | Decimal.D1 l => digits_after l (10 * acc + 1)
  | Decimal.D2 l => digits_after l (10 * acc + 2)
  | Decimal.D3 l => digits_after l (10 * acc + 3)
  | Decimal.D4 l => digits_after l (10 * acc + 4)
  | Decimal.D5 l => digits_after l (10 * acc + 5)
  | Decimal.D6 l => digits_after l (10 * acc + 6)
  | Decimal.D7 l => digits_after l (10 * acc + 7)
  | Decimal.D8 l => digits_after l (10 * acc + 8)
  | Decimal.D9 l => digits_after l (10 * acc + 9)
  end.

(** [text] is read back as [v]: it starts with a character that is no
    white space and closes nothing, it is long enough for the fuel
    [JSON.parse] takes, and with enough fuel, whatever delimited text
    follows it, the parser returns [v] and what follows. *)
Definition reads_back (v : JsValue) (text : string) : Prop :=
  (exists c tl, list_ascii_of_string text = c :: tl /\ is_ws c = false /\
                c <> "]"%char /\ c <> "}"%char) /\
  (value_size v <= 2 * String.length text)%nat /\
  forall fuel rest,
    (value_size v <= fuel)%nat -> delimited rest ->
    parse_value fuel (list_ascii_of_string text ++ rest) = Some (v, rest).

(** ** Prompting the user *)

(** A pending request as the tasks build it: [id], [metadata],
    [timestamp], [type] and [result], the [resolve] of the promise the task
    waits on, known here by a number. *)
Record PendingRequest : Type := {
  request_id : string;
  request_metadata : JsValue;
  request_timestamp : Z;
  request_type : string;
  request_result : nat;
}.

Record UserPromptData : Type := {
  notification : JsValue;
  pendingRequest : PendingRequest;
}.

(** The names an object inherits from [Object.prototype]; under each of
    them [prev[name]] is a function or an object, a truthy value. *)
Definition Object_prototype : list string :=
  [ "constructor"; "__defineGetter__"; "__defineSetter__"; "hasOwnProperty";
    "__lookupGetter__"; "__lookupSetter__"; "isPrototypeOf"; "propertyIsEnumerable";
    "toString"; "valueOf"; "__proto__"; "toLocaleString" ].

(** [prev[id]] is truthy: [prev] has a request under [id] (every request
    is an object), or [id] is a name it inherits. *)
Definition shown (prev : gmap string PendingRequest) (id : string) : bool :=
  match prev !! id with
  | Some _ => true
  | None => bool_decide (id ∈ Object_prototype)
  end.

(** The update [promptUser] hands to the callback:
<<
  prev => { if (prev[request.id]) return prev;
            return { ...prev, [request.id]: request }; }
>> *)
Definition pending_update (request : PendingRequest) (prev : gmap string PendingRequest)
  : gmap string PendingRequest :=
  if shown prev (request_id request) then prev
  else <[request_id request := request]> prev.

(** [PromptUserWithPendingCard.promptUser]: [this.cb(prev => ...)]. *)
Definition PromptUserWithPendingCard_promptUser {A : Type}
    (cb : (gmap string PendingRequest -> gmap string PendingRequest) -> A)
    (promptData : UserPromptData) : A :=
  cb (pending_update (pendingRequest promptData)).

(** A callback that is the setter of a state: it applies the update to
    the state. *)
Definition set_state (update : gmap string PendingRequest -> gmap string PendingRequest)
    (state : gmap string PendingRequest) : gmap string PendingRequest :=
  update state.

(* ===================================================================== *)
(** * Part II: properties                                                *)
(* ===================================================================== *)

(** ** The clock *)

Section Clock.
Context {E : Type}.
Implicit Types w : World E.

Lemma now_elapse w ms : 0 <= ms -> now w + ms <= now (elapse ms w).
Proof. intros Hms. unfold elapse. cbn. lia. Qed.

Lemma db_elapse w ms : db (elapse ms w) = db w.
Proof. reflexivity. Qed.

Lemma toUnixSeconds_mono a b : a <= b -> toUnixSeconds a <= toUnixSeconds b.
Proof. intros H. unfold toUnixSeconds. apply Z.div_le_mono; lia. Qed.

Lemma toUnixSeconds_plus_1000 a : toUnixSeconds (a + 1000) = toUnixSeconds a + 1.
Proof.
  unfold toUnixSeconds.
  replace (a + 1000) with (a + 1 * 1000) by lia.
  rewrite Z.div_add by lia. reflexivity.
Qed.
End Clock.

(** ** The queue: order and expiry *)

Section QueueOrder.
Implicit Types r x : QueuedTaskRecord.
Implicit Types rows : list QueuedTaskRecord.

Lemma precedes_true a b :
  precedes a b = true <->
  priority b < priority a \/ (priority a = priority b /\ added_at a < added_at b).
Proof.
  unfold precedes.
  rewrite orb_true_iff, andb_true_iff, !Z.ltb_lt, Z.eqb_eq. tauto.
Qed.

(** Not sorting before [r]: no higher priority, and not older at the same
    priority. *)
Lemma precedes_false x r :
  precedes x r = false <->
  priority x <= priority r /\ (priority x = priority r -> added_at r <= added_at x).
Proof.
  rewrite <- not_true_iff_false, precedes_true. lia.
Qed.

Lemma elem_of_insert_row x r sorted :
  x ∈ insert_row r sorted <-> x = r \/ x ∈ sorted.
Proof.
  induction sorted as [|y rest IH]; cbn.
  - rewrite list_elem_of_singleton. set_solver.
  - destruct (precedes y r); rewrite !elem_of_cons; [rewrite IH|]; tauto.
Qed.

Lemma order_by_cons r rows : order_by (r :: rows) = insert_row r (order_by rows).
Proof. reflexivity. Qed.

Lemma elem_of_order_by x rows : x ∈ order_by rows <-> x ∈ rows.
Proof.
  induction rows as [|r rows IH]; [reflexivity|].
  rewrite order_by_cons, elem_of_insert_row, IH, elem_of_cons. tauto.
Qed.

Lemma head_insert_row r sorted :
  head (insert_row r sorted) =
  match head sorted with
  | Some y => if precedes y r then Some y else Some r
  | None => Some r
  end.
Proof. destruct sorted as [|y rest]; cbn; [|destruct (precedes y r)]; reflexivity. Qed.

(** The first row of the ordered list is a row nothing sorts before. *)
Lemma head_order_by rows r :
  head (order_by rows) = Some r ->
  r ∈ rows /\ forall x, x ∈ rows -> precedes x r = false.
Proof.
  revert r. induction rows as [|a rows IH]; intros r; [discriminate|].
  rewrite order_by_cons, head_insert_row.
  destruct (head (order_by rows)) as [y|] eqn:Hhead.
  - destruct (IH y eq_refl) as [Hy Hmin].
    destruct (precedes y a) eqn:Hya; intros Heq; injection Heq as <-.
    + split; [set_solver|]. intros x [->|Hx]%elem_of_cons; [|auto].
      apply precedes_true in Hya. apply precedes_false. lia.
    + split; [set_solver|]. intros x [->|Hx]%elem_of_cons.
      * apply precedes_false. lia.
      * specialize (Hmin x Hx).
        apply precedes_false in Hya, Hmin. apply precedes_false. lia.
  - intros Heq; injection Heq as <-. split; [set_solver|].
    destruct rows as [|b rows']; [|rewrite order_by_cons, head_insert_row in Hhead;
      destruct (head (order_by rows')) as [z|]; [destruct (precedes z b)|]; discriminate].
    intros x ->%list_elem_of_singleton. apply precedes_false. lia.
Qed.

Lemma head_order_by_None rows : head (order_by rows) = None -> rows = [].
Proof.
  destruct rows as [|a rows]; [reflexivity|]. rewrite order_by_cons, head_insert_row.
  destruct (head (order_by rows)) as [y|]; [destruct (precedes y a)|]; discriminate.
Qed.

Lemma elem_of_visit_row place x r visited :
  x ∈ visit_row place r visited <-> x = r \/ x ∈ visited.
Proof.
  induction visited as [|y rest IH]; cbn.
  - rewrite list_elem_of_singleton. set_solver.
  - destruct (place y <? place r); rewrite !elem_of_cons; [rewrite IH|]; tauto.
Qed.

Lemma scan_cons place r rows : scan place (r :: rows) = visit_row place r (scan place rows).
Proof. reflexivity. Qed.

(** A plan visits every row, and nothing else. *)
Lemma elem_of_scan place x rows : x ∈ scan place rows <-> x ∈ rows.
Proof.
  induction rows as [|r rows IH]; [reflexivity|].
  rewrite scan_cons, elem_of_visit_row, IH, elem_of_cons. tauto.
Qed.

Lemma scan_nil_inv place rows : scan place rows = [] -> rows = [].
Proof.
  destruct rows as [|r rows]; [done|]. intros Hnil.
  assert (r ∈ scan place (r :: rows)) as Hin by (apply elem_of_scan; left).
  rewrite Hnil in Hin. by apply elem_of_nil in Hin.
Qed.

Lemma select_next_Some place rows now r :
  select_next place rows now = Some r ->
  r ∈ rows /\ not_expired (expires_at r) now = true /\
  forall x, x ∈ rows -> not_expired (expires_at x) now = true ->
            precedes x r = false.
Proof.
  unfold select_next. intros [Hr Hmin]%head_order_by.
  apply elem_of_scan, list_elem_of_filter in Hr as [Hlive Hr].
  split; [done|]. split; [done|].
  intros x Hx Hxlive. apply Hmin. apply elem_of_scan, list_elem_of_filter. done.
Qed.

Lemma select_next_None place rows now :
  select_next place rows now = None ->
  forall x, x ∈ rows -> not_expired (expires_at x) now = false.
Proof.
  unfold select_next. intros Hnil%head_order_by_None%scan_nil_inv x Hx.
  destruct (not_expired (expires_at x) now) eqn:Hlive; [|done].
  assert (x ∈ filter (fun r => not_expired (expires_at r) now = true) rows) as Hin
    by (apply list_elem_of_filter; done).
  rewrite Hnil in Hin. by apply elem_of_nil in Hin.
Qed.

Lemma not_expired_mono expires t t' :
  t <= t' -> not_expired expires t' = true -> not_expired expires t = true.
Proof. destruct expires as [e|]; cbn; [|done]. rewrite !Z.ltb_lt. lia. Qed.

Lemma not_expired_past e now : e <= now -> not_expired (Some e) now = false.
Proof. intros H. cbn. apply Z.ltb_ge. done. Qed.
End QueueOrder.

Section QueueClaims.
Context {E : Type}.
Implicit Types w : World E.

Lemma getCache_eq key w :
  getCache key w =
  (Ok (value_or_null (select_cache (key_value_cache (db w)) key (toUnixSeconds (now w)))),
   elapse 0 w).
Proof. reflexivity. Qed.

Lemma extractNextQueuedTask_eq w :
  extractNextQueuedTask w =
  (Ok (select_next (scan_order (db w) extractNextQueuedTask_sql)
         (queued_tasks (db w)) (toUnixSeconds (now w))),
   elapse 0 w).
Proof. reflexivity. Qed.

Lemma run_eq (t : Task E) w :
  run t w =
  match value_or_null
          (select_cache (key_value_cache (db w)) (task_key t) (toUnixSeconds (now w))) with
  | Some cached =>
      match JSON_parse cached with
      | Some v => (Ok v, elapse 0 w)
      | None => (Throw (SyntaxError "JSON Parse error"), elapse 0 w)
      end
  | None => run_uncached t (task_key t) (elapse 0 w)
  end.
Proof.
  unfold run, bind. rewrite getCache_eq.
  destruct (value_or_null _) as [cached|]; [|reflexivity].
  destruct (JSON_parse cached); reflexivity.
Qed.

Lemma select_cache_expired (cache : gmap string KeyValueCacheRecord) key entry e now :
  cache !! key = Some entry -> kv_expires_at entry = Some e -> e <= now ->
  select_cache cache key now = None.
Proof.
  intros Hk He Hpast. unfold select_cache. rewrite Hk, He.
  rewrite not_expired_past by done. reflexivity.
Qed.

(** C4.  An entry of the cache whose [expires_at] is a timestamp that is
    not in the future is not returned by [getCache], so [run()] goes on as
    if the cache had nothing for the key; a queued record whose
    [expires_at] is not in the future is not returned by
    [extractNextQueuedTask].  Both hold in any state of the tables, swept
    or not. *)
Theorem C4_expired_never_returned w :
  (forall key entry e,
      key_value_cache (db w) !! key = Some entry ->
      kv_expires_at entry = Some e ->
      e <= toUnixSeconds (now w) ->
      fst (getCache key w) = Ok None) /\
  (forall (t : Task E) entry e,
      key_value_cache (db w) !! task_key t = Some entry ->
      kv_expires_at entry = Some e ->
      e <= toUnixSeconds (now w) ->
      run t w = run_uncached t (task_key t) (elapse 0 w)) /\
  (forall r e,
      r ∈ queued_tasks (db w) ->
      expires_at r = Some e ->
      e <= toUnixSeconds (now w) ->
      fst (extractNextQueuedTask w) <> Ok (Some r)).
Proof.
  split; [|split].
  - intros key entry e Hk He Hpast. rewrite getCache_eq. cbn.
    by rewrite (select_cache_expired _ _ _ _ _ Hk He Hpast).
  - intros t entry e Hk He Hpast. rewrite run_eq.
    by rewrite (select_cache_expired _ _ _ _ _ Hk He Hpast).
  - intros r e Hr He Hpast. rewrite extractNextQueuedTask_eq. cbn.
    intros [= Hsel]. apply select_next_Some in Hsel as (_ & Hlive & _).
    rewrite He, not_expired_past in Hlive by done. discriminate.
Qed.

(** One step of a sequence: the first command is known to return. *)
Lemma bind_Ok {A B} (m : M E A) (k : A -> M E B) w a w' :
  m w = (Ok a, w') -> bind m k w = k a w'.
Proof. intros H. unfold bind. by rewrite H. Qed.

Lemma bind_Throw {A B} (m : M E A) (k : A -> M E B) w e w' :
  m w = (Throw e, w') -> bind m k w = (Throw e, w').
Proof. intros H. unfold bind. by rewrite H. Qed.

(** A live row that sorts strictly before every other live row is the one
    selected, whatever the plan. *)
Lemma select_next_strict place rows now r :
  r ∈ rows -> not_expired (expires_at r) now = true ->
  (forall x, x ∈ rows -> not_expired (expires_at x) now = true -> x <> r ->
             precedes r x = true) ->
  select_next place rows now = Some r.
Proof.
  intros Hr Hlive Hfirst.
  destruct (select_next place rows now) as [r'|] eqn:Hsel.
  - apply select_next_Some in Hsel as (Hr' & Hlive' & Hmin).
    destruct (decide (r' = r)) as [->|Hne]; [done|].
    specialize (Hfirst r' Hr' Hlive' Hne). specialize (Hmin r Hr Hlive).
    apply precedes_true in Hfirst. apply precedes_false in Hmin.
    destruct Hmin as [Hp Ha]. destruct Hfirst as [?|[Heq ?]]; [lia|].
    specialize (Ha Heq). lia.
  - pose proof (select_next_None _ _ _ Hsel r Hr). congruence.
Qed.

(** The clock does not go back. *)
Lemma now_awaits n w : now w <= now (awaits n w).
Proof.
  revert w. induction n as [|n IH]; intros w; [done|].
  cbn [awaits]. etransitivity; [|apply IH]. cbn. lia.
Qed.

Lemma awaits_add n m w : awaits (n + m) w = awaits m (awaits n w).
Proof. revert w. induction n as [|n IH]; intros w; [done|]. cbn. apply IH. Qed.

Lemma now_awaits_le n m w : (n <= m)%nat -> now (awaits n w) <= now (awaits m w).
Proof.
  intros Hnm. replace m with (n + (m - n))%nat by lia.
  rewrite awaits_add. apply now_awaits.
Qed.

Lemma addQueuedTask_spec name args e p w w0 :
  at_clock w w0 ->
  exists w',
    addQueuedTask name args e p w = (Ok (queued_tasks_seq (db w) + 1), w') /\
    queued_tasks (db w') =
      (queued_tasks (db w) ++
        [ {| task_id := queued_tasks_seq (db w) + 1; task_name := name;
             arguments := args; added_at := toUnixSeconds (now w0);
             expires_at := option_map toUnixSeconds e; priority := p |} ])%list /\
    queued_tasks_seq (db w') = queued_tasks_seq (db w) + 1 /\
    scan_order (db w') = scan_order (db w) /\
    at_clock w' (elapse 0 w0).
Proof.
  intros [Hnow Hlat]. exists (snd (addQueuedTask name args e p w)).
  split; [reflexivity|]. unfold at_clock. cbn. rewrite ?Hnow, ?Hlat. repeat split.
Qed.

Lemma extractNextQueuedTask_spec w w0 :
  at_clock w w0 ->
  exists w',
    extractNextQueuedTask w =
      (Ok (select_next (scan_order (db w) extractNextQueuedTask_sql)
             (queued_tasks (db w)) (toUnixSeconds (now w0))), w') /\
    db w' = db w /\ at_clock w' (elapse 0 w0).
Proof.
  intros [Hnow Hlat]. exists (snd (extractNextQueuedTask w)).
  split; [by rewrite extractNextQueuedTask_eq, Hnow|]. unfold at_clock. cbn.
  rewrite ?Hnow, ?Hlat. repeat split.
Qed.

Lemma deleteQueuedTask_spec id w w0 :
  at_clock w w0 ->
  exists w',
    deleteQueuedTask id w = (Ok tt, w') /\
    queued_tasks (db w') = filter (fun r => task_id r <> id) (queued_tasks (db w)) /\
    scan_order (db w') = scan_order (db w) /\
    at_clock w' (elapse 0 w0).
Proof.
  intros [Hnow Hlat]. exists (snd (deleteQueuedTask id w)).
  split; [reflexivity|]. unfold at_clock. cbn. rewrite ?Hnow, ?Hlat. repeat split.
Qed.

Lemma elapse_awaits n w : elapse 0 (awaits n w) = awaits (S n) w.
Proof. revert w. induction n as [|n IH]; intros w; [done|]. cbn [awaits]. apply IH. Qed.

Lemma enqueue_ABC_then_drain_names w a b c ea eb ec :
  queued_tasks (db w) = [] ->
  toUnixSeconds (now w) < toUnixSeconds (now (awaits 2 w)) ->
  Forall (fun e => not_expired (option_map toUnixSeconds e)
                     (toUnixSeconds (now (awaits 7 w))) = true) [ea; eb; ec] ->
  fst (enqueue_ABC_then_drain a b c ea eb ec w) =
    Ok [Some "A"; Some "C"; Some "B"; None].
Proof.
  intros Hempty Hsecond Hlive. unfold enqueue_ABC_then_drain.
  apply Forall_cons in Hlive as [Hla Hlive].
  apply Forall_cons in Hlive as [Hlb Hlive].
  apply Forall_cons in Hlive as [Hlc _].
  assert (forall n e, (n <= 7)%nat ->
            not_expired (option_map toUnixSeconds e)
              (toUnixSeconds (now (awaits 7 w))) = true ->
            not_expired (option_map toUnixSeconds e)
              (toUnixSeconds (now (awaits n w))) = true) as Hearlier.
  { intros n e Hn. apply not_expired_mono, toUnixSeconds_mono, now_awaits_le. done. }
  assert (at_clock w (awaits 0 w)) as Hc0 by (by split).
  destruct (addQueuedTask_spec "A" a ea 5 w _ Hc0) as (w1 & Hrun1 & Hq1 & Hs1 & _ & Hc1).
  rewrite elapse_awaits in Hc1.
  destruct (addQueuedTask_spec "B" b eb 1 w1 _ Hc1) as (w2 & Hrun2 & Hq2 & Hs2 & _ & Hc2).
  rewrite elapse_awaits in Hc2.
  destruct (addQueuedTask_spec "C" c ec 5 w2 _ Hc2) as (w3 & Hrun3 & Hq3 & Hs3 & _ & Hc3).
  rewrite elapse_awaits in Hc3.
  rewrite (bind_Ok _ _ _ _ _ Hrun1), (bind_Ok _ _ _ _ _ Hrun2), (bind_Ok _ _ _ _ _ Hrun3).
  rewrite Hq2, Hq1, Hempty, Hs2, Hs1 in Hq3.
  cbn [app] in Hq3.
  clear Hrun1 Hrun2 Hrun3 Hq1 Hq2 Hs1 Hs2 Hs3 Hempty Hc0 Hc1 Hc2.
  set (s := queued_tasks_seq (db w)) in *.
  set (ra := {| task_id := s + 1; task_name := "A" |}) in Hq3.
  set (rb := {| task_id := s + 1 + 1; task_name := "B" |}) in Hq3.
  set (rc := {| task_id := s + 1 + 1 + 1; task_name := "C" |}) in Hq3.
  assert (precedes ra rb = true) as Hab by (apply precedes_true; left; cbn; lia).
  assert (precedes rc rb = true) as Hcb by (apply precedes_true; left; cbn; lia).
  assert (precedes ra rc = true) as Hac.
  { apply precedes_true. right. split; [reflexivity|]. exact Hsecond. }
  assert (task_id rb <> task_id ra /\ task_id rc <> task_id ra /\ task_id rb <> task_id rc)
    as (Hba & Hca & Hbc) by (cbn; lia).
  (* first extraction: A *)
  destruct (extractNextQueuedTask_spec w3 _ Hc3) as (w4 & Hrun4 & Hdb4 & Hc4).
  rewrite elapse_awaits in Hc4.
  rewrite Hq3, (select_next_strict _ _ _ ra) in Hrun4; cycle 1.
  { apply list_elem_of_here. }
  { apply (Hearlier 3%nat ea); [lia|done]. }
  { intros x Hx _ Hne. repeat apply elem_of_cons in Hx as [->|Hx]; [done..|].
    by apply elem_of_nil in Hx. }
  rewrite (bind_Ok _ _ _ _ _ Hrun4). cbn [delete_extracted].
  destruct (deleteQueuedTask_spec (task_id ra) w4 _ Hc4) as (w5 & Hrun5 & Hq5 & _ & Hc5).
  rewrite elapse_awaits in Hc5.
  rewrite Hdb4, Hq3, !filter_cons, filter_nil in Hq5.
  rewrite decide_False, !decide_True in Hq5 by (done || by intros ?).
  rewrite (bind_Ok _ _ _ _ _ Hrun5).
  (* second extraction: C *)
  destruct (extractNextQueuedTask_spec w5 _ Hc5) as (w6 & Hrun6 & Hdb6 & Hc6).
  rewrite elapse_awaits in Hc6.
  rewrite Hq5, (select_next_strict _ _ _ rc) in Hrun6; cycle 1.
  { apply elem_of_cons. right. apply list_elem_of_here. }
  { apply (Hearlier 5%nat ec); [lia|done]. }
  { intros x Hx _ Hne. repeat apply elem_of_cons in Hx as [->|Hx]; [done..|].
    by apply elem_of_nil in Hx. }
  rewrite (bind_Ok _ _ _ _ _ Hrun6). cbn [delete_extracted].
  destruct (deleteQueuedTask_spec (task_id rc) w6 _ Hc6) as (w7 & Hrun7 & Hq7 & _ & Hc7).
  rewrite elapse_awaits in Hc7.
  rewrite Hdb6, Hq5, !filter_cons, filter_nil in Hq7.
  rewrite decide_True, decide_False in Hq7 by (done || by intros ?).
  rewrite (bind_Ok _ _ _ _ _ Hrun7).
  (* third extraction: B *)
  destruct (extractNextQueuedTask_spec w7 _ Hc7) as (w8 & Hrun8 & Hdb8 & Hc8).
  rewrite elapse_awaits in Hc8.
  rewrite Hq7, (select_next_strict _ _ _ rb) in Hrun8; cycle 1.
  { apply list_elem_of_here. }
  { apply (Hearlier 7%nat eb); [lia|done]. }
  { intros x Hx _ Hne. repeat apply elem_of_cons in Hx as [->|Hx]; [done..|].
    by apply elem_of_nil in Hx. }
  rewrite (bind_Ok _ _ _ _ _ Hrun8). cbn [delete_extracted].
  destruct (deleteQueuedTask_spec (task_id rb) w8 _ Hc8) as (w9 & Hrun9 & Hq9 & _ & Hc9).
  rewrite Hdb8, Hq7, !filter_cons, filter_nil in Hq9.
  rewrite decide_False in Hq9 by (by intros ?).
  rewrite (bind_Ok _ _ _ _ _ Hrun9).
  (* the queue is empty *)
  destruct (extractNextQueuedTask_spec w9 _ Hc9) as (w10 & Hrun10 & _).
  rewrite Hq9 in Hrun10.
  rewrite (bind_Ok _ _ _ _ _ Hrun10).
  reflexivity.
Qed.

(** C5, as amended.  [extractNextQueuedTask] leaves the tables as they
    are.  The record it returns is a queued record that has not expired,
    and no other unexpired record has a higher priority, or the same
    priority and an older [added_at] (a whole second); it returns nothing
    only when every queued record has expired.  Which of several records
    that tie in priority and [added_at] is returned is left to the plan
    of the query; a record that is ahead of every other unexpired record
    is returned whatever the plan.  On an empty queue, after A (priority
    5), B (priority 1) and C (priority 5) are enqueued in that order, A in
    an earlier second than C, and while none of them has expired,
    successive calls, each record deleted once extracted, return A, then
    C, then B, then nothing. *)
Theorem C5_extract_next_order w :
  db (snd (extractNextQueuedTask w)) = db w /\
  (forall r,
      fst (extractNextQueuedTask w) = Ok (Some r) ->
      r ∈ queued_tasks (db w) /\
      not_expired (expires_at r) (toUnixSeconds (now w)) = true /\
      forall x, x ∈ queued_tasks (db w) ->
                not_expired (expires_at x) (toUnixSeconds (now w)) = true ->
                priority x <= priority r /\
                (priority x = priority r -> added_at r <= added_at x)) /\
  (fst (extractNextQueuedTask w) = Ok None ->
   forall x, x ∈ queued_tasks (db w) ->
             not_expired (expires_at x) (toUnixSeconds (now w)) = false) /\
  (forall r,
      r ∈ queued_tasks (db w) ->
      not_expired (expires_at r) (toUnixSeconds (now w)) = true ->
      (forall x, x ∈ queued_tasks (db w) ->
                 not_expired (expires_at x) (toUnixSeconds (now w)) = true ->
                 x <> r ->
                 priority x < priority r \/
                 (priority x = priority r /\ added_at r < added_at x)) ->
      fst (extractNextQueuedTask w) = Ok (Some r)) /\
  (queued_tasks (db w) = [] ->
   forall a b c ea eb ec,
     toUnixSeconds (now w) < toUnixSeconds (now (awaits 2 w)) ->
     Forall (fun e => not_expired (option_map toUnixSeconds e)
                        (toUnixSeconds (now (awaits 7 w))) = true) [ea; eb; ec] ->
     fst (enqueue_ABC_then_drain a b c ea eb ec w) =
       Ok [Some "A"; Some "C"; Some "B"; None]).
Proof.
  rewrite extractNextQueuedTask_eq. cbn [fst snd].
  split; [reflexivity|]. split; [|split; [|split]].
  - intros r [= Hsel]. apply select_next_Some in Hsel as (Hr & Hlive & Hmin).
    split; [done|]. split; [done|].
    intros x Hx Hxlive. apply precedes_false. auto.
  - intros [= Hsel]. by apply (select_next_None _ _ _ Hsel).
  - intros r Hr Hlive Hfirst. f_equal. apply select_next_strict; [done..|].
    intros x Hx Hxlive Hne. apply precedes_true.
    destruct (Hfirst x Hx Hxlive Hne) as [?|[? ?]]; [by left|right; split; [done|done]].
  - intros Hempty a b c ea eb ec. by apply enqueue_ABC_then_drain_names.
Qed.

End QueueClaims.

(** ** Construction and the provider registry *)

Section Construction.
Context {E : Type}.
Implicit Types w : World E.

Lemma resolve_providers_outcome names w :
  (exists ps, resolve_providers names w = (Ok ps, w)) \/
  (exists name, name ∈ names /\ providers w !! name = None /\
     resolve_providers names w =
     (Throw (Error ("Provider " +:+ name +:+ " not found")), w)).
Proof.
  induction names as [|name rest IH]; [left; by exists []|].
  cbn. unfold bind, ProviderRepository_get.
  destruct (providers w !! name) as [p|] eqn:Hp.
  - destruct IH as [[ps ->]|(missing & Hin & Hnone & ->)].
    + left. by exists (p :: ps).
    + right. exists missing. set_solver.
  - right. exists name. set_solver.
Qed.

Lemma Task_constructor_no_db class_name args names fn w :
  providers w !! "DatabaseService" = None ->
  Task_constructor class_name args names fn w =
  (Throw (Error "DatabaseService not found"), w).
Proof.
  intros Hdb. unfold Task_constructor, bind, ProviderRepository_get.
  by rewrite Hdb.
Qed.

(** C10.  The constructor of [Task] throws [Error('DatabaseService not
    found')], leaving everything as it was, exactly when no provider is
    registered under the name ['DatabaseService']: whatever the class,
    the arguments, the body and the declared provider names (declared
    providers that are missing as well do not change the error, the
    database is looked up first).  The constructors of the two
    relay-waiting tasks, which declare no database, inherit this. *)
Theorem C10_constructor_needs_DatabaseService class_name args names fn w :
  (Task_constructor class_name args names fn w =
     (Throw (Error "DatabaseService not found"), w)
   <-> providers w !! "DatabaseService" = None) /\
  (providers w !! "DatabaseService" = None ->
   WaitForRelaysConnectedTask w = (Throw (Error "DatabaseService not found"), w) /\
   CheckRelayStatusTask w = (Throw (Error "DatabaseService not found"), w)).
Proof.
  split; [split|].
  - intros Hthrow.
    destruct (providers w !! "DatabaseService") as [dbp|] eqn:Hdb; [|done].
    exfalso. revert Hthrow.
    unfold Task_constructor, bind, ProviderRepository_get. rewrite Hdb.
    destruct (resolve_providers_outcome names w)
      as [[ps ->]|(missing & _ & _ & ->)]; cbn; discriminate.
  - apply Task_constructor_no_db.
  - intros Hdb. unfold WaitForRelaysConnectedTask, CheckRelayStatusTask, bind.
    by rewrite !Task_constructor_no_db.
Qed.
End Construction.

(** ** The fingerprint *)

Section Fingerprint.

(** Induction on a value, with the hypothesis for every element of an
    array and every member of an object. *)
Lemma JsValue_nested_ind (P : JsValue -> Prop) :
  P JUndefined -> P JNull -> (forall b, P (JBool b)) -> (forall n, P (JNumber n)) ->
  (forall n, P (JBigInt n)) -> (forall s, P (JString s)) -> (forall f, P (JFunction f)) ->
  (forall xs, Forall P xs -> P (JArray xs)) ->
  (forall props, Forall (fun kx => P kx.2) props -> P (JObject props)) ->
  forall v, P v.
Proof.
  intros Hu Hn Hb Hnum Hbig Hs Hf Harr Hobj.
  fix IH 1.
  intros [| |b|n|n|s|f|xs|props];
    [apply Hu|apply Hn|apply Hb|apply Hnum|apply Hbig|apply Hs|apply Hf| |].
  - apply Harr. induction xs as [|x xs IHxs]; constructor; [apply IH|exact IHxs].
  - apply Hobj.
    induction props as [|[k x] props IHprops]; constructor; [apply IH|exact IHprops].
Qed.

Local Abbreviation emap :=
  (map (fun kx : string * JsValue => let '(k, x) := kx in (k, erase_functions x))).
Local Abbreviation leaf_text := (fun (k : string) v => serialize_leaf (replacer k v)).

Lemma typeof_erase v : typeof (erase_functions v) = typeof v.
Proof. destruct v; reflexivity. Qed.

Lemma erase_functions_idem v : erase_functions (erase_functions v) = erase_functions v.
Proof.
  induction v as [| | | | | | |xs IH|props IH] using JsValue_nested_ind; try reflexivity.
  - cbn. f_equal. rewrite map_map. apply map_ext_Forall. done.
  - cbn. f_equal. rewrite map_map. apply map_ext_Forall.
    eapply Forall_impl; [exact IH|]. intros [k x] Hx. cbn in *. by rewrite Hx.
Qed.

Lemma obj_replace_erase k x props :
  obj_replace k (erase_functions x) (emap props) =
  option_map emap (obj_replace k x props).
Proof.
  induction props as [|[k' x'] props IH]; [reflexivity|]. cbn.
  destruct (String.eqb k' k); [reflexivity|].
  rewrite IH. by destruct (obj_replace k x props).
Qed.

Lemma obj_insert_index_erase n k x props :
  obj_insert_index n k (erase_functions x) (emap props) =
  emap (obj_insert_index n k x props).
Proof.
  induction props as [|[k' x'] props IH]; [reflexivity|]. cbn.
  destruct (array_index k') as [n'|]; [|reflexivity].
  destruct (n <? n'); [reflexivity|]. cbn. by rewrite IH.
Qed.

Lemma obj_set_erase k x props :
  obj_set k (erase_functions x) (emap props) = emap (obj_set k x props).
Proof.
  unfold obj_set. rewrite obj_replace_erase.
  destruct (obj_replace k x props); [reflexivity|]. cbn.
  destruct (array_index k).
  - apply obj_insert_index_erase.
  - by rewrite map_app.
Qed.

Lemma copy_leaves_erase prefix flat acc :
  fold_left (fun acc xf => obj_set (prefix +:+ "." +:+ fst xf) (snd xf) acc)
    (emap flat) (emap acc) =
  emap (fold_left (fun acc xf => obj_set (prefix +:+ "." +:+ fst xf) (snd xf) acc)
          flat acc).
Proof.
  revert acc. induction flat as [|[k x] flat IH]; intros acc; [reflexivity|].
  cbn. rewrite obj_set_erase. apply IH.
Qed.

(** Flattening commutes with erasing the functions. *)
Lemma flattened_erase v :
  flattened (erase_functions v) = emap (flattened v).
Proof.
  induction v as [| | | | | | |xs IH|props IH] using JsValue_nested_ind; try reflexivity.
  - cbn. change (@nil (string * JsValue)) with (emap []) at 1.
    generalize (@nil (string * JsValue)) as acc. generalize 0 as i.
    induction IH as [|x xs Hx _ IHxs]; intros i acc; [reflexivity|].
    cbn. rewrite typeof_erase, Hx.
    destruct (String.eqb (typeof x) "object").
    + rewrite copy_leaves_erase. apply IHxs.
    + rewrite obj_set_erase. apply IHxs.
  - cbn. change (@nil (string * JsValue)) with (emap []) at 1.
    generalize (@nil (string * JsValue)) as acc.
    induction IH as [|[k x] props Hx _ IHprops]; intros acc; [reflexivity|].
    cbn in Hx. cbn. rewrite typeof_erase, Hx.
    destruct (String.eqb (typeof x) "object").
    + rewrite copy_leaves_erase. apply IHprops.
    + rewrite obj_set_erase. apply IHprops.
Qed.

(** With the replacer, the text of a value does not depend on which
    functions sit at its leaves. *)
Lemma SerializeJSONProperty_erase key v :
  SerializeJSONProperty leaf_text key (erase_functions v) =
  SerializeJSONProperty leaf_text key v.
Proof.
  revert key.
  induction v as [| | | | | | |xs IH|props IH] using JsValue_nested_ind;
    intros key; try reflexivity.
  - cbn.
    match goal with
    | |- match ?a with _ => _ end = match ?b with _ => _ end =>
        assert (a = b) as ->; [|reflexivity]
    end.
    generalize 0 as i.
    induction IH as [|x xs Hx _ IHxs]; intros i; [reflexivity|].
    cbn. rewrite Hx, IHxs. reflexivity.
  - cbn.
    match goal with
    | |- match ?a with _ => _ end = match ?b with _ => _ end =>
        assert (a = b) as ->; [|reflexivity]
    end.
    induction IH as [|[k x] props Hx _ IHprops]; [reflexivity|].
    cbn in Hx. cbn. rewrite Hx, IHprops. reflexivity.
Qed.

(** With the replacer nothing throws: a bigint is printed as a string. *)
Lemma SerializeJSONProperty_replacer_no_throw key v :
  SerializeJSONProperty leaf_text key v <> ThrowsTypeError.
Proof.
  revert key.
  induction v as [| | [|] | | | | |xs IH|props IH] using JsValue_nested_ind;
    intros key; try (cbn; discriminate).
  - cbn.
    match goal with
    | |- match ?a with _ => _ end <> _ =>
        assert (a <> None) as Hparts; [|destruct a; [discriminate|done]]
    end.
    generalize 0 as i.
    induction IH as [|x xs Hx _ IHxs]; intros i; [discriminate|].
    cbn. specialize (Hx (Number_toString i)). specialize (IHxs (i + 1)).
    destruct (SerializeJSONProperty _ _ x); try done;
      match goal with |- option_map _ ?a <> _ => destruct a; [discriminate|done] end.
  - cbn.
    match goal with
    | |- match ?a with _ => _ end <> _ =>
        assert (a <> None) as Hparts; [|destruct a; [discriminate|done]]
    end.
    induction IH as [|[k x] props Hx _ IHprops]; [discriminate|].
    cbn in Hx. cbn. specialize (Hx k).
    destruct (SerializeJSONProperty _ _ x); try done.
    match goal with |- option_map _ ?a <> _ => destruct a; [discriminate|done] end.
Qed.

(** With the replacer an object always has a text. *)
Lemma stringify_replacer_defined props :
  exists text, JSON_stringify_replacer (JObject props) = Text text.
Proof.
  unfold JSON_stringify_replacer.
  pose proof (SerializeJSONProperty_replacer_no_throw "" (JObject props)) as Hno.
  revert Hno. cbn.
  match goal with
  | |- match ?a with _ => _ end <> _ -> _ => destruct a; [eauto|done]
  end.
Qed.

Lemma flattened_text_erase args :
  JSON_stringify_replacer (JObject (flattened (JArray (map erase_functions args)))) =
  JSON_stringify_replacer (JObject (flattened (JArray args))).
Proof.
  unfold JSON_stringify_replacer.
  change (JArray (map erase_functions args)) with (erase_functions (JArray args)).
  rewrite flattened_erase.
  change (JObject (emap (flattened (JArray args))))
    with (erase_functions (JObject (flattened (JArray args)))).
  apply SerializeJSONProperty_erase.
Qed.

Lemma ordinary_erase v : ordinary (erase_functions v) = ordinary v.
Proof.
  induction v as [| | | | | | |xs IH|props IH] using JsValue_nested_ind; try reflexivity.
  - cbn. induction IH as [|x xs Hx _ IHxs]; [reflexivity|]. cbn. by rewrite Hx, IHxs.
  - cbn. induction IH as [|[k x] props Hx _ IHprops]; [reflexivity|].
    cbn in *. by rewrite Hx, IHprops.
Qed.

Lemma map_erase_Forall2 (a b : list JsValue) :
  Forall2 same_modulo_functions a b -> map erase_functions a = map erase_functions b.
Proof. induction 1 as [|x y a b Hxy _ IH]; [reflexivity|]. cbn. by rewrite Hxy, IH. Qed.

End Fingerprint.

(** ** Memoization and failure isolation of [run()] *)

Section Run.
Context {E : Type}.
Implicit Types w : World E.
Implicit Types t : Task E.

Lemma later_refl w : later w w.
Proof. unfold later. repeat split. lia. Qed.


(** *** The text of a result is never empty *)

Lemma Number_toString_nonempty n : Number_toString n <> EmptyString.
Proof.
  unfold Number_toString.
  destruct (Z.to_int n) as [d|d]; cbn; [|discriminate].
  destruct d; cbn; discriminate.
Qed.

Lemma JSON_stringify_nonempty data text :
  JSON_stringify data = Text text -> text <> EmptyString.
Proof.
  unfold JSON_stringify.
  destruct data as [| |[|]|n|n|s|f|xs|props]; cbn; try discriminate;
    try (intros [= <-]; (discriminate || apply Number_toString_nonempty)).
  - match goal with |- match ?a with _ => _ end = _ -> _ => destruct a end;
      [intros [= <-]|]; discriminate.
  - match goal with |- match ?a with _ => _ end = _ -> _ => destruct a end;
      [intros [= <-]|]; discriminate.
Qed.

(** *** The three ways through [run()] *)

Lemma select_cache_live (cache : gmap string KeyValueCacheRecord) key entry now :
  cache !! key = Some entry ->
  not_expired (kv_expires_at entry) now = true ->
  select_cache cache key now = Some entry.
Proof. intros Hk Hlive. unfold select_cache. by rewrite Hk, Hlive. Qed.

Lemma value_or_null_Some entry :
  kv_value entry <> EmptyString ->
  value_or_null (Some entry) = Some (kv_value entry).
Proof.
  intros Hne. cbn. destruct (String.eqb_spec (kv_value entry) ""); done.
Qed.

(** A hit: the answer is decoded from the cache and only the clock moves. *)
Lemma run_hit t w entry :
  key_value_cache (db w) !! task_key t = Some entry ->
  not_expired (kv_expires_at entry) (toUnixSeconds (now w)) = true ->
  kv_value entry <> EmptyString ->
  run t w = (decoded (kv_value entry), elapse 0 w).
Proof.
  intros Hk Hlive Hne. rewrite run_eq.
  rewrite (select_cache_live _ _ _ _ Hk Hlive), (value_or_null_Some _ Hne).
  unfold decoded. by destruct (JSON_parse _).
Qed.

(** An execution in flight: the answer is the way its promise settles. *)
Lemma run_uncached_locked t key w lock :
  locksMap w !! key = Some lock ->
  run_uncached t key w = (lock, w).
Proof.
  intros Hlock. unfold run_uncached, try_catch, bind, locksMap_get, settle, throw.
  rewrite Hlock. by destruct lock.
Qed.

(** Nothing in flight and the body throws. *)
Lemma run_uncached_throws t key w e wb :
  locksMap w !! key = None ->
  fn t (task_providers t) (values (args t)) w = (Throw e, wb) ->
  run_uncached t key w = (Throw e, set_locksMap (delete key (locksMap wb)) wb).
Proof.
  intros Hlock Hfn.
  unfold run_uncached, try_catch, try_finally, bind, locksMap_get, call_fn,
    locksMap_set, locksMap_delete, settle, throw.
  rewrite Hlock, Hfn. cbn. by rewrite delete_insert_eq.
Qed.

(** Nothing in flight and the body returns. *)
Lemma run_uncached_returns t key w data wb :
  locksMap w !! key = None ->
  fn t (task_providers t) (values (args t)) w = (Ok data, wb) ->
  exists w1,
    run_uncached t key w = (answered (Ok data), w1) /\
    locksMap w1 = delete key (locksMap wb) /\
    providers w1 = providers wb /\ ext w1 = ext wb /\
    queued_tasks (db w1) = queued_tasks (db wb) /\
    now wb <= now w1 /\
    key_value_cache (db w1) =
      match JSON_stringify data with
      | Text text =>
          <[key := {| kv_value := text; kv_expires_at := expiry_seconds (expiry t) |}]>
            (key_value_cache (db wb))
      | Undefined =>
          <[key := {| kv_value := "{}"; kv_expires_at := expiry_seconds (expiry t) |}]>
            (key_value_cache (db wb))
      | ThrowsTypeError => key_value_cache (db wb)
      end.
Proof.
  intros Hlock Hfn.
  exists (snd (run_uncached t key w)).
  unfold run_uncached, try_catch, try_finally, bind, locksMap_get, call_fn,
    locksMap_set, locksMap_delete, settle, throw, stringify_data, answered.
  rewrite Hlock, Hfn. cbn.
  destruct (JSON_stringify data) as [text| |]; cbn;
    rewrite delete_insert_eq; repeat split; try lia;
    by destruct (expiry t).
Qed.

Lemma getCache_miss key w :
  fst (getCache key w) = Ok None ->
  value_or_null (select_cache (key_value_cache (db w)) key (toUnixSeconds (now w))) = None.
Proof. rewrite getCache_eq. cbn. congruence. Qed.

Lemma run_miss t w :
  fst (getCache (task_key t) w) = Ok None ->
  run t w = run_uncached t (task_key t) (elapse 0 w).
Proof. intros Hmiss%getCache_miss. by rewrite run_eq, Hmiss. Qed.

(** C3.  When [run()] finds nothing cached and nothing in flight for the
    key and the body throws [e]: [run()] throws [e]; the tables are as the
    body left them (no cache entry is written); no in-flight entry is left
    for the key; and the next [run()] of the task, if the body did not
    itself leave a live entry for the key, executes the body again, from
    the state the failure left, and answers as that execution settles. *)
Theorem C3_failure_is_not_cached t w e wb :
  fst (getCache (task_key t) w) = Ok None ->
  locksMap w !! task_key t = None ->
  fn t (task_providers t) (values (args t)) (elapse 0 w) = (Throw e, wb) ->
  exists w1,
    run t w = (Throw e, w1) /\
    db w1 = db wb /\ ext w1 = ext wb /\
    locksMap w1 !! task_key t = None /\
    (fst (getCache (task_key t) w1) = Ok None ->
     forall o wb',
       fn t (task_providers t) (values (args t)) (elapse 0 w1) = (o, wb') ->
       fst (run t w1) = answered o /\ ext (snd (run t w1)) = ext wb').
Proof.
  intros Hmiss Hlock Hfn.
  exists (set_locksMap (delete (task_key t) (locksMap wb)) wb).
  rewrite (run_miss _ _ Hmiss).
  rewrite (run_uncached_throws t (task_key t) (elapse 0 w) e wb Hlock Hfn).
  split; [done|]. split; [done|]. split; [done|].
  split; [apply lookup_delete_eq|].
  set (w1 := set_locksMap _ wb).
  intros Hmiss' o wb' Hfn'.
  assert (locksMap (elapse 0 w1) !! task_key t = None) as Hlock'
    by apply lookup_delete_eq.
  rewrite (run_miss _ _ Hmiss').
  destruct o as [data|e'].
  - destruct (run_uncached_returns t (task_key t) (elapse 0 w1) data wb' Hlock' Hfn')
      as (w2 & -> & _ & _ & Hext & _). done.
  - by rewrite (run_uncached_throws t (task_key t) (elapse 0 w1) e' wb' Hlock' Hfn').
Qed.
End Run.

(** ** The drainer *)

Section Drainer.
Context {E : Type}.
Implicit Types w : World E.
Implicit Types registry : gmap string (TaskConstructor E).

(** [runTask] is: reconstruct and run, then delete the record whatever the
    outcome, and settle as the run did. *)
Lemma runTask_eq registry record w :
  runTask registry record w =
  let '(o, w') := (let* task := deserialize registry record in run task) w in
  (o, snd (deleteQueuedTask (task_id record) w')).
Proof.
  unfold runTask, try_catch, bind, throw, ret.
  destruct (deserialize registry record w) as [[task|e] w1]; [|reflexivity].
  destruct (run task w1) as [[v|e] w2]; reflexivity.
Qed.

Lemma deleteQueuedTask_gone id w r :
  r ∈ queued_tasks (db (snd (deleteQueuedTask id w))) -> task_id r <> id.
Proof. cbn. by intros [Hne _]%list_elem_of_filter. Qed.

Lemma runTask_deletes registry record w r :
  r ∈ queued_tasks (db (snd (runTask registry record w))) ->
  task_id r <> task_id record.
Proof.
  rewrite runTask_eq.
  destruct ((let* task := deserialize registry record in run task) w) as [o w'].
  apply deleteQueuedTask_gone.
Qed.

Lemma processQueue_loop_S registry fuel w :
  processQueue_loop registry (S fuel) w =
  match extractNextQueuedTask w with
  | (Ok None, w1) => Some (Ok tt, w1)
  | (Ok (Some record), w1) =>
      match runTask registry record w1 with
      | (Ok _, w2) => processQueue_loop registry fuel w2
      | (Throw e, w2) => Some (Throw e, w2)
      end
  | (Throw e, w1) => Some (Throw e, w1)
  end.
Proof. reflexivity. Qed.

(** C6, as amended.  [runTask] settles as reconstructing and running the
    record did, and in every case the record is deleted from the queue.
    When the record [extractNextQueuedTask] returns makes [runTask] throw
    [e], the loop of [processQueue] ends there: the drain pass throws [e]
    without extracting another record (whatever fuel is left), in the
    state [runTask] left. *)
Theorem C6_failed_record_is_deleted_and_ends_the_pass registry w record w1 e w2 fuel :
  extractNextQueuedTask w = (Ok (Some record), w1) ->
  runTask registry record w1 = (Throw e, w2) ->
  fst ((let* task := deserialize registry record in run task) w1) = Throw e /\
  (forall r, r ∈ queued_tasks (db w2) -> task_id r <> task_id record) /\
  processQueue_loop registry (S fuel) w = Some (Throw e, w2) /\
  (is_Some (providers w !! "DatabaseService") ->
   processQueue registry (S fuel) w = Some (Throw e, w2)).
Proof.
  intros Hnext Hrun. split; [|split; [|split]].
  - rewrite runTask_eq in Hrun.
    destruct ((let* task := deserialize registry record in run task) w1) as [o w'].
    by injection Hrun as -> _.
  - intros r Hr. apply (runTask_deletes registry record w1). by rewrite Hrun.
  - by rewrite processQueue_loop_S, Hnext, Hrun.
  - intros [dbp Hdb]. unfold processQueue.
    by rewrite Hdb, processQueue_loop_S, Hnext, Hrun.
Qed.

(** *** enqueueTask *)

Lemma enqueueTask_eq registry (task : Task E) w :
  is_Some (providers w !! "DatabaseService") ->
  enqueueTask registry task w =
  let record := {| task_id := 0;
                   task_name := constructor_name task;
                   arguments := match JSON_stringify_replacer (JArray (values (args task))) with
                                | Text s => s
                                | _ => EmptyString
                                end;
                   added_at := toUnixSeconds (now w);
                   expires_at := match expiry task with
                                 | forever => None
                                 | ExpiryDate ms => Some ms
                                 end;
                   priority := 0 |} in
  runTask registry record
    (snd (addQueuedTask (task_name record) (arguments record) (expires_at record)
            (priority record) w)).
Proof.
  intros [dbp Hdb]. unfold enqueueTask, bind, ProviderRepository_get. rewrite Hdb.
  reflexivity.
Qed.

(** What [enqueueTask] deletes is the row whose id is 0: the id of the
    record [serialize()] made, not the id [addQueuedTask] returned. *)
Lemma enqueueTask_deletes_id_0 registry (task : Task E) w r :
  is_Some (providers w !! "DatabaseService") ->
  r ∈ queued_tasks (db (snd (enqueueTask registry task w))) -> task_id r <> 0.
Proof.
  intros Hdb. rewrite (enqueueTask_eq _ _ _ Hdb). cbv zeta.
  intros Hr%runTask_deletes. exact Hr.
Qed.
End Drainer.

(** ** Waiting for the relays *)

Section WaitForRelays.
Context {E : Type}.
Variable current : E -> list RelayInfo * E.
Implicit Types w : World E.










End WaitForRelays.

(** ** Interleaved callers: what every reachable state satisfies *)

Section InterleavedRuns.
Import Interleaving.
Implicit Types s : State.

Local Open Scope nat_scope.

Lemma holds_owns c p : holds c p -> owns c p.
Proof. destruct c as [| | | | |[]]; cbn; tauto. Qed.

(** The callers after a move. *)
Lemma lookup_move i next s j c' :
  callers (move i next s) !! j = Some c' <->
  (j = i /\ exists c, callers s !! i = Some c /\
                      c' = {| caller_expiry := caller_expiry c; pc := next |}) \/
  (j <> i /\ callers s !! j = Some c').
Proof.
  cbn. destruct (decide (j = i)) as [->|Hne].
  - rewrite list_lookup_alter_eq. split.
    + intros H. left. split; [done|].
      destruct (callers s !! i) as [c|]; cbn in H; [|done].
      injection H as <-. eauto.
    + intros [[_ (c & Hc & ->)]|[Hne _]]; [|done]. by rewrite Hc.
  - rewrite list_lookup_alter_ne by done. split; [by right|].
    intros [[-> _]|[_ H]]; done.
Qed.

Lemma init_invariant time row expiries : Invariant (init time row expiries).
Proof.
  assert (forall i c, callers (init time row expiries) !! i = Some c -> pc c = NotCalled)
    as Hnot.
  { intros i c. cbn. rewrite list_lookup_fmap.
    destruct (expiries !! i); cbn; [|done]. by intros [= <-]. }
  split; cbn [init lock promises started released length]; try done.
  - intros i c p Hc. rewrite (Hnot i c Hc). done.
  - intros i c p Hc. rewrite (Hnot i c Hc). done.
  - intros i j ci cj p Hi. rewrite (Hnot i ci Hi). done.
  - intros p Hp. lia.
  - intros i c p Hc. rewrite (Hnot i c Hc). done.
  - intros i c p o Hc. rewrite (Hnot i c Hc). done.
  - intros i c p o Hc. rewrite (Hnot i c Hc). done.
  - intros i c p data row' written Hc. rewrite (Hnot i c Hc). done.
Qed.

(** The clock and the cache row are not what the invariant is about. *)
Lemma invariant_same s s' :
  lock s' = lock s -> promises s' = promises s -> started s' = started s ->
  released s' = released s -> callers s' = callers s ->
  Invariant s -> Invariant s'.
Proof.
  intros Hl Hp Hs Hr Hc [].
  split; rewrite ?Hl, ?Hp, ?Hs, ?Hr, ?Hc; assumption.
Qed.

(** A caller moves on without touching [locksMap] or starting a body. *)
Lemma invariant_move i c next s :
  Invariant s ->
  callers s !! i = Some c ->
  (forall p, holds next p -> holds (pc c) p) ->
  (forall p, owns next p <-> owns (pc c) p) ->
  (forall p, next = AwaitLock p -> p < length (promises s)) ->
  (forall p o, next = Finished (FromLock p) o -> promises s !! p = Some (Some o)) ->
  (forall p o, next = Finished (FromBody p) o ->
               exists o', promises s !! p = Some (Some o') /\ o = answered o') ->
  (forall p data row written,
      next = AwaitSetCache p data row written ->
      promises s !! p = Some (Some (Ok data)) /\ JSON_stringify data <> ThrowsTypeError) ->
  Invariant (move i next s).
Proof.
  intros [] Hc Hholds Howns Hwait Hjoined Hdone Hset.
  split; cbn [move lock promises started released]; try assumption.
  - intros j c' p [[-> (c0 & Hc0 & ->)]|[Hne Hj]]%lookup_move; cbn [pc]; [|eauto].
    intros Hh%Hholds. assert (c0 = c) as -> by congruence. eauto.
  - intros j c' p [[-> (c0 & Hc0 & ->)]|[Hne Hj]]%lookup_move; cbn [pc]; [|eauto].
    intros Ho%Howns. assert (c0 = c) as -> by congruence. eauto.
  - intros j k cj ck p
      [[-> (c0 & Hc0 & ->)]|[Hnej Hj]]%lookup_move
      [[-> (c1 & Hc1 & ->)]|[Hnek Hk]]%lookup_move; cbn [pc]; [done| | |eauto].
    + intros Ho%Howns Hk'. assert (c0 = c) as -> by congruence. eauto.
    + intros Hj' Ho%Howns. assert (c1 = c) as -> by congruence. eauto.
  - intros p Hp. destruct (inv_owner_ex0 p Hp) as (j & cj & Hj & Ho).
    destruct (decide (j = i)) as [->|Hne].
    + exists i, {| caller_expiry := caller_expiry c; pc := next |}.
      split; [apply lookup_move; left; eauto|]. cbn [pc]. apply Howns. congruence.
    + exists j, cj. split; [apply lookup_move; right; done|done].
  - intros j c' p [[-> (c0 & Hc0 & ->)]|[Hne Hj]]%lookup_move; cbn [pc]; eauto.
  - intros j c' p o [[-> (c0 & Hc0 & ->)]|[Hne Hj]]%lookup_move; cbn [pc]; eauto.
  - intros j c' p o [[-> (c0 & Hc0 & ->)]|[Hne Hj]]%lookup_move; cbn [pc]; eauto.
  - intros j c' p data row written
      [[-> (c0 & Hc0 & ->)]|[Hne Hj]]%lookup_move; cbn [pc]; eauto.
Qed.

(** The caller that holds the entry of [locksMap] removes it and settles,
    its promise being settled. *)
Lemma invariant_release i c p o' s :
  Invariant s ->
  callers s !! i = Some c ->
  holds (pc c) p ->
  promises s !! p = Some (Some o') ->
  Invariant (move i (Finished (FromBody p) (answered o')) (release s)).
Proof.
  intros [Hpend Hholder Hlock_lt Hcount Hlen Howner_lt Hinj Hex Hwait Hjoined Hdone Hset]
    Hc Hh Hp.
  pose proof (Hholder _ _ _ Hc Hh) as Hlock.
  assert (forall j cj q, callers s !! j = Some cj -> holds (pc cj) q -> j = i) as Hsole.
  { intros j cj q Hj Hq.
    assert (q = p) as -> by (pose proof (Hholder _ _ _ Hj Hq); congruence).
    eauto using holds_owns. }
  split; cbn [move release lock promises started released].
  - intros q Hq. pose proof (Hpend q Hq). congruence.
  - intros j c' q [[-> (c0 & Hc0 & ->)]|[Hne Hj]]%lookup_move; cbn [pc holds]; [done|].
    intros Hq. destruct Hne. eauto.
  - done.
  - rewrite Hcount, Hlock. lia.
  - done.
  - intros j c' q [[-> (c0 & Hc0 & ->)]|[Hne Hj]]%lookup_move; cbn [pc owns]; [|eauto].
    intros <-. eauto using holds_owns.
  - intros j k cj ck q
      [[-> (c0 & Hc0 & ->)]|[Hnej Hj]]%lookup_move
      [[-> (c1 & Hc1 & ->)]|[Hnek Hk]]%lookup_move; cbn [pc owns]; [done| | |eauto].
    + intros <- Hk'. eauto using holds_owns.
    + intros Hj' <-. eauto using holds_owns.
  - intros q Hq. destruct (Hex q Hq) as (j & cj & Hj & Ho).
    destruct (decide (j = i)) as [->|Hne].
    + exists i, {| caller_expiry := caller_expiry c; pc := Finished (FromBody p) (answered o') |}.
      split; [apply lookup_move; left; eauto|]. cbn [pc owns].
      assert (cj = c) as -> by congruence.
      destruct (pc c) as [| | | | |[]]; cbn in Hh, Ho; congruence || done.
    + exists j, cj. split; [apply lookup_move; right; done|done].
  - intros j c' q [[-> (c0 & Hc0 & ->)]|[Hne Hj]]%lookup_move; cbn [pc]; [done|eauto].
  - intros j c' q o [[-> (c0 & Hc0 & ->)]|[Hne Hj]]%lookup_move; cbn [pc]; [done|eauto].
  - intros j c' q o [[-> (c0 & Hc0 & ->)]|[Hne Hj]]%lookup_move; cbn [pc]; [|eauto].
    intros [= <- <-]. eauto.
  - intros j c' q data row written
      [[-> (c0 & Hc0 & ->)]|[Hne Hj]]%lookup_move; cbn [pc]; [done|eauto].
Qed.

(** A caller that found nothing cached and nothing in flight starts the
    body and registers its promise. *)
Lemma invariant_start i c s :
  Invariant s ->
  callers s !! i = Some c ->
  (forall p, ~ owns (pc c) p) ->
  lock s = None ->
  Invariant (move i (AwaitBody (length (promises s))) (start_body s)).
Proof.
  intros [Hpend Hholder Hlock_lt Hcount Hlen Howner_lt Hinj Hex Hwait Hjoined Hdone Hset]
    Hc Hnot Hlock.
  assert (forall q x, promises s !! q = Some x ->
                      ((promises s ++ [None])%list) !! q = Some x) as Hold.
  { intros q x Hq. rewrite lookup_app_l; [done|]. eauto using lookup_lt_Some. }
  split; cbn [move start_body lock promises started released].
  - intros q Hq. destruct (decide (q < length (promises s))) as [Hlt|Hge].
    + rewrite lookup_app_l in Hq by done. pose proof (Hpend q Hq). congruence.
    + apply lookup_lt_Some in Hq. rewrite length_app in Hq. cbn in Hq.
      f_equal. lia.
  - intros j c' q [[-> (c0 & Hc0 & ->)]|[Hne Hj]]%lookup_move; cbn [pc holds].
    + by intros <-.
    + intros Hq. pose proof (Hholder _ _ _ Hj Hq). congruence.
  - intros q [= <-]. rewrite length_app. cbn. lia.
  - rewrite Hcount, Hlock. lia.
  - rewrite length_app, Hlen. cbn. lia.
  - intros j c' q [[-> (c0 & Hc0 & ->)]|[Hne Hj]]%lookup_move; cbn [pc owns];
      rewrite length_app; cbn.
    + intros <-. lia.
    + intros Ho. pose proof (Howner_lt _ _ _ Hj Ho). lia.
  - intros j k cj ck q
      [[-> (c0 & Hc0 & ->)]|[Hnej Hj]]%lookup_move
      [[-> (c1 & Hc1 & ->)]|[Hnek Hk]]%lookup_move; cbn [pc owns]; [done| | |eauto].
    + intros <- Hk'. pose proof (Howner_lt _ _ _ Hk Hk'). lia.
    + intros Hj' <-. pose proof (Howner_lt _ _ _ Hj Hj'). lia.
  - intros q Hq. rewrite length_app in Hq. cbn in Hq.
    destruct (decide (q = length (promises s))) as [->|Hne].
    + exists i, {| caller_expiry := caller_expiry c; pc := AwaitBody (length (promises s)) |}.
      split; [apply lookup_move; left; eauto|done].
    + destruct (Hex q ltac:(lia)) as (j & cj & Hj & Ho).
      exists j, cj. split; [|done]. apply lookup_move. right. split; [|done].
      intros ->. assert (cj = c) as -> by congruence. by apply (Hnot q).
  - intros j c' q [[-> (c0 & Hc0 & ->)]|[Hne Hj]]%lookup_move; cbn [pc]; [done|].
    intros Hq. pose proof (Hwait _ _ _ Hj Hq). rewrite length_app. lia.
  - intros j c' q o [[-> (c0 & Hc0 & ->)]|[Hne Hj]]%lookup_move; cbn [pc]; [done|eauto].
  - intros j c' q o [[-> (c0 & Hc0 & ->)]|[Hne Hj]]%lookup_move; cbn [pc]; [done|].
    intros Hq. destruct (Hdone _ _ _ _ Hj Hq) as (o' & Ho' & ->). eauto.
  - intros j c' q data row written
      [[-> (c0 & Hc0 & ->)]|[Hne Hj]]%lookup_move; cbn [pc]; [done|].
    intros Hq. destruct (Hset _ _ _ _ _ _ Hj Hq). eauto.
Qed.

(** The body of a pending promise settles. *)
Lemma invariant_settle p o s :
  Invariant s ->
  promises s !! p = Some None ->
  Invariant (set_promises (<[p := Some o]> (promises s)) s).
Proof.
  intros [Hpend Hholder Hlock_lt Hcount Hlen Howner_lt Hinj Hex Hwait Hjoined Hdone Hset] Hp.
  assert (forall q x, promises s !! q = Some (Some x) ->
                      <[p := Some o]> (promises s) !! q = Some (Some x)) as Hold.
  { intros q x Hq. rewrite list_lookup_insert_ne; [done|]. congruence. }
  split; cbn [set_promises lock promises started released callers];
    rewrite ?length_insert; try done.
  - intros q [(_ & [=] & _)|[Hne Hq]]%list_lookup_insert_Some. eauto.
  - intros j c q o1 Hj Hq. eauto.
  - intros j c q o1 Hj Hq. destruct (Hdone _ _ _ _ Hj Hq) as (o' & Ho' & ->). eauto.
  - intros j c q data row written Hj Hq. destruct (Hset _ _ _ _ _ _ Hj Hq). eauto.
Qed.

Lemma answered_accepted data :
  JSON_stringify data <> ThrowsTypeError -> answered (Ok data) = Ok data.
Proof. cbn. by destruct (JSON_stringify data). Qed.

Lemma invariant_resume i c s s' :
  Invariant s -> callers s !! i = Some c -> resume i c s = Some s' -> Invariant s'.
Proof.
  intros Hinv Hc. unfold resume.
  destruct (pc c) as [|now [[cached|]|]|p|p|p data row [|]|source o] eqn:Hpc; try done.
  - (* a hit *)
    intros [= <-]. apply (invariant_move i c); rewrite ?Hpc; try done.
  - (* a miss *)
    destruct (lock s) as [p|] eqn:Hlock; intros [= <-].
    + apply (invariant_move i c); rewrite ?Hpc; try done.
      intros q [= <-]. by apply (inv_lock_lt s Hinv).
    + apply (invariant_start i c); try done.
      intros q. rewrite Hpc. cbn. tauto.
  - (* the lock settled *)
    destruct (promises s !! p) as [[o|]|] eqn:Hp; [|done..].
    intros [= <-]. apply (invariant_move i c); rewrite ?Hpc; try done.
    by intros q o' [= <- <-].
  - (* the body settled *)
    destruct (promises s !! p) as [[[data|e]|]|] eqn:Hp; [| |done..].
    + destruct (JSON_stringify data) eqn:Htext; intros [= <-].
      * apply (invariant_move i c); rewrite ?Hpc; try done.
        intros q data' row' written' [= <- <- _ _]. split; [done|congruence].
      * apply (invariant_move i c); rewrite ?Hpc; try done.
        intros q data' row' written' [= <- <- _ _]. split; [done|congruence].
      * apply (invariant_release i c p (Ok data)); rewrite ?Hpc; done.
    + intros [= <-]. apply (invariant_release i c p (Throw e)); rewrite ?Hpc; done.
  - (* the statement of [setCache] has been executed *)
    intros [= <-].
    destruct (inv_set_cache s Hinv i c p data row true Hc Hpc) as [Hp Htext].
    rewrite <- (answered_accepted data Htext).
    apply (invariant_release i c p (Ok data)); rewrite ?Hpc; done.
Qed.

Lemma invariant_act a s s' : Invariant s -> act a s = Some s' -> Invariant s'.
Proof.
  intros Hinv. destruct a as [ms|i|i|i|p o|i]; cbn [act].
  - intros [= <-]. by apply (invariant_same s).
  - destruct (callers s !! i) as [c|] eqn:Hc; [|done].
    destruct (pc c) eqn:Hpc; try done.
    intros [= <-]. apply (invariant_move i c); rewrite ?Hpc; done.
  - destruct (callers s !! i) as [c|] eqn:Hc; [|done].
    destruct (pc c) as [|now [answer|]| | | |] eqn:Hpc; try done.
    intros [= <-]. apply (invariant_move i c); rewrite ?Hpc; done.
  - destruct (callers s !! i) as [c|] eqn:Hc; [|done].
    destruct (pc c) as [| | | |p data row [|]|] eqn:Hpc; try done.
    intros [= <-].
    destruct (inv_set_cache s Hinv i c p data row false Hc Hpc) as [Hp Htext].
    apply (invariant_move i c); rewrite ?Hpc; try done.
    + by apply (invariant_same s).
    + by intros q data' row' written' [= <- <- _ _].
  - destruct (promises s !! p) as [[o'|]|] eqn:Hp; try done.
    intros [= <-]. by apply invariant_settle.
  - destruct (callers s !! i) as [c|] eqn:Hc; [|done].
    by apply invariant_resume.
Qed.

Lemma invariant_reachable s s' : rtc step s s' -> Invariant s -> Invariant s'.
Proof.
  induction 1 as [|s1 s2 s3 [a Ha] _ IH]; [done|].
  intros Hinv. apply IH. by apply (invariant_act a s1).
Qed.

(** A schedule that runs is a sequence of steps, and conversely. *)
Lemma play_steps schedule s s' : play schedule s = Some s' -> rtc step s s'.
Proof.
  revert s. induction schedule as [|a rest IH]; intros s; cbn.
  - intros [= <-]. apply rtc_refl.
  - destruct (act a s) as [s1|] eqn:Ha; [|done].
    intros Hrest. apply (rtc_l _ _ s1); [by exists a|by apply IH].
Qed.

Lemma steps_play s s' : rtc step s s' -> exists schedule, play schedule s = Some s'.
Proof.
  induction 1 as [s|s1 s2 s3 [a Ha] _ [rest Hrest]].
  - by exists [].
  - exists (a :: rest). cbn. by rewrite Ha.
Qed.

Lemma invariant_play schedule time row expiries s :
  play schedule (init time row expiries) = Some s -> Invariant s.
Proof.
  intros Hplay. apply (invariant_reachable (init time row expiries)).
  - by apply (play_steps schedule).
  - apply init_invariant.
Qed.

(** *** A caller alone *)

(** With one caller the interleaved callers are the [run()] of Part I: the
    caller settles as [run()] does on a world with nothing cached and
    nothing in flight, leaving the same row in the cache, no entry in
    [locksMap], and the body executed once. *)
Lemma alone_as_run o e time :
  exists s w,
    play (alone o) (init time None [e]) = Some s /\
    run (set_expiry e (counted_T o)) (fresh_world time) = (answered o, w) /\
    map pc (callers s) = [Finished (FromBody 0) (answered o)] /\
    entry s = key_value_cache (db w) !! task_key (set_expiry e (counted_T o)) /\
    (lock s = None /\ locksMap w !! task_key (set_expiry e (counted_T o)) = None) /\
    started s = ext w.
Proof.
  set (t := set_expiry e (counted_T o)).
  assert (run t (fresh_world time) = run_uncached t (task_key t) (elapse 0 (fresh_world time)))
    as Hmiss by (apply run_miss; reflexivity).
  destruct o as [data|err].
  - destruct (run_uncached_returns t (task_key t) (elapse 0 (fresh_world time)) data
                (set_ext 1%nat (elapse 0 (fresh_world time))) eq_refl eq_refl)
      as (w1 & Hrun & Hlock & _ & Hext & _ & _ & Hcache).
    rewrite <- Hmiss in Hrun.
    unfold alone, answered in *.
    destruct (JSON_stringify data) as [text| |] eqn:Htext;
      (eexists _, w1; split;
       [cbn -[JSON_stringify]; rewrite Htext; cbn -[JSON_stringify]; reflexivity|]);
      (split; [exact Hrun|]); (split; [reflexivity|]);
      (split; [|split; [split; [reflexivity|rewrite Hlock; apply lookup_delete_eq]
                       |by rewrite Hext]]);
      cbn [entry move release set_entry]; rewrite Hcache.
    + rewrite lookup_insert_eq. unfold cache_row. by rewrite Htext.
    + rewrite lookup_insert_eq. unfold cache_row. by rewrite Htext.
    + reflexivity.
  - exists (after (alone (Throw err)) (init time None [e])), (snd (run t (fresh_world time))).
    split; [reflexivity|]. rewrite Hmiss.
    rewrite (run_uncached_throws t (task_key t) (elapse 0 (fresh_world time)) err
               (set_ext 1%nat (elapse 0 (fresh_world time))) eq_refl eq_refl).
    split; [reflexivity|]. split; [reflexivity|]. split; [reflexivity|].
    split; [|reflexivity]. split; [reflexivity|apply lookup_delete_eq].
Qed.

(** *** Any number of callers *)

Lemma at_most_one_pending (l : list (option (Outcome JsValue))) :
  (forall p q, l !! p = Some None -> l !! q = Some None -> p = q) ->
  length (filter (fun x => is_pending x = true) l) <= 1.
Proof.
  induction l as [|x l IH]; intros Huniq; [cbn; lia|].
  rewrite filter_cons. destruct (decide (is_pending x = true)) as [Hx|Hx].
  - destruct x as [o|]; [done|].
    destruct (filter _ l) as [|y rest] eqn:Hrest; [cbn; lia|].
    assert (y ∈ filter (fun x => is_pending x = true) l) as Hy
      by (rewrite Hrest; apply list_elem_of_here).
    apply list_elem_of_filter in Hy as [Hpending Hy].
    destruct y as [o|]; [done|].
    apply list_elem_of_lookup in Hy as [q Hq].
    by specialize (Huniq 0 (S q) eq_refl Hq).
  - apply IH. intros p q Hp Hq. by specialize (Huniq (S p) (S q) Hp Hq) as [= ->].
Qed.

(** C2.  In every state that calls of [run()] for one key reach, whatever
    the schedule: the promises of two bodies are never pending together, so
    at most one body is executing, and a pending promise is the one
    registered in [locksMap]; every body started has had its entry removed,
    but for the one registered.  A caller that runs on from a cache miss
    while an entry is registered awaits the registered promise and starts
    no body; once settled it has the outcome of that promise, its result or
    its failure.  The caller that started a body settles as the body did,
    unless [JSON.stringify] refuses the result, in which case it fails with
    the [TypeError].  Hence, when one caller has started the body and every
    other caller found it registered, one body was executed, the other
    callers have the outcome of its promise, and so has the caller that
    started it when the body failed or [JSON.stringify] accepts its
    result. *)
Theorem C2_one_body_in_flight schedule time row expiries s :
  play schedule (init time row expiries) = Some s ->
  (executing s <= 1 /\
   (forall p, promises s !! p = Some None -> lock s = Some p) /\
   started s = released s + (match lock s with Some _ => 1 | None => 0 end)) /\
  (forall i c now p,
      callers s !! i = Some c -> pc c = AwaitGetCache now (Some None) ->
      lock s = Some p ->
      act (Resume i) s = Some (move i (AwaitLock p) s) /\
      started (move i (AwaitLock p) s) = started s /\
      p < length (promises s)) /\
  (forall i c p o,
      callers s !! i = Some c -> pc c = Finished (FromLock p) o ->
      promises s !! p = Some (Some o)) /\
  (forall i c p o,
      callers s !! i = Some c -> pc c = Finished (FromBody p) o ->
      exists o', promises s !! p = Some (Some o') /\ o = answered o') /\
  (forall i0 c0 p0 o0,
      callers s !! i0 = Some c0 -> pc c0 = Finished (FromBody p0) o0 ->
      (forall i c, i <> i0 -> callers s !! i = Some c ->
                   exists p o, pc c = Finished (FromLock p) o) ->
      started s = 1 /\
      exists o', promises s = [Some o'] /\ o0 = answered o' /\
                 (forall i c, i <> i0 -> callers s !! i = Some c ->
                              exists p, pc c = Finished (FromLock p) o') /\
                 ((match o' with
                   | Ok data => JSON_stringify data <> ThrowsTypeError
                   | Throw _ => True
                   end) -> o0 = o')).
Proof.
  intros Hinv%invariant_play.
  split; [|split; [|split; [|split]]].
  - split; [|split].
    + apply at_most_one_pending. intros p q Hp Hq.
      pose proof (inv_pending s Hinv p Hp). pose proof (inv_pending s Hinv q Hq).
      congruence.
    + apply (inv_pending s Hinv).
    + apply (inv_count s Hinv).
  - intros i c now p Hc Hpc Hlock. split; [|split].
    + cbn [act]. rewrite Hc. unfold resume. by rewrite Hpc, Hlock.
    + reflexivity.
    + by apply (inv_lock_lt s Hinv).
  - apply (inv_joined s Hinv).
  - apply (inv_body_done s Hinv).
  - intros i0 c0 p0 o0 Hc0 Hpc0 Hothers.
    assert (forall p, p < length (promises s) -> p = p0) as Hsole.
    { intros p Hp. destruct (inv_owner_ex s Hinv p Hp) as (i & c & Hc & Hown).
      destruct (decide (i = i0)) as [->|Hne].
      - assert (c = c0) as -> by congruence. rewrite Hpc0 in Hown. done.
      - destruct (Hothers i c Hne Hc) as (q & o & Hpc). rewrite Hpc in Hown. done. }
    destruct (inv_body_done s Hinv i0 c0 p0 o0 Hc0 Hpc0) as (o' & Hp0 & ->).
    assert (promises s = [Some o']) as Hpromises.
    { pose proof (lookup_lt_Some _ _ _ Hp0) as Hlt.
      destruct (promises s) as [|x [|y rest]] eqn:Hps; cbn in Hlt; [lia| |].
      - pose proof (Hsole 0 ltac:(cbn; lia)) as <-. cbn in Hp0. congruence.
      - pose proof (Hsole 0 ltac:(cbn; lia)). pose proof (Hsole 1 ltac:(cbn; lia)). lia. }
    split; [by rewrite <- (inv_length s Hinv), Hpromises|].
    exists o'. split; [done|]. split; [done|]. split.
    + intros i c Hne Hc. destruct (Hothers i c Hne Hc) as (p & o & Hpc).
      exists p. rewrite Hpc. f_equal.
      pose proof (inv_joined s Hinv i c p o Hc Hpc) as Hp.
      pose proof (lookup_lt_Some _ _ _ Hp) as ->%Hsole. congruence.
    + destruct o' as [data|e]; [|done]. apply answered_accepted.
Qed.
End InterleavedRuns.

(** ** The key-value cache: store, look up, delete, sweep *)

Section Cache.
Context {E : Type}.
Implicit Types w : World E.

Lemma setCache_db key value expiresAt w :
  fst (setCache key value expiresAt w) = Ok tt /\
  key_value_cache (db (snd (setCache key value expiresAt w))) =
    <[key := {| kv_value := default "{}" value;
                kv_expires_at := expiry_seconds expiresAt |}]>
      (key_value_cache (db w)) /\
  queued_tasks (db (snd (setCache key value expiresAt w))) = queued_tasks (db w) /\
  queued_tasks_seq (db (snd (setCache key value expiresAt w))) = queued_tasks_seq (db w).
Proof. destruct value, expiresAt; repeat split. Qed.

Lemma whole_second t ms :
  (toUnixSeconds t <? toUnixSeconds ms) = (t <? 1000 * (ms / 1000)).
Proof.
  unfold toUnixSeconds. apply eq_iff_eq_true. rewrite !Z.ltb_lt.
  pose proof (Z.div_mod t 1000 ltac:(lia)). pose proof (Z.mod_pos_bound t 1000 ltac:(lia)).
  pose proof (Z.div_mod ms 1000 ltac:(lia)). pose proof (Z.mod_pos_bound ms 1000 ltac:(lia)).
  lia.
Qed.

(** X1.  What [getCache] answers after [setCache(key, value, expiresAt)], as
    long as the table is as [setCache] left it: the value stored (['{}'] for
    [undefined]), unless it is the empty text, and only while the clock is
    before the whole second the expiry falls in; the other keys answer as
    before.  An entry stored with the expiry [ms] is gone from the start of
    the second that contains [ms]. *)
Theorem setCache_then_getCache key value expiresAt w w' :
  db w' = db (snd (setCache key value expiresAt w)) ->
  fst (getCache key w') =
    Ok (if String.eqb (default "{}" value) "" then None
        else match expiresAt with
             | forever => Some (default "{}" value)
             | ExpiryDate ms =>
                 if now w' <? 1000 * (ms / 1000) then Some (default "{}" value) else None
             end) /\
  (forall other, other <> key ->
     fst (getCache other w') = fst (getCache other (set_db (db w) w'))).
Proof.
  intros Hdb. destruct (setCache_db key value expiresAt w) as (_ & Hcache & _).
  rewrite <- Hdb in Hcache. split.
  - rewrite getCache_eq. cbn [fst]. unfold select_cache.
    rewrite Hcache, lookup_insert_eq. cbn [kv_expires_at].
    destruct expiresAt as [ms|]; cbn [expiry_seconds not_expired].
    + rewrite whole_second. destruct (now w' <? 1000 * (ms / 1000)); cbn; [|by destruct (_ =? _)%string].
      reflexivity.
    + reflexivity.
  - intros other Hother. rewrite !getCache_eq. cbn [fst]. unfold select_cache.
    cbn [db set_db now]. rewrite Hcache, lookup_insert_ne by done. reflexivity.
Qed.


(** X2.  [deleteCache(key)]: afterwards [getCache(key)] answers [null], the
    other keys answer as before and the queue is as it was; deleting a key
    that has no entry changes nothing. *)
Theorem deleteCache_then_getCache key w :
  (forall w', db w' = db (snd (deleteCache key w)) ->
     fst (getCache key w') = Ok None /\
     forall other, other <> key ->
       fst (getCache other w') = fst (getCache other (set_db (db w) w'))) /\
  queued_tasks (db (snd (deleteCache key w))) = queued_tasks (db w) /\
  (key_value_cache (db w) !! key = None -> db (snd (deleteCache key w)) = db w).
Proof.
  split; [|split].
  - intros w' Hdb. split.
    + rewrite getCache_eq, Hdb. cbn. unfold select_cache.
      by rewrite lookup_delete_eq.
    + intros other Hother. rewrite !getCache_eq, Hdb. cbn. unfold select_cache.
      by rewrite lookup_delete_ne.
  - reflexivity.
  - intros Hnone. cbn. rewrite delete_id by done. by destruct (db w).
Qed.

Lemma cleanExpiredCache_eq w :
  cleanExpiredCache w =
  (Ok (Z.of_nat (size (key_value_cache (db w))) -
       Z.of_nat (size (filter (fun kr => not_expired (kv_expires_at kr.2)
                                           (toUnixSeconds (now w)) = true)
                         (key_value_cache (db w))))),
   elapse 0 (set_db
     {| key_value_cache :=
          filter (fun kr => not_expired (kv_expires_at kr.2) (toUnixSeconds (now w)) = true)
            (key_value_cache (db w));
        queued_tasks := queued_tasks (db w);
        queued_tasks_seq := queued_tasks_seq (db w);
        scan_order := scan_order (db w) |} w)).
Proof. reflexivity. Qed.

(** X3.  [cleanExpiredCache()] deletes the entries whose [expires_at] is a
    timestamp not after the current second, and no other; it returns how
    many they were; and from then on no [getCache] can tell that it ran:
    every key answers as it would have on the table not swept. *)
Theorem cleanExpiredCache_unobservable w :
  exists n w1,
    cleanExpiredCache w = (Ok n, w1) /\
    n = Z.of_nat (size (filter (fun kr => not_expired (kv_expires_at kr.2)
                                            (toUnixSeconds (now w)) = false)
                          (key_value_cache (db w)))) /\
    (forall key r,
        key_value_cache (db w1) !! key = Some r <->
        key_value_cache (db w) !! key = Some r /\
        not_expired (kv_expires_at r) (toUnixSeconds (now w)) = true) /\
    queued_tasks (db w1) = queued_tasks (db w) /\
    (forall key w', db w' = db w1 -> now w <= now w' ->
        fst (getCache key w') = fst (getCache key (set_db (db w) w'))).
Proof.
  eexists _, _. split; [apply cleanExpiredCache_eq|].
  set (P := fun kr : string * KeyValueCacheRecord =>
              not_expired (kv_expires_at kr.2) (toUnixSeconds (now w)) = true).
  split; [|split; [|split]].
  - assert (size (key_value_cache (db w)) =
            (size (filter P (key_value_cache (db w))) +
             size (filter (fun kr => ~ P kr) (key_value_cache (db w))))%nat) as Hsize.
    { rewrite <- (map_size_disj_union _ _
                    (map_disjoint_filter_complement P (key_value_cache (db w)))).
      f_equal. symmetry. apply map_filter_union_complement. }
    assert (filter (fun kr : string * KeyValueCacheRecord =>
                      not_expired (kv_expires_at kr.2) (toUnixSeconds (now w)) = false)
              (key_value_cache (db w)) =
            filter (fun kr => ~ P kr) (key_value_cache (db w))) as ->.
    { apply map_filter_ext. intros k r _. unfold P. cbn.
      by destruct (not_expired _ _). }
    fold P. lia.
  - intros key r. cbn. rewrite map_lookup_filter_Some. reflexivity.
  - reflexivity.
  - intros key w' Hdb Hnow. rewrite !getCache_eq. cbn [fst]. f_equal. f_equal.
    unfold select_cache. rewrite Hdb. cbn.
    destruct (key_value_cache (db w) !! key) as [r|] eqn:Hkey.
    + destruct (not_expired (kv_expires_at r) (toUnixSeconds (now w'))) eqn:Hlive.
      * assert (filter P (key_value_cache (db w)) !! key = Some r) as ->; [|by rewrite Hlive].
        apply map_lookup_filter_Some. split; [done|]. unfold P. cbn.
        apply (not_expired_mono _ _ (toUnixSeconds (now w'))); [|done].
        by apply toUnixSeconds_mono.
      * destruct (filter P (key_value_cache (db w)) !! key) as [r'|] eqn:Hkept; [|done].
        apply map_lookup_filter_Some in Hkept as [Hr' _].
        assert (r' = r) as -> by congruence. by rewrite Hlive.
    + assert (filter P (key_value_cache (db w)) !! key = None) as ->; [|done].
      apply map_lookup_filter_None. left. done.
Qed.

End Cache.

(** ** The queue: ids, lookups and listings *)

Section QueueMore.
Context {E : Type}.
Implicit Types w : World E.
Implicit Types r : QueuedTaskRecord.
Implicit Types rows : list QueuedTaskRecord.

Lemma getQueuedTask_eq id w :
  getQueuedTask id w =
  (Ok (head (filter (fun r => task_id r = id) (queued_tasks (db w)))), elapse 0 w).
Proof. reflexivity. Qed.

(** With distinct ids, the row of an id is the row that has it. *)
Lemma head_filter_id rows r :
  NoDup (map task_id rows) -> r ∈ rows ->
  head (filter (fun x => task_id x = task_id r) rows) = Some r.
Proof.
  induction rows as [|x rows IH]; intros Hnodup Hin; [by apply elem_of_nil in Hin|].
  cbn in Hnodup. apply NoDup_cons in Hnodup as [Hx Hnodup].
  rewrite filter_cons. apply elem_of_cons in Hin as [->|Hin].
  - by rewrite decide_True.
  - rewrite decide_False; [by apply IH|].
    intros Heq. apply Hx. rewrite Heq. apply list_elem_of_fmap. eauto.
Qed.

Lemma head_filter_None rows id :
  (forall r, r ∈ rows -> task_id r <> id) ->
  head (filter (fun x => task_id x = id) rows) = None.
Proof.
  intros Hnone. induction rows as [|x rows IH]; [done|].
  rewrite filter_cons, decide_False by (apply Hnone; left).
  apply IH. intros r Hr. apply Hnone. by right.
Qed.

Lemma filter_absent_id rows id :
  (forall r, r ∈ rows -> task_id r <> id) ->
  filter (fun r => task_id r <> id) rows = rows.
Proof.
  intros Hnone. induction rows as [|x rows IH]; [done|].
  rewrite filter_cons, decide_True by (apply Hnone; left).
  f_equal. apply IH. intros r Hr. apply Hnone. by right.
Qed.

(** *** The ids stay distinct *)

Lemma unique_ids_add name args expiresAt p w :
  unique_ids (db w) -> unique_ids (db (snd (addQueuedTask name args expiresAt p w))).
Proof.
  intros (Hnodup & Hbound & Hseq). split; [|split]; cbn.
  - rewrite map_app. cbn. apply NoDup_app. split; [done|]. split.
    + intros id Hid ->%list_elem_of_singleton.
      apply list_elem_of_fmap in Hid as (r & Hr & Hin).
      rewrite Forall_forall in Hbound. specialize (Hbound r Hin). lia.
    + apply NoDup_singleton.
  - apply Forall_app. split.
    + eapply Forall_impl; [exact Hbound|]. cbn. intros r ?. lia.
    + apply Forall_singleton. cbn. lia.
  - lia.
Qed.

Lemma unique_ids_sublist (d d' : Database) :
  sublist (queued_tasks d') (queued_tasks d) ->
  queued_tasks_seq d' = queued_tasks_seq d ->
  unique_ids d -> unique_ids d'.
Proof.
  intros Hsub Hseq' (Hnodup & Hbound & Hseq). split; [|split].
  - apply (sublist_NoDup _ (map task_id (queued_tasks d))); [exact Hnodup|].
    by apply fmap_sublist.
  - rewrite Hseq'. rewrite Forall_forall in Hbound |- *.
    intros r Hr. apply Hbound. by eapply elem_of_sublist.
  - by rewrite Hseq'.
Qed.

Lemma unique_ids_delete id w :
  unique_ids (db w) -> unique_ids (db (snd (deleteQueuedTask id w))).
Proof. apply unique_ids_sublist; [apply sublist_filter|reflexivity]. Qed.

Lemma unique_ids_clean w :
  unique_ids (db w) -> unique_ids (db (snd (cleanExpiredQueuedTasks w))).
Proof. apply unique_ids_sublist; [apply sublist_filter|reflexivity]. Qed.

(** X4.  [addQueuedTask] on a table whose ids are distinct: the id it returns
    is positive and had not been handed out; [getQueuedTask] of that id
    returns the row inserted, with the clock's second as [added_at] and the
    expiry, given in milliseconds, cut to whole seconds; every row that was
    there is returned by its id as before, and the ids are still distinct. *)
Theorem addQueuedTask_then_getQueuedTask name args expiresAt p w :
  unique_ids (db w) ->
  exists id w1,
    addQueuedTask name args expiresAt p w = (Ok id, w1) /\
    0 < id /\
    (forall r, r ∈ queued_tasks (db w) -> task_id r < id) /\
    unique_ids (db w1) /\
    (forall w', db w' = db w1 ->
       fst (getQueuedTask id w') =
         Ok (Some {| task_id := id; task_name := name; arguments := args;
                      added_at := toUnixSeconds (now w);
                      expires_at := option_map toUnixSeconds expiresAt;
                      priority := p |}) /\
       forall r, r ∈ queued_tasks (db w) ->
                 fst (getQueuedTask (task_id r) w') = Ok (Some r)).
Proof.
  intros Hids. pose proof (unique_ids_add name args expiresAt p w Hids) as Hids1.
  destruct Hids as (Hnodup & Hbound & Hseq). rewrite Forall_forall in Hbound.
  exists (queued_tasks_seq (db w) + 1), (snd (addQueuedTask name args expiresAt p w)).
  split; [reflexivity|]. split; [lia|]. split.
  { intros r Hr. specialize (Hbound r Hr). lia. }
  split; [exact Hids1|].
  intros w' Hdb. destruct Hids1 as (Hnodup1 & _).
  set (new := {| task_id := queued_tasks_seq (db w) + 1 |}).
  assert (queued_tasks (db w') = (queued_tasks (db w) ++ [new])%list) as Hrows
    by (rewrite Hdb; reflexivity).
  rewrite <- Hdb in Hnodup1. split.
  - rewrite getQueuedTask_eq. cbn [fst]. f_equal.
    apply (head_filter_id _ new Hnodup1). rewrite Hrows.
    apply elem_of_app. right. apply list_elem_of_here.
  - intros r Hr. rewrite getQueuedTask_eq. cbn [fst]. f_equal.
    apply (head_filter_id _ r Hnodup1). rewrite Hrows.
    apply elem_of_app. by left.
Qed.

(** X5.  [deleteQueuedTask(id)] on a table whose ids are distinct: the row of
    that id is gone, [getQueuedTask(id)] answers [null], the other rows
    stay, in their order, and are returned by their ids as before; when no
    row has the id, the table is left as it is. *)
Theorem deleteQueuedTask_then_getQueuedTask id w :
  unique_ids (db w) ->
  exists w1,
    deleteQueuedTask id w = (Ok tt, w1) /\
    unique_ids (db w1) /\
    sublist (queued_tasks (db w1)) (queued_tasks (db w)) /\
    (forall r, r ∈ queued_tasks (db w1) <-> r ∈ queued_tasks (db w) /\ task_id r <> id) /\
    key_value_cache (db w1) = key_value_cache (db w) /\
    ((forall r, r ∈ queued_tasks (db w) -> task_id r <> id) -> db w1 = db w) /\
    (forall w', db w' = db w1 ->
       fst (getQueuedTask id w') = Ok None /\
       forall r, r ∈ queued_tasks (db w) -> task_id r <> id ->
                 fst (getQueuedTask (task_id r) w') = Ok (Some r)).
Proof.
  intros Hids. pose proof (unique_ids_delete id w Hids) as Hids1.
  exists (snd (deleteQueuedTask id w)).
  split; [reflexivity|]. split; [exact Hids1|].
  split; [apply sublist_filter|]. split.
  { intros r. cbn. rewrite list_elem_of_filter. tauto. }
  split; [reflexivity|]. split.
  { intros Habsent. cbn. rewrite filter_absent_id by done. by destruct (db w). }
  intros w' Hdb. rewrite <- Hdb in Hids1. destruct Hids1 as (Hnodup1 & _).
  assert (forall r, r ∈ queued_tasks (db w') <->
                    r ∈ queued_tasks (db w) /\ task_id r <> id) as Hrows.
  { intros r. rewrite Hdb. cbn. rewrite list_elem_of_filter. tauto. }
  split.
  - rewrite getQueuedTask_eq. cbn [fst]. f_equal. apply head_filter_None.
    intros r Hr. by apply Hrows in Hr as [_ ?].
  - intros r Hr Hne. rewrite getQueuedTask_eq. cbn [fst]. f_equal.
    apply (head_filter_id _ r Hnodup1). by apply Hrows.
Qed.


(** *** The order of a listing *)

Lemma insert_row_perm r sorted : insert_row r sorted ≡ₚ r :: sorted.
Proof.
  induction sorted as [|x rest IH]; cbn; [done|].
  destruct (precedes x r); [|done].
  rewrite IH. apply Permutation_swap.
Qed.

Lemma order_by_perm rows : order_by rows ≡ₚ rows.
Proof.
  induction rows as [|r rows IH]; [done|].
  rewrite order_by_cons, insert_row_perm. by f_equiv.
Qed.

Lemma precedes_trans_false a b c :
  precedes b a = false -> precedes c b = false -> precedes c a = false.
Proof. rewrite !precedes_false. lia. Qed.

Lemma insert_row_sorted r sorted :
  StronglySorted (fun a b => precedes b a = false) sorted ->
  StronglySorted (fun a b => precedes b a = false) (insert_row r sorted).
Proof.
  induction 1 as [|x rest Hrest IH Hx]; cbn.
  - repeat constructor.
  - destruct (precedes x r) eqn:Hxr.
    + constructor; [done|]. rewrite Forall_forall in Hx |- *.
      intros y [->|Hy]%elem_of_insert_row; [|auto].
      apply precedes_true in Hxr. apply precedes_false. lia.
    + constructor; [by constructor|]. constructor; [done|].
      rewrite Forall_forall in Hx |- *. intros y Hy.
      by apply (precedes_trans_false r x y); [|apply Hx].
Qed.

Lemma order_by_sorted rows :
  StronglySorted (fun a b => precedes b a = false) (order_by rows).
Proof.
  induction rows as [|r rows IH]; [constructor|].
  rewrite order_by_cons. by apply insert_row_sorted.
Qed.

Lemma visit_row_perm place r visited : visit_row place r visited ≡ₚ r :: visited.
Proof.
  induction visited as [|x rest IH]; cbn; [done|].
  destruct (place x <? place r); [|done].
  rewrite IH. apply Permutation_swap.
Qed.

(** A plan visits every row once. *)
Lemma scan_perm place rows : scan place rows ≡ₚ rows.
Proof.
  induction rows as [|r rows IH]; [done|].
  rewrite scan_cons, visit_row_perm. by f_equiv.
Qed.

Lemma limit_offset_all {A} (rows : list A) : limit_offset (-1) 0 rows = rows.
Proof. reflexivity. Qed.

(** X6.  [getQueuedTasks(options)] changes nothing.  With an offset and
    no limit it fails.  Otherwise it returns the listing cut by the limit
    and the offset (all of it when the limit is absent or zero), where the
    listing holds the rows of the table that have the name asked for and,
    unless [excludeExpired] is [false], have not expired, each once, a
    higher priority first, an older [added_at] first among equal
    priorities; the order among rows equal in both is left to the plan of
    the query.  What [extractNextQueuedTask] returns need not be the
    first row of [getQueuedTasks()], but it ties with it in priority and
    [added_at]; and it returns nothing exactly when that listing is
    empty. *)
Theorem getQueuedTasks_listing options w :
  db (snd (getQueuedTasks options w)) = db w /\
  (given_number (limit options) = None -> given_number (offset options) <> None ->
   exists e, fst (getQueuedTasks options w) = Throw e) /\
  (given_number (limit options) <> None \/ given_number (offset options) = None ->
   exists listing,
     fst (getQueuedTasks options w) =
       Ok (limit_offset (default (-1) (given_number (limit options)))
             (default 0 (given_number (offset options))) listing) /\
     (given_number (limit options) = None ->
      fst (getQueuedTasks options w) = Ok listing) /\
     listing ≡ₚ filter (fun r => named options r &&
                                  live options (toUnixSeconds (now w)) r = true)
                  (queued_tasks (db w)) /\
     StronglySorted (fun a b => precedes b a = false) listing /\
     (options = no_options ->
      (forall r, fst (extractNextQueuedTask w) = Ok (Some r) ->
                 r ∈ listing /\
                 exists first, head listing = Some first /\
                               priority first = priority r /\
                               added_at first = added_at r) /\
      (fst (extractNextQueuedTask w) = Ok None <-> listing = []))).
Proof.
  assert (forall rows : list QueuedTaskRecord,
            let listing := order_by (scan (scan_order (db w) (getQueuedTasks_sql no_options))
                                       (filter (fun r => named no_options r &&
                                                         live no_options (toUnixSeconds (now w)) r
                                                         = true) (queued_tasks (db w)))) in
            (forall r, fst (extractNextQueuedTask w) = Ok (Some r) ->
                       r ∈ listing /\
                       exists first, head listing = Some first /\
                                     priority first = priority r /\
                                     added_at first = added_at r) /\
            (fst (extractNextQueuedTask w) = Ok None <-> listing = [])) as Hextract.
  { intros _ listing.
    assert (forall x, x ∈ listing <->
                      x ∈ queued_tasks (db w) /\
                      not_expired (expires_at x) (toUnixSeconds (now w)) = true) as Hin.
    { intros x. subst listing. rewrite elem_of_order_by, elem_of_scan, list_elem_of_filter.
      cbn. tauto. }
    rewrite extractNextQueuedTask_eq. cbn [fst]. split.
    - intros r [= Hsel]. apply select_next_Some in Hsel as (Hr & Hlive & Hmin).
      assert (r ∈ listing) as Hrl by (by apply Hin).
      split; [done|].
      destruct (head listing) as [first|] eqn:Hhead.
      + exists first. split; [done|].
        apply head_order_by in Hhead as [Hfirst Hleast].
        apply elem_of_scan, list_elem_of_filter in Hfirst as [Hflive Hfirst].
        cbn in Hflive.
        specialize (Hmin first Hfirst Hflive).
        specialize (Hleast r).
        rewrite elem_of_scan, list_elem_of_filter in Hleast.
        specialize (Hleast (conj Hlive Hr)).
        apply precedes_false in Hmin, Hleast. lia.
      + apply head_order_by_None, scan_nil_inv in Hhead.
        assert (r ∈ filter (fun r => named no_options r &&
                                     live no_options (toUnixSeconds (now w)) r = true)
                  (queued_tasks (db w))) as Hrf by (by apply list_elem_of_filter).
        rewrite Hhead in Hrf. by apply elem_of_nil in Hrf.
    - split.
      + intros [= Hsel]. destruct listing as [|x rest] eqn:Hl; [done|].
        assert (x ∈ x :: rest) as Hx by left. apply Hin in Hx as [Hx Hlive].
        pose proof (select_next_None _ _ _ Hsel x Hx). congruence.
      + intros Hnil. f_equal.
        destruct (select_next _ _ _) as [r|] eqn:Hsel; [|done].
        apply select_next_Some in Hsel as (Hr & Hlive & _).
        assert (r ∈ listing) as Hrl by (by apply Hin).
        rewrite Hnil in Hrl. by apply elem_of_nil in Hrl. }
  unfold getQueuedTasks, bind, Date_now, getFirstAsync.
  destruct (given_number (limit options)) as [n|] eqn:Hn;
    destruct (given_number (offset options)) as [m|] eqn:Hm; cbn [fst snd].
  all: split; [reflexivity|]. all: split; [try done; eauto|].
  all: intros Hok; try (destruct Hok; done).
  all: eexists; split; [reflexivity|].
  all: split; [try done|].
  all: split; [by rewrite order_by_perm, scan_perm|].
  all: split; [apply order_by_sorted|].
  all: intros ->; try discriminate Hn; try discriminate Hm; exact (Hextract []).
Qed.


(** *** Sweeping the queue *)

Lemma cleanExpiredQueuedTasks_eq w :
  cleanExpiredQueuedTasks w =
  (Ok (Z.of_nat (length (queued_tasks (db w))) -
       Z.of_nat (length (filter (fun r => not_expired (expires_at r)
                                             (toUnixSeconds (now w)) = true)
                           (queued_tasks (db w))))),
   elapse 0 (set_db
     {| key_value_cache := key_value_cache (db w);
        queued_tasks :=
          filter (fun r => not_expired (expires_at r) (toUnixSeconds (now w)) = true)
            (queued_tasks (db w));
        queued_tasks_seq := queued_tasks_seq (db w);
        scan_order := scan_order (db w) |} w)).
Proof. reflexivity. Qed.

Lemma length_filter_complement {A} (P : A -> Prop) `{!forall x, Decision (P x)}
    (l : list A) :
  length l = (length (filter P l) + length (filter (fun x => ~ P x) l))%nat.
Proof.
  induction l as [|x l IH]; [done|]. rewrite !filter_cons.
  destruct (decide (P x)).
  - rewrite decide_False by tauto. cbn. lia.
  - rewrite decide_True by done. cbn. lia.
Qed.

(** X7.  [cleanExpiredQueuedTasks()] deletes the rows whose [expires_at] is a
    timestamp not after the current second, and no other; it returns how
    many they were; the rows kept stay in their order, with their ids; and
    from then on neither [extractNextQueuedTask] nor [getQueuedTasks()]
    can tell that it ran. *)
Theorem cleanExpiredQueuedTasks_unobservable w :
  exists n w1,
    cleanExpiredQueuedTasks w = (Ok n, w1) /\
    n = Z.of_nat (length (filter (fun r => not_expired (expires_at r)
                                              (toUnixSeconds (now w)) = false)
                            (queued_tasks (db w)))) /\
    queued_tasks (db w1) =
      filter (fun r => not_expired (expires_at r) (toUnixSeconds (now w)) = true)
        (queued_tasks (db w)) /\
    key_value_cache (db w1) = key_value_cache (db w) /\
    (unique_ids (db w) -> unique_ids (db w1)) /\
    (forall w', db w' = db w1 -> now w <= now w' ->
        fst (extractNextQueuedTask w') = fst (extractNextQueuedTask (set_db (db w) w')) /\
        fst (getQueuedTasks no_options w') =
          fst (getQueuedTasks no_options (set_db (db w) w'))).
Proof.
  eexists _, _. split; [apply cleanExpiredQueuedTasks_eq|].
  split; [|split; [reflexivity|split; [reflexivity|split; [apply unique_ids_clean|]]]].
  - rewrite (length_filter_complement
               (fun r => not_expired (expires_at r) (toUnixSeconds (now w)) = true)
               (queued_tasks (db w))).
    rewrite (list_filter_iff
               (fun r => not_expired (expires_at r) (toUnixSeconds (now w)) = false)
               (fun r => ~ not_expired (expires_at r) (toUnixSeconds (now w)) = true)).
    + lia.
    + intros r. by destruct (not_expired _ _).
  - intros w' Hdb Hnow.
    assert (filter (fun r => not_expired (expires_at r) (toUnixSeconds (now w')) = true)
              (queued_tasks (db w')) =
            filter (fun r => not_expired (expires_at r) (toUnixSeconds (now w')) = true)
              (queued_tasks (db w))) as Hsame.
    { rewrite Hdb. cbn. apply list_filter_filter_l.
      intros r. apply not_expired_mono. by apply toUnixSeconds_mono. }
    assert (scan_order (db w') = scan_order (db w)) as Hplan by (by rewrite Hdb).
    split.
    + rewrite !extractNextQueuedTask_eq. cbn [fst]. unfold select_next. cbn [db set_db now].
      by rewrite Hsame, Hplan.
    + unfold getQueuedTasks, bind, Date_now, getFirstAsync. cbn -[order_by scan].
      by rewrite Hsame, Hplan.
Qed.

End QueueMore.

(** ** [run()], [enqueueTask] and [processQueue]: what they leave alone *)

Section RunMore.
Context {E : Type}.
Implicit Types w : World E.
Implicit Types t : Task E.
Implicit Types registry : gmap string (TaskConstructor E).

(** *** Keys *)

Lemma append_colon_inj (a b x y : string) :
  ~ In ":"%char (list_ascii_of_string a) ->
  ~ In ":"%char (list_ascii_of_string b) ->
  a +:+ ":" +:+ x = b +:+ ":" +:+ y -> a = b /\ x = y.
Proof.
  revert b. induction a as [|c a IH]; intros [|d b] Ha Hb Heq.
  - change (String ":" x = String ":" y) in Heq. by injection Heq as ->.
  - change (String ":" x = String d (b +:+ ":" +:+ y)) in Heq.
    injection Heq as <- _. destruct Hb. by left.
  - change (String c (a +:+ ":" +:+ x) = String ":" y) in Heq.
    injection Heq as -> _. destruct Ha. by left.
  - change (String c (a +:+ ":" +:+ x) = String d (b +:+ ":" +:+ y)) in Heq.
    injection Heq as -> Hrest. destruct (IH b) as [-> ->]; [| |done|done].
    + intros Hin. apply Ha. by right.
    + intros Hin. apply Hb. by right.
Qed.

(** X8.  The key of [run()] tells the class and the fingerprint apart: two
    tasks whose class names hold no colon (the names of classes never do)
    have the same key only if they are of the same class and their
    arguments have the same fingerprint; so tasks of different classes
    never share a cache entry or an execution in flight. *)
Theorem task_key_injective t1 t2 :
  ~ In ":"%char (list_ascii_of_string (constructor_name t1)) ->
  ~ In ":"%char (list_ascii_of_string (constructor_name t2)) ->
  task_key t1 = task_key t2 ->
  constructor_name t1 = constructor_name t2 /\ hash (args t1) = hash (args t2).
Proof. intros H1 H2. unfold task_key. by apply append_colon_inj. Qed.


(** *** The frame of [run()] *)

(** The four ways through [run()], by what the world is after it: a hit
    and a registered execution only let time pass; otherwise the body
    runs, the entry of [locksMap] is removed, and the cache row of the key
    is written when the body returned something [JSON.stringify]
    accepts. *)
Lemma run_world t w :
  let wb := snd (fn t (task_providers t) (values (args t)) (elapse 0 w)) in
  snd (run t w) = elapse 0 w \/
  (locksMap (elapse 0 w) !! task_key t = None /\
   locksMap (snd (run t w)) = delete (task_key t) (locksMap wb) /\
   queued_tasks (db (snd (run t w))) = queued_tasks (db wb) /\
   providers (snd (run t w)) = providers wb /\
   ext (snd (run t w)) = ext wb /\
   forall k, k <> task_key t ->
     key_value_cache (db (snd (run t w))) !! k = key_value_cache (db wb) !! k).
Proof.
  intros wb. rewrite run_eq.
  destruct (value_or_null _) as [cached|].
  { left. by destruct (JSON_parse cached). }
  destruct (locksMap (elapse 0 w) !! task_key t) as [lock|] eqn:Hlock.
  { left. by rewrite (run_uncached_locked t _ _ lock Hlock). }
  right. split; [done|].
  destruct (fn t (task_providers t) (values (args t)) (elapse 0 w)) as [[data|e] wb'] eqn:Hfn;
    subst wb; cbn [snd].
  - destruct (run_uncached_returns t (task_key t) (elapse 0 w) data wb' Hlock Hfn)
      as (w1 & -> & Hl & Hp & He & Hq & _ & Hc). cbn [snd].
    repeat split; try done.
    intros k Hk. rewrite Hc.
    destruct (JSON_stringify data); by rewrite ?lookup_insert_ne.
  - rewrite (run_uncached_throws t (task_key t) (elapse 0 w) e wb' Hlock Hfn).
    repeat split.
Qed.

(** X9.  [run()] leaves [locksMap] as it found it, whatever its outcome, when
    the body does; it leaves the queue as it found it when the body does;
    and it leaves the cache row of every other key as it found it when the
    body does. *)
Theorem run_frame t w :
  (locksMap (snd (fn t (task_providers t) (values (args t)) (elapse 0 w))) = locksMap w ->
   locksMap (snd (run t w)) = locksMap w) /\
  (queued_tasks (db (snd (fn t (task_providers t) (values (args t)) (elapse 0 w))))
     = queued_tasks (db w) ->
   queued_tasks (db (snd (run t w))) = queued_tasks (db w)) /\
  (forall k, k <> task_key t ->
     key_value_cache (db (snd (fn t (task_providers t) (values (args t)) (elapse 0 w)))) !! k
       = key_value_cache (db w) !! k ->
     key_value_cache (db (snd (run t w))) !! k = key_value_cache (db w) !! k).
Proof.
  destruct (run_world t w) as [->|(Hlock & Hl & Hq & _ & _ & Hc)].
  { repeat split. }
  split; [|split].
  - intros Hbody. rewrite Hl, Hbody. by apply delete_id.
  - intros Hbody. by rewrite Hq.
  - intros k Hk Hbody. by rewrite Hc.
Qed.


(** *** [enqueueTask] *)

(** The text of a tuple of arguments always exists. *)
Lemma stringify_arguments_text (xs : list JsValue) :
  exists text, JSON_stringify_replacer (JArray xs) = Text text.
Proof.
  pose proof (SerializeJSONProperty_replacer_no_throw "" (JArray xs)) as Hno.
  unfold JSON_stringify_replacer in *. cbn in *.
  match goal with
  | |- exists _, match ?a with _ => _ end = _ => destruct a; [eauto|done]
  end.
Qed.

(** X10.  [enqueueTask(task)], the database service being registered and the
    ids of the queue being distinct and positive: the row inserted carries
    the class name, the text of the arguments, the second of the clock, the
    expiry cut to whole seconds, priority 0 and a new id; the task is then
    reconstructed and run from the record [serialize()] made, whose id is 0
    and whose expiry is in milliseconds, and [enqueueTask] settles as that
    run did; afterwards the queue is the queue as the run left it without
    the rows of id 0, so every row queued after the insertion, the row
    inserted among them, is still queued if the run left it there. *)
Theorem enqueueTask_keeps_its_row registry (task : Task E) w :
  is_Some (providers w !! "DatabaseService") ->
  unique_ids (db w) ->
  exists text w1 o w2,
    JSON_stringify_replacer (JArray (values (args task))) = Text text /\
    queued_tasks (db w1) =
      (queued_tasks (db w) ++
         [{| task_id := queued_tasks_seq (db w) + 1;
             task_name := constructor_name task;
             arguments := text;
             added_at := toUnixSeconds (now w);
             expires_at := expiry_seconds (expiry task);
             priority := 0 |}])%list /\
    (let* t := deserialize registry
                 {| task_id := 0;
                    task_name := constructor_name task;
                    arguments := text;
                    added_at := toUnixSeconds (now w);
                    expires_at := match expiry task with
                                  | forever => None
                                  | ExpiryDate ms => Some ms
                                  end;
                    priority := 0 |} in
     run t) w1 = (o, w2) /\
    fst (enqueueTask registry task w) = o /\
    queued_tasks (db (snd (enqueueTask registry task w))) =
      filter (fun r => task_id r <> 0) (queued_tasks (db w2)) /\
    forall r, r ∈ queued_tasks (db w1) -> r ∈ queued_tasks (db w2) ->
              r ∈ queued_tasks (db (snd (enqueueTask registry task w))).
Proof.
  intros Hdb Hids. rewrite (enqueueTask_eq _ _ _ Hdb). cbv zeta.
  destruct (stringify_arguments_text (values (args task))) as [text Htext].
  rewrite Htext. cbn [task_id task_name arguments expires_at priority].
  set (record := {| task_id := 0 |}).
  set (w1 := snd (addQueuedTask _ _ _ _ w)).
  rewrite runTask_eq.
  destruct ((let* t := deserialize registry record in run t) w1) as [o w2] eqn:Hrun.
  exists text, w1, o, w2. split; [done|]. split.
  { subst w1. cbn. by destruct (expiry task). }
  split; [done|]. split; [done|]. split; [done|].
  intros r Hr1 Hr. cbn. apply list_elem_of_filter. split; [|done].
  pose proof (unique_ids_add (constructor_name task) text
                match expiry task with forever => None | ExpiryDate ms => Some ms end
                0 w Hids) as (_ & Hbound & _).
  rewrite Forall_forall in Hbound. specialize (Hbound r Hr1). lia.
Qed.


(** *** A drain pass without failures *)

Lemma elapse_now w ms : 0 <= ms -> now w <= now (elapse ms w).
Proof. intros. pose proof (now_elapse w ms). lia. Qed.

Lemma processQueue_loop_drains registry (I : World E -> Prop) :
  (forall w, I w -> I (elapse 0 w)) ->
  (forall w id, I w -> I (snd (deleteQueuedTask id w))) ->
  (forall record w, I w -> record ∈ queued_tasks (db w) ->
     exists v w', (let* t := deserialize registry record in run t) w = (Ok v, w') /\
                  queued_tasks (db w') = queued_tasks (db w) /\ I w') ->
  forall n w, (length (queued_tasks (db w)) <= n)%nat -> I w ->
  exists w0,
    processQueue_loop registry (S n) w = Some (Ok tt, elapse 0 w0) /\
    I w0 /\
    sublist (queued_tasks (db w0)) (queued_tasks (db w)) /\
    select_next (scan_order (db w0) extractNextQueuedTask_sql)
      (queued_tasks (db w0)) (toUnixSeconds (now w0)) = None.
Proof.
  intros Htime Hdelete Hruns. induction n as [|n IH]; intros w Hlen HI.
  - exists w. rewrite processQueue_loop_S, extractNextQueuedTask_eq.
    destruct (queued_tasks (db w)) as [|r rows] eqn:Hrows; [|cbn in Hlen; lia].
    cbn. done.
  - rewrite processQueue_loop_S, extractNextQueuedTask_eq.
    destruct (select_next _ _ _) as [record|] eqn:Hnext; [|by exists w].
    apply select_next_Some in Hnext as (Hin & _).
    destruct (Hruns record (elapse 0 w) (Htime w HI) Hin) as (v & w' & Hrun & Hqueue & HI').
    rewrite runTask_eq, Hrun.
    set (w2 := snd (deleteQueuedTask (task_id record) w')).
    assert (queued_tasks (db w2) =
            filter (fun r => task_id r <> task_id record) (queued_tasks (db w))) as Hq2
      by (subst w2; cbn; by rewrite Hqueue).
    destruct (IH w2) as (w0 & Hloop & HI0 & Hsub & Hnone).
    + rewrite Hq2.
      pose proof (length_filter_lt (fun r => task_id r <> task_id record)
                    (queued_tasks (db w)) record Hin ltac:(tauto)).
      lia.
    + by apply Hdelete.
    + exists w0. split; [done|]. split; [done|]. split; [|done].
      etrans; [exact Hsub|]. rewrite Hq2. apply sublist_filter.
Qed.

(** X11.  A drain pass in which no record fails ends: given a property of the
    world that the passing of time and the deletion of a row keep, and under
    which every queued record is reconstructed and run without failure,
    leaving the queue as it was and the property in force, [processQueue]
    returns within one turn per queued row and one more; the rows then
    queued are rows that were queued at the start, in their order, and each
    of them has expired. *)
Theorem processQueue_drains registry (I : World E -> Prop) w :
  (forall w, I w -> I (elapse 0 w)) ->
  (forall w id, I w -> I (snd (deleteQueuedTask id w))) ->
  (forall record w, I w -> record ∈ queued_tasks (db w) ->
     exists v w', (let* t := deserialize registry record in run t) w = (Ok v, w') /\
                  queued_tasks (db w') = queued_tasks (db w) /\ I w') ->
  I w -> is_Some (providers w !! "DatabaseService") ->
  exists w',
    processQueue registry (S (length (queued_tasks (db w)))) w = Some (Ok tt, w') /\
    I w' /\
    sublist (queued_tasks (db w')) (queued_tasks (db w)) /\
    forall r, r ∈ queued_tasks (db w') ->
              not_expired (expires_at r) (toUnixSeconds (now w')) = false.
Proof.
  intros Htime Hdelete Hruns HI [dbp Hdb].
  destruct (processQueue_loop_drains registry I Htime Hdelete Hruns
              (length (queued_tasks (db w))) w ltac:(lia) HI)
    as (w0 & Hloop & HI0 & Hsub & Hnone).
  exists (elapse 0 w0). unfold processQueue. rewrite Hdb.
  split; [done|]. split; [by apply Htime|]. split; [done|].
  intros r Hr. pose proof (select_next_None _ _ _ Hnone r Hr) as Hexpired.
  destruct (expires_at r) as [e|]; [|done]. cbn [not_expired] in *.
  apply Z.ltb_ge in Hexpired. apply Z.ltb_ge.
  pose proof (toUnixSeconds_mono (now w0) (now (elapse 0 w0)) (elapse_now w0 0 ltac:(lia))).
  lia.
Qed.

End RunMore.

(** ** The fingerprint: what it does not tell apart, and its shape *)

Section FingerprintMore.

(** [flattened] is its loop over the own properties. *)
Lemma flattened_loop ob :
  flattened ob = fold_left flatten_property (own_properties ob) [].
Proof.
  destruct ob as [| | | | | | |xs|props]; try reflexivity.
  - cbn [flattened own_properties].
    generalize (@nil (string * JsValue)) as acc. generalize 0 as i.
    induction xs as [|x xs IH]; intros i acc; [reflexivity|].
    cbn [indexed_from fold_left]. rewrite <- IH. reflexivity.
  - cbn [flattened own_properties].
    generalize (@nil (string * JsValue)) as acc.
    induction props as [|[k x] props IH]; intros acc; [reflexivity|].
    cbn [fold_left]. rewrite <- IH. reflexivity.
Qed.

Lemma flatten_property_empty acc i h :
  typeof h = "object" -> flattened h = [] -> flatten_property acc (i, h) = acc.
Proof. intros Htype Hflat. unfold flatten_property. cbn. by rewrite Htype, Hflat. Qed.

Lemma indexed_from_app i xs ys :
  indexed_from i (xs ++ ys) =
  (indexed_from i xs ++ indexed_from (i + Z.of_nat (length xs)) ys)%list.
Proof.
  revert i. induction xs as [|x xs IH]; intros i; cbn.
  - by rewrite Z.add_0_r.
  - rewrite IH. do 3 f_equal. lia.
Qed.

Lemma flattened_skips_empty pre h post :
  typeof h = "object" -> flattened h = [] ->
  flattened (JArray (pre ++ h :: post)) =
  fold_left flatten_property
    (indexed_from (Z.of_nat (length pre) + 1) post)
    (flattened (JArray pre)).
Proof.
  intros Htype Hflat. rewrite !flattened_loop. cbn [own_properties].
  rewrite indexed_from_app, fold_left_app. cbn [indexed_from fold_left].
  rewrite flatten_property_empty by done. reflexivity.
Qed.

Lemma flattened_array_empty xs :
  Forall (fun x => typeof x = "object" /\ flattened x = []) xs -> flattened (JArray xs) = [].
Proof.
  intros Hxs. rewrite flattened_loop. cbn [own_properties].
  generalize 0 as i. induction Hxs as [|x xs [Hx Hx'] _ IH]; intros i; [done|].
  cbn [indexed_from fold_left]. rewrite flatten_property_empty by done. apply IH.
Qed.

Lemma flattened_object_empty props :
  Forall (fun kx => typeof kx.2 = "object" /\ flattened kx.2 = []) props ->
  flattened (JObject props) = [].
Proof.
  intros Hps. rewrite flattened_loop. cbn [own_properties].
  induction Hps as [|[k x] props [Hx Hx'] _ IH]; [done|].
  cbn [fold_left]. rewrite flatten_property_empty by done. apply IH.
Qed.

(** *** Leaves with the same text *)

Section Relabel.
Variable g : JsValue -> JsValue.
Hypothesis g_leaf : forall v, is_container v = false -> is_container (g v) = false.
Hypothesis g_typeof : forall v,
  is_container v = false ->
  String.eqb (typeof (g v)) "object" = String.eqb (typeof v) "object".
Hypothesis g_text : forall k v,
  is_container v = false ->
  serialize_leaf (replacer k (g v)) = serialize_leaf (replacer k v).

Local Abbreviation rmap :=
  (map (fun kx : string * JsValue => let '(k, x) := kx in (k, relabel g x))).
Local Abbreviation leaf_text := (fun (k : string) v => serialize_leaf (replacer k v)).

Lemma obj_replace_relabel k x props :
  obj_replace k (relabel g x) (rmap props) = option_map rmap (obj_replace k x props).
Proof.
  induction props as [|[k' x'] props IH]; [reflexivity|]. cbn.
  destruct (String.eqb k' k); [reflexivity|].
  rewrite IH. by destruct (obj_replace k x props).
Qed.

Lemma obj_insert_index_relabel n k x props :
  obj_insert_index n k (relabel g x) (rmap props) = rmap (obj_insert_index n k x props).
Proof.
  induction props as [|[k' x'] props IH]; [reflexivity|]. cbn.
  destruct (array_index k') as [n'|]; [|reflexivity].
  destruct (n <? n'); [reflexivity|]. cbn. by rewrite IH.
Qed.

Lemma obj_set_relabel k x props :
  obj_set k (relabel g x) (rmap props) = rmap (obj_set k x props).
Proof.
  unfold obj_set. rewrite obj_replace_relabel.
  destruct (obj_replace k x props); [reflexivity|]. cbn.
  destruct (array_index k).
  - apply obj_insert_index_relabel.
  - by rewrite map_app.
Qed.

Lemma typeof_relabel v :
  String.eqb (typeof (relabel g v)) "object" = String.eqb (typeof v) "object".
Proof. destruct v; try reflexivity; by apply g_typeof. Qed.

Lemma flattened_leaf v : is_container v = false -> flattened v = [].
Proof. by destruct v. Qed.

Lemma flatten_property_relabel acc i v :
  flattened (relabel g v) = rmap (flattened v) ->
  flatten_property (rmap acc) (i, relabel g v) = rmap (flatten_property acc (i, v)).
Proof.
  intros Hv. unfold flatten_property. cbn [fst snd].
  rewrite typeof_relabel, Hv.
  destruct (String.eqb (typeof v) "object"); [|apply obj_set_relabel].
  generalize (flattened v) as flat. intros flat. revert acc.
  induction flat as [|[k x] flat IH]; intros acc; [reflexivity|].
  cbn. rewrite obj_set_relabel. apply IH.
Qed.

Lemma flattened_relabel v : flattened (relabel g v) = rmap (flattened v).
Proof.
  induction v as [| | | | | | |xs IH|props IH] using JsValue_nested_ind;
    try (cbn [relabel]; by rewrite flattened_leaf by (by apply g_leaf)).
  - rewrite !flattened_loop. cbn [relabel own_properties].
    change (@nil (string * JsValue)) with (rmap []) at 1.
    generalize (@nil (string * JsValue)) as acc. generalize 0 as i.
    induction IH as [|x xs Hx _ IHxs]; intros i acc; [reflexivity|].
    cbn [map indexed_from fold_left].
    rewrite flatten_property_relabel by done. apply IHxs.
  - rewrite !flattened_loop. cbn [relabel own_properties].
    change (@nil (string * JsValue)) with (rmap []) at 1.
    generalize (@nil (string * JsValue)) as acc.
    induction IH as [|[k x] props Hx _ IHprops]; intros acc; [reflexivity|].
    cbn [map fold_left]. cbn in Hx.
    rewrite flatten_property_relabel by done. apply IHprops.
Qed.

Lemma SerializeJSONProperty_leaf leaf key v :
  is_container v = false -> SerializeJSONProperty leaf key v = leaf key v.
Proof. by destruct v. Qed.

Lemma SerializeJSONProperty_relabel key v :
  SerializeJSONProperty leaf_text key (relabel g v) =
  SerializeJSONProperty leaf_text key v.
Proof.
  revert key.
  induction v as [| | | | | | |xs IH|props IH] using JsValue_nested_ind; intros key;
    try (cbn [relabel];
         rewrite (SerializeJSONProperty_leaf _ _ (g _)) by (by apply g_leaf);
         by rewrite g_text).
  - cbn.
    match goal with
    | |- match ?a with _ => _ end = match ?b with _ => _ end =>
        assert (a = b) as ->; [|reflexivity]
    end.
    generalize 0 as i.
    induction IH as [|x xs Hx _ IHxs]; intros i; [reflexivity|].
    cbn. rewrite Hx, IHxs. reflexivity.
  - cbn.
    match goal with
    | |- match ?a with _ => _ end = match ?b with _ => _ end =>
        assert (a = b) as ->; [|reflexivity]
    end.
    induction IH as [|[k x] props Hx _ IHprops]; [reflexivity|].
    cbn in Hx. cbn. rewrite Hx, IHprops. reflexivity.
Qed.

Lemma flattened_text_relabel args :
  JSON_stringify_replacer (JObject (flattened (JArray (map (relabel g) args)))) =
  JSON_stringify_replacer (JObject (flattened (JArray args))).
Proof.
  unfold JSON_stringify_replacer.
  change (JArray (map (relabel g) args)) with (relabel g (JArray args)).
  rewrite flattened_relabel.
  change (JObject (rmap (flattened (JArray args))))
    with (relabel g (JObject (flattened (JArray args)))).
  by rewrite SerializeJSONProperty_relabel.
Qed.

Lemma ordinary_relabel v : ordinary (relabel g v) = ordinary v.
Proof.
  induction v as [| | | | | | |xs IH|props IH] using JsValue_nested_ind;
    try (cbn [relabel];
         match goal with
         | |- ordinary (g ?v) = _ =>
             pose proof (g_leaf v eq_refl); by destruct (g v)
         end).
  - cbn. induction IH as [|x xs Hx _ IHxs]; [reflexivity|]. cbn. by rewrite Hx, IHxs.
  - cbn. induction IH as [|[k x] props Hx _ IHprops]; [reflexivity|].
    cbn in *. by rewrite Hx, IHprops.
Qed.
End Relabel.

Lemma round_length st kw : length (Sha256.round st kw) = length st.
Proof. unfold Sha256.round. by destruct st as [|a [|b [|c [|d [|e [|f [|g [|h [|]]]]]]]]]. Qed.

Lemma fold_round_length kws st :
  length (fold_left Sha256.round kws st) = length st.
Proof.
  revert st. induction kws as [|kw kws IH]; intros st; [done|].
  cbn [fold_left]. by rewrite IH, round_length.
Qed.

Lemma compress_length h block : length (Sha256.compress h block) = length h.
Proof.
  unfold Sha256.compress.
  rewrite length_map, length_combine, fold_round_length. lia.
Qed.

Lemma blocks_length fuel ws h : length (Sha256.blocks fuel ws h) = length h.
Proof.
  revert ws h. induction fuel as [|fuel IH]; intros ws h; [done|].
  destruct ws as [|x ws]; [done|]. cbn [Sha256.blocks].
  by rewrite IH, compress_length.
Qed.

Lemma be_bytes_4 x :
  length (Sha256.be_bytes 4 x) = 4%nat /\
  Forall (fun b => 0 <= b < 256) (Sha256.be_bytes 4 x).
Proof.
  split; [reflexivity|]. unfold Sha256.be_bytes. cbn [seq rev app map].
  repeat constructor; apply Z.mod_pos_bound; lia.
Qed.

Lemma digest_shape text :
  length (Sha256.digest text) = 32%nat /\
  Forall (fun b => 0 <= b < 256) (Sha256.digest text).
Proof.
  unfold Sha256.digest.
  match goal with
  | |- context [Sha256.blocks ?fuel ?ws Sha256.H0] =>
      pose proof (blocks_length fuel ws Sha256.H0) as Hlen;
      generalize dependent (Sha256.blocks fuel ws Sha256.H0)
  end.
  intros h Hlen. change (length Sha256.H0) with 8%nat in Hlen.
  destruct h as [|a [|b [|c [|d [|e [|f [|g [|h' [|]]]]]]]]]; try discriminate.
  cbn [flat_map]. rewrite !length_app, !Forall_app.
  pose proof (be_bytes_4 a) as [-> ?]. pose proof (be_bytes_4 b) as [-> ?].
  pose proof (be_bytes_4 c) as [-> ?]. pose proof (be_bytes_4 d) as [-> ?].
  pose proof (be_bytes_4 e) as [-> ?]. pose proof (be_bytes_4 f) as [-> ?].
  pose proof (be_bytes_4 g) as [-> ?]. pose proof (be_bytes_4 h') as [-> ?].
  split; [reflexivity|]. repeat split; done.
Qed.

End FingerprintMore.

(** ** Construction: the providers a task gets *)

Section ConstructionMore.
Context {E : Type}.
Implicit Types w : World E.

Lemma resolve_providers_all names ps w :
  Forall2 (fun name p => providers w !! name = Some p) names ps ->
  resolve_providers names w = (Ok ps, w).
Proof.
  induction 1 as [|name p names ps Hp _ IH]; [reflexivity|].
  cbn. unfold bind, ProviderRepository_get. by rewrite Hp, IH.
Qed.

Lemma resolve_providers_first_missing found ps name rest w :
  Forall2 (fun name p => providers w !! name = Some p) found ps ->
  providers w !! name = None ->
  resolve_providers (found ++ name :: rest) w =
  (Throw (Error ("Provider " +:+ name +:+ " not found")), w).
Proof.
  intros Hfound Hname.
  induction Hfound as [|n p found ps Hp _ IH]; cbn; unfold bind, ProviderRepository_get.
  - by rewrite Hname.
  - rewrite Hp. cbn in IH. by rewrite IH.
Qed.

(** X15.  The constructor of [Task], the database service being registered: when
    every declared provider name is registered, the task gets the providers
    registered under the declared names, in the order declared (the same
    provider twice when a name is declared twice), a tuple of arguments is
    wrapped in [JsonArguments] and an [Arguments] object taken as it is, and
    the expiry is ['forever']; when some declared name is not registered,
    the constructor throws [Provider <name> not found] naming the first
    such name in the order declared.  In both cases nothing else changes. *)
Theorem Task_constructor_resolves_providers class_name args names fn dbp w :
  providers w !! "DatabaseService" = Some dbp ->
  (forall ps,
     Forall2 (fun name p => providers w !! name = Some p) names ps ->
     Task_constructor class_name args names fn w =
       (Ok {| constructor_name := class_name;
              args := match args with inl a => a | inr tuple => JsonArguments tuple end;
              providerNames := names; fn := fn; task_db := dbp;
              task_providers := ps; expiry := forever |}, w)) /\
  (forall found ps name rest,
     names = (found ++ name :: rest)%list ->
     Forall2 (fun name p => providers w !! name = Some p) found ps ->
     providers w !! name = None ->
     Task_constructor class_name args names fn w =
       (Throw (Error ("Provider " +:+ name +:+ " not found")), w)).
Proof.
  intros Hdb. split.
  - intros ps Hps. unfold Task_constructor, bind, ProviderRepository_get.
    by rewrite Hdb, (resolve_providers_all names ps w Hps).
  - intros found ps name rest -> Hfound Hname.
    unfold Task_constructor, bind, ProviderRepository_get.
    by rewrite Hdb, (resolve_providers_first_missing found ps name rest w Hfound Hname).
Qed.

End ConstructionMore.

(** ** Providers: waiting for the relays on an interval *)

Section WaitOnInterval.
Context {E : Type}.
Variable current : E -> list RelayInfo * E.
Implicit Types w : World E.

Lemma waitForRelaysConnected_S ticks w :
  waitForRelaysConnected current (S ticks) w =
  let '(b, e) := probe current (ext (elapse 500 w)) in
  if b then Some (Ok tt, set_ext e (elapse 500 w))
  else waitForRelaysConnected current ticks (set_ext e (elapse 500 w)).
Proof.
  cbn [waitForRelaysConnected]. unfold areRelaysConnected, probe.
  destruct (current (ext (elapse 500 w))) as [statuses e].
  by destruct (existsb connected statuses).
Qed.

Lemma waitForRelaysConnected_pending n w :
  fst (poll_n current n (ext w)) = repeat false n ->
  waitForRelaysConnected current n w = None.
Proof.
  revert w. induction n as [|n IH]; intros w; [done|].
  rewrite waitForRelaysConnected_S. cbn [poll_n].
  change (ext (elapse 500 w)) with (ext w).
  destruct (probe current (ext w)) as [b e1].
  destruct (poll_n current n e1) as [bs e2] eqn:Hrest.
  cbn. intros [= -> Hbs]. apply IH. cbn. by rewrite Hrest.
Qed.

Lemma waitForRelaysConnected_settles n extra w :
  fst (poll_n current (S n) (ext w)) = (repeat false n ++ [true])%list ->
  exists w',
    waitForRelaysConnected current (S n + extra) w = Some (Ok tt, w') /\
    ext w' = snd (poll_n current (S n) (ext w)) /\
    now w + 500 * (Z.of_nat n + 1) <= now w' /\
    db w' = db w /\ locksMap w' = locksMap w /\ providers w' = providers w.
Proof.
  revert w. induction n as [|n IH]; intros w.
  - cbn [Nat.add]. rewrite waitForRelaysConnected_S. cbn [poll_n].
    change (ext (elapse 500 w)) with (ext w).
    destruct (probe current (ext w)) as [b e1]. cbn. intros [= ->].
    eexists. split; [reflexivity|]. cbn. repeat split. lia.
  - cbn [Nat.add]. rewrite waitForRelaysConnected_S.
    change (poll_n current (S (S n)) (ext w)) with
      (let '(b, e1) := probe current (ext w) in
       let '(bs, e2) := poll_n current (S n) e1 in (b :: bs, e2)).
    change (ext (elapse 500 w)) with (ext w).
    destruct (probe current (ext w)) as [b e1].
    destruct (poll_n current (S n) e1) as [bs e2] eqn:Hrest.
    cbn [fst snd repeat app]. intros [= -> Hbs].
    destruct (IH (set_ext e1 (elapse 500 w))) as (w' & Hrun & Hext & Hnow & Hdb & Hl & Hp).
    { cbn [ext set_ext]. by rewrite Hrest. }
    exists w'. split; [exact Hrun|]. cbn [ext set_ext] in Hext. rewrite Hrest in Hext.
    split; [done|]. cbn [now set_ext elapse] in Hnow. repeat split; try done. lia.
Qed.

Lemma waitForRelaysConnected_never_rejects ticks w e w' :
  waitForRelaysConnected current ticks w <> Some (Throw e, w').
Proof.
  revert w. induction ticks as [|ticks IH]; intros w; [done|].
  rewrite waitForRelaysConnected_S.
  destruct (probe current (ext (elapse 500 w))) as [[|] e1]; [done|apply IH].
Qed.

(** X16.  [waitForRelaysConnected()] of the relay provider looks at the relays
    every 500 ms at the least.  It resolves at the first look that finds a
    relay connected: when look [n + 1] is the first such look, the promise
    has resolved by tick [n + 1], after [n + 1] looks and no less than
    [500 (n + 1)] ms, and has changed nothing else.  While every look finds
    no relay connected it stays pending; and it never rejects: there is no
    bound on the wait. *)
Theorem waitForRelaysConnected_first_connected_look w :
  (forall n extra,
      fst (poll_n current (S n) (ext w)) = (repeat false n ++ [true])%list ->
      exists w',
        waitForRelaysConnected current (S n + extra) w = Some (Ok tt, w') /\
        ext w' = snd (poll_n current (S n) (ext w)) /\
        now w + 500 * (Z.of_nat n + 1) <= now w' /\
        db w' = db w /\ locksMap w' = locksMap w /\ providers w' = providers w) /\
  (forall n,
      fst (poll_n current n (ext w)) = repeat false n ->
      waitForRelaysConnected current n w = None) /\
  (forall ticks e w', waitForRelaysConnected current ticks w <> Some (Throw e, w')).
Proof.
  split; [|split].
  - intros n extra. apply waitForRelaysConnected_settles.
  - intros n. apply waitForRelaysConnected_pending.
  - intros ticks e w'. apply waitForRelaysConnected_never_rejects.
Qed.

End WaitOnInterval.

(** ** Interleaved callers: progress, and what gets cached *)

Section InterleavedMore.
Import Interleaving.
Implicit Types s : State.

Local Open Scope nat_scope.

(** X17.  In every state the callers reach, a caller that has not settled
    is in one of three positions.  Its next step is its own and it can
    take it; or it waits for the database, which has its query or
    statement to execute; or it awaits the promise of a body, and then
    that promise exists and either has settled, so that the caller can run
    on, or is pending, and then it is the promise registered in
    [locksMap] and the caller that started the body still awaits it, the
    one that will remove the entry.  Whether a pending body settles is up
    to the body (one that awaits [run()] on its own key awaits its own
    promise); nothing is said about it here. *)
Theorem no_caller_is_stuck schedule time row expiries s i c :
  play schedule (init time row expiries) = Some s ->
  callers s !! i = Some c ->
  match pc c with
  | NotCalled => is_Some (act (Call i) s)
  | AwaitGetCache _ None => is_Some (act (DbGet i) s)
  | AwaitSetCache _ _ _ false => is_Some (act (DbSet i) s)
  | AwaitGetCache _ (Some _) | AwaitSetCache _ _ _ true => is_Some (act (Resume i) s)
  | AwaitLock p | AwaitBody p =>
      (exists o, promises s !! p = Some (Some o) /\ is_Some (act (Resume i) s)) \/
      (promises s !! p = Some None /\ lock s = Some p /\
       exists j cj, callers s !! j = Some cj /\ pc cj = AwaitBody p)
  | Finished _ _ => True
  end.
Proof.
  intros Hinv%invariant_play Hc.
  assert (forall p, promises s !! p = Some None ->
            promises s !! p = Some None /\ lock s = Some p /\
            exists j cj, callers s !! j = Some cj /\ pc cj = AwaitBody p) as Hpending.
  { intros p Hp. split; [done|]. split; [by apply (inv_pending s Hinv)|].
    destruct (inv_owner_ex s Hinv p) as (j & cj & Hcj & Hown).
    { apply lookup_lt_is_Some. by eexists. }
    exists j, cj. split; [done|].
    destruct (pc cj) as [|now answer|q|q|q data r written|[|q|q] o] eqn:Hpcj;
      cbn in Hown; try done; subst q.
    - reflexivity.
    - destruct (inv_set_cache s Hinv j cj p data r written Hcj Hpcj) as [Hdone _].
      congruence.
    - destruct (inv_body_done s Hinv j cj p o Hcj Hpcj) as (o' & Hdone & _).
      congruence. }
  destruct (pc c) as [|now [[cached|]|]|p|p|p data r [|]|source o] eqn:Hpc;
    cbn [act]; rewrite ?Hc; unfold resume; rewrite ?Hpc; try done.
  - by destruct (lock s).
  - pose proof (inv_waiter s Hinv i c p Hc Hpc) as Hlt.
    apply lookup_lt_is_Some in Hlt as [[o|] Hp]; [|right; by apply Hpending].
    left. exists o. rewrite Hp. done.
  - assert (owns (pc c) p) as Hown by (by rewrite Hpc).
    pose proof (inv_owner_lt s Hinv i c p Hc Hown) as Hlt.
    apply lookup_lt_is_Some in Hlt as [[o|] Hp]; [|right; by apply Hpending].
    left. exists o. rewrite Hp. split; [done|].
    destruct o as [data|e]; [|done]. by destruct (JSON_stringify data).
Qed.


(** *** Only results are cached *)

Lemma cached_same row0 s s' :
  entry s' = entry s -> promises s' = promises s -> callers s' = callers s ->
  cached_from_a_result row0 s -> cached_from_a_result row0 s'.
Proof.
  intros He Hp Hc [Hrow|(i & c & p & data & ?)]; [left; congruence|].
  right. exists i, c, p, data. by rewrite He, Hp, Hc.
Qed.

(** A caller moves on and keeps the bodies it started. *)
Lemma cached_move row0 i c next s :
  callers s !! i = Some c ->
  (forall p, owns (pc c) p -> owns next p) ->
  cached_from_a_result row0 s -> cached_from_a_result row0 (move i next s).
Proof.
  intros Hc Hkeeps [Hrow|(j & cj & p & data & Hj & Hown & Hp & Htext & Hentry)];
    [by left|].
  right. destruct (decide (j = i)) as [->|Hne].
  - assert (cj = c) as -> by congruence.
    exists i, {| caller_expiry := caller_expiry c; pc := next |}, p, data.
    split; [apply lookup_move; left; eauto|]. split; [by apply Hkeeps|done].
  - exists j, cj, p, data. split; [apply lookup_move; by right|done].
Qed.

Lemma cached_promises row0 ps s :
  (forall p o, promises s !! p = Some (Some o) -> ps !! p = Some (Some o)) ->
  cached_from_a_result row0 s -> cached_from_a_result row0 (set_promises ps s).
Proof.
  intros Hkept [Hrow|(j & cj & p & data & Hj & Hown & Hp & Htext & Hentry)];
    [by left|].
  right. exists j, cj, p, data. split; [done|]. split; [done|]. split; [by apply Hkept|done].
Qed.

Lemma cinv_row_move i c next s :
  callers s !! i = Some c ->
  (forall p data r written, next = AwaitSetCache p data r written ->
     r = cache_row data (caller_expiry c)) ->
  (forall j cj p data r written,
     callers s !! j = Some cj -> pc cj = AwaitSetCache p data r written ->
     r = cache_row data (caller_expiry cj)) ->
  forall j cj p data r written,
    callers (move i next s) !! j = Some cj -> pc cj = AwaitSetCache p data r written ->
    r = cache_row data (caller_expiry cj).
Proof.
  intros Hc Hnext Hrows j cj p data r written
    [[-> (c0 & Hc0 & ->)]|[Hne Hj]]%lookup_move; cbn [pc caller_expiry]; [|eauto].
  assert (c0 = c) as -> by congruence. apply Hnext.
Qed.

Lemma cache_invariant_act row0 a s s' :
  Invariant s -> CacheInvariant row0 s -> act a s = Some s' -> CacheInvariant row0 s'.
Proof.
  intros Hinv Hcinv. pose proof Hcinv as [Hentry Hrows].
  destruct a as [ms|i|i|i|p o|i]; cbn [act].
  - intros [= <-]. split; [by apply (cached_same row0 s)|exact Hrows].
  - destruct (callers s !! i) as [c|] eqn:Hc; [|done].
    destruct (pc c) eqn:Hpc; try done. intros [= <-]. split.
    + apply (cached_move row0 i c); [done| |done]. by rewrite Hpc.
    + by apply (cinv_row_move i c).
  - destruct (callers s !! i) as [c|] eqn:Hc; [|done].
    destruct (pc c) as [|now [answer|]| | | |] eqn:Hpc; try done. intros [= <-]. split.
    + apply (cached_move row0 i c); [done| |done]. by rewrite Hpc.
    + by apply (cinv_row_move i c).
  - destruct (callers s !! i) as [c|] eqn:Hc; [|done].
    destruct (pc c) as [| | | |p data r [|]|] eqn:Hpc; try done. intros [= <-].
    destruct (inv_set_cache s Hinv i c p data r false Hc Hpc) as [Hp Htext].
    pose proof (Hrows i c p data r false Hc Hpc) as ->.
    split.
    + right. exists i, {| caller_expiry := caller_expiry c;
                         pc := AwaitSetCache p data (cache_row data (caller_expiry c)) true |},
        p, data.
      split; [apply lookup_move; left; eauto|]. done.
    + apply (cinv_row_move i c _ (set_entry _ s)); [done| |exact Hrows].
      by intros q data' r' written' [= _ <- <- _].
  - destruct (promises s !! p) as [[o'|]|] eqn:Hp; try done. intros [= <-]. split.
    + apply cached_promises; [|done]. intros q o1 Hq.
      rewrite list_lookup_insert_ne; [done|]. congruence.
    + exact Hrows.
  - destruct (callers s !! i) as [c|] eqn:Hc; [|done]. unfold resume.
    assert (forall s0, cached_from_a_result row0 s0 -> cached_from_a_result row0 (release s0))
      as Hrelease by (intros s0; by apply cached_same).
    assert (cached_from_a_result row0 (start_body s)) as Hstart.
    { destruct Hentry as [Hrow|(j & cj & q & data & Hj & Hown & Hq & Htext & He)];
        [by left|].
      right. exists j, cj, q, data. repeat split; try done.
      cbn. rewrite lookup_app_l; [done|]. by eapply lookup_lt_Some. }
    destruct (pc c) as [|now [[cached|]|]|p|p|p data r [|]|source o] eqn:Hpc; try done.
    + intros [= <-]. split.
      * apply (cached_move row0 i c); [done| |done]. by rewrite Hpc.
      * by apply (cinv_row_move i c).
    + destruct (lock s) as [p|]; intros [= <-]; split.
      * apply (cached_move row0 i c); [done| |done]. by rewrite Hpc.
      * by apply (cinv_row_move i c).
      * apply (cached_move row0 i c); [done| |done]. by rewrite Hpc.
      * apply (cinv_row_move i c _ (start_body s)); [done|done|exact Hrows].
    + destruct (promises s !! p) as [[o|]|]; [|done..]. intros [= <-]. split.
      * apply (cached_move row0 i c); [done| |done]. by rewrite Hpc.
      * by apply (cinv_row_move i c).
    + destruct (promises s !! p) as [[[data|e]|]|]; [| |done..].
      * destruct (JSON_stringify data); intros [= <-]; split;
          try (apply (cached_move row0 i c); [done| |by auto]; by rewrite Hpc).
        -- apply (cinv_row_move i c); [done| |done].
           by intros q data' r' written' [= _ <- <- _].
        -- apply (cinv_row_move i c); [done| |done].
           by intros q data' r' written' [= _ <- <- _].
        -- apply (cinv_row_move i c _ (release s)); [done|done|exact Hrows].
      * intros [= <-]. split.
        -- apply (cached_move row0 i c); [done| |by auto]. by rewrite Hpc.
        -- apply (cinv_row_move i c _ (release s)); [done|done|exact Hrows].
    + intros [= <-]. split.
      * apply (cached_move row0 i c); [done| |by auto]. by rewrite Hpc.
      * apply (cinv_row_move i c _ (release s)); [done|done|exact Hrows].
Qed.

Lemma cache_invariant_play row0 schedule s s' :
  play schedule s = Some s' -> Invariant s -> CacheInvariant row0 s ->
  Invariant s' /\ CacheInvariant row0 s'.
Proof.
  revert s. induction schedule as [|a rest IH]; intros s; cbn.
  - by intros [= <-].
  - destruct (act a s) as [s1|] eqn:Ha; [|done].
    intros Hrest Hinv Hcinv. apply (IH s1 Hrest).
    + by apply (invariant_act a s).
    + by apply (cache_invariant_act row0 a s).
Qed.

(** X18.  Whatever the schedule, the cache row of the key is the row it had at
    the start or a row written for a body that returned a result
    [JSON.stringify] accepts, holding the text of that result and the
    expiry of the caller that started the body: no failure of a body and no
    result that was never produced is ever cached. *)
Theorem only_results_are_cached schedule time row expiries s :
  play schedule (init time row expiries) = Some s ->
  cached_from_a_result row s.
Proof.
  intros Hplay.
  destruct (cache_invariant_play row schedule (init time row expiries) s Hplay) as [_ []].
  - apply init_invariant.
  - split; [by left|]. intros i c p data r written. cbn. rewrite list_lookup_fmap.
    destruct (expiries !! i); cbn; [|done]. by intros [= <-].
  - done.
Qed.

End InterleavedMore.

(** ** JSON: what is written is read back *)

Section JsonRoundTrip.

Local Abbreviation chars := list_ascii_of_string.

Lemma chars_app a b : chars (a +:+ b) = (chars a ++ chars b)%list.
Proof. induction a as [|c a IH]; [reflexivity|]. exact (f_equal (cons c) IH). Qed.

(** *** Strings *)

(** One character of a string, as it is escaped, is read back as it was:
    by cases on the character. *)
Lemma string_body_step c rest fuel tail acc :
  parse_string_body (S fuel) (chars (json_escape (String c rest)) ++ tail) acc =
  parse_string_body fuel (chars (json_escape rest) ++ tail) (c :: acc).
Proof.
  destruct c as [[|] [|] [|] [|] [|] [|] [|] [|]]; reflexivity.
Qed.


Lemma string_body s fuel tail acc :
  (String.length s < fuel)%nat ->
  parse_string_body fuel (chars (json_escape s) ++ dquote :: tail) acc =
  Some (string_of_list_ascii (rev acc ++ chars s), tail).
Proof.
  revert fuel acc. induction s as [|c s IH]; intros [|fuel] acc Hfuel; cbn in Hfuel; try lia.
  - cbn. by rewrite app_nil_r.
  - rewrite string_body_step, IH by lia. cbn [rev chars].
    by rewrite <- app_assoc.
Qed.

Lemma chars_length s : length (chars s) = String.length s.
Proof. induction s as [|c s IH]; [done|]. exact (f_equal S IH). Qed.

Lemma string_append_length a b :
  String.length (a +:+ b) = (String.length a + String.length b)%nat.
Proof. induction a as [|c a IH]; [done|]. exact (f_equal S IH). Qed.

Lemma json_escape_length s : (String.length s <= String.length (json_escape s))%nat.
Proof.
  induction s as [|c s IH]; [done|].
  assert (exists c' pre, json_escape (String c s) = String c' (pre +:+ json_escape s))
    as (c' & pre & ->).
  { destruct c as [[|] [|] [|] [|] [|] [|] [|] [|]]; cbn;
      first [ by eexists _, ""
            | by eexists _, (String _ "")
            | by eexists _, (String _ (String _ (String _ (String _ (String _ ""))))) ]. }
  cbn [String.length]. rewrite string_append_length. lia.
Qed.

(** A string literal is read back as the string. *)
Lemma parse_quoted s tail :
  parse_string_body (S (length (chars (json_escape s) ++ dquote :: tail)))
    (chars (json_escape s) ++ dquote :: tail) [] = Some (s, tail).
Proof.
  rewrite string_body.
  - cbn. by rewrite string_of_list_ascii_of_string.
  - rewrite length_app, chars_length. pose proof (json_escape_length s). lia.
Qed.


(** *** Numbers *)

Lemma delimited_not_digit c rest :
  delimited (c :: rest) ->
  digit_value c = None /\ starts_number_tail (c :: rest) = false.
Proof. by intros [->|[->| ->]]. Qed.

Lemma read_digits_uint d acc rest :
  delimited rest ->
  read_digits acc (chars (NilEmpty.string_of_uint d) ++ rest) = (digits_after d acc, rest).
Proof.
  intros Hrest. revert acc.
  induction d as [|d IH|d IH|d IH|d IH|d IH|d IH|d IH|d IH|d IH|d IH]; intros acc;
    [|cbn -[Z.mul Z.add];
      match goal with
      | |- context [digit_value ?c] =>
          let v := eval vm_compute in (digit_value c) in change (digit_value c) with v
      end; apply IH..].
  cbn. destruct rest as [|c rest]; [done|].
  cbn -[digit_value]. by destruct (delimited_not_digit c rest Hrest) as [-> _].
Qed.

Lemma digits_after_pos d acc :
  digits_after d (Zpos acc) = Zpos (Pos.of_uint_acc d acc).
Proof.
  revert acc.
  induction d as [|d IH|d IH|d IH|d IH|d IH|d IH|d IH|d IH|d IH|d IH]; intros acc;
    cbn [digits_after Pos.of_uint_acc]; [done|..];
    rewrite <- IH; f_equal; lia.
Qed.

Lemma unorm_D0 l l' : Decimal.unorm l = Decimal.D0 l' -> l' = Decimal.Nil.
Proof.
  induction l; cbn; try discriminate; [by intros [= <-]|done].
Qed.

(** The decimal digits of a positive number start with a digit that is
    not zero. *)
Lemma to_uint_first_digit p l : Pos.to_uint p <> Decimal.D0 l.
Proof.
  intros Hl.
  pose proof (DecimalPos.Unsigned.to_of (Pos.to_uint p)) as Hnorm.
  rewrite DecimalPos.Unsigned.of_to in Hnorm. cbn in Hnorm.
  rewrite Hl in Hnorm. cbn in Hnorm. symmetry in Hnorm.
  apply unorm_D0 in Hnorm as ->.
  by apply (DecimalPos.Unsigned.to_uint_nonzero p).
Qed.

Lemma starts_number_tail_delimited rest : delimited rest -> starts_number_tail rest = false.
Proof. destruct rest as [|c rest]; [done|]. by intros [_ ?]%delimited_not_digit. Qed.

(** The digits of a positive number, after an optional minus sign, are
    read back as the number. *)
Lemma parse_number_nonzero (neg : bool) c d rest :
  digit_value c = Some d -> d <> 0 ->
  parse_number ((if neg then ["-"%char] else []) ++ c :: rest) =
  (let '(n, rest') := read_digits d rest in
   if starts_number_tail rest' then None
   else Some (JNumber (if neg then - n else n), rest')).
Proof.
  intros Hc Hd.
  destruct c as [[|] [|] [|] [|] [|] [|] [|] [|]]; try discriminate Hc;
    injection Hc as <-; try done; by destruct neg.
Qed.

(** The digits of a positive number, after an optional minus sign, are
    read back as the number. *)
Lemma parse_number_digits p (neg : bool) rest :
  delimited rest ->
  parse_number ((if neg then ["-"%char] else []) ++
                chars (NilEmpty.string_of_uint (Pos.to_uint p)) ++ rest) =
  Some (JNumber (if neg then Zneg p else Zpos p), rest).
Proof.
  intros Hrest.
  pose proof (DecimalPos.Unsigned.of_to p) as Hof.
  pose proof (DecimalPos.Unsigned.to_uint_nonnil p) as Hnonnil.
  pose proof (to_uint_first_digit p) as Hfirst.
  assert (forall k, Zpos (Pos.of_uint_acc (Decimal.Nil) k) = Zpos k) as _ by done.
  destruct (Pos.to_uint p) as [|l|l|l|l|l|l|l|l|l|l]; [done|by destruct (Hfirst l)|..];
    cbn [Pos.of_uint] in Hof; injection Hof as <-;
    cbn [NilEmpty.string_of_uint chars app];
    match goal with
    | |- parse_number (_ ++ ?c :: _ ++ _) = _ =>
        let d := eval vm_compute in (Z.of_N (N_of_ascii c) - 48) in
        rewrite (parse_number_nonzero neg c d) by done
    end;
    rewrite (read_digits_uint l _ rest Hrest), (starts_number_tail_delimited rest Hrest);
    rewrite digits_after_pos; by destruct neg.
Qed.

Lemma Number_toString_chars n :
  chars (Number_toString n) =
  match n with
  | 0 => ["0"%char]
  | Zpos p => chars (NilEmpty.string_of_uint (Pos.to_uint p))
  | Zneg p => "-"%char :: chars (NilEmpty.string_of_uint (Pos.to_uint p))
  end.
Proof.
  destruct n as [|p|p]; [reflexivity|..]; unfold Number_toString; cbn;
    pose proof (DecimalPos.Unsigned.to_uint_nonnil p); by destruct (Pos.to_uint p).
Qed.

Lemma parse_number_text n rest :
  delimited rest ->
  parse_number (chars (Number_toString n) ++ rest) = Some (JNumber n, rest).
Proof.
  intros Hrest. rewrite Number_toString_chars. destruct n as [|p|p].
  - destruct rest as [|c rest]; [reflexivity|].
    by destruct Hrest as [->|[->| ->]].
  - apply (parse_number_digits p false rest Hrest).
  - apply (parse_number_digits p true rest Hrest).
Qed.


(** *** Values *)

Local Abbreviation plain_leaf := (fun (_ : string) v => serialize_leaf v).

Lemma parse_value_literal fuel v text rest :
  (v, text) ∈ [(JNull, "null"); (JBool true, "true"); (JBool false, "false")] ->
  parse_value (S fuel) (chars text ++ rest) = Some (v, rest).
Proof.
  rewrite !elem_of_cons, elem_of_nil.
  intros [[= -> ->]|[[= -> ->]|[[= -> ->]|[]]]]; reflexivity.
Qed.

Lemma parse_value_number fuel n rest :
  delimited rest ->
  parse_value (S fuel) (chars (Number_toString n) ++ rest) = Some (JNumber n, rest).
Proof.
  intros Hrest. rewrite <- (parse_number_text n rest Hrest).
  rewrite Number_toString_chars. destruct n as [|p|p]; [reflexivity|..].
  - pose proof (DecimalPos.Unsigned.to_uint_nonnil p).
    by destruct (Pos.to_uint p).
  - reflexivity.
Qed.

Lemma parse_value_string fuel s rest :
  parse_value (S fuel) (chars (QuoteJSONString s) ++ rest) = Some (JString s, rest).
Proof.
  unfold QuoteJSONString. cbn [chars app]. rewrite chars_app, <- app_assoc.
  cbn [chars app].
  change (parse_value (S fuel) (dquote :: ?r))
    with (match parse_string_body (S (length r)) r [] with
          | Some (str, rest') => Some (JString str, rest')
          | None => None
          end).
  by rewrite parse_quoted.
Qed.

Lemma reads_back_leaf v text :
  (forall fuel rest, delimited rest ->
     parse_value (S fuel) (chars text ++ rest) = Some (v, rest)) ->
  value_size v = 1%nat ->
  (exists c tl, chars text = c :: tl /\ is_ws c = false /\
                c <> "]"%char /\ c <> "}"%char) ->
  reads_back v text.
Proof.
  intros Hparse Hsize Hstart. split; [done|]. split.
  - destruct Hstart as (c & tl & Htext & _).
    rewrite Hsize, <- chars_length, Htext. cbn. lia.
  - intros [|fuel] rest Hfuel Hrest; [lia|]. by apply Hparse.
Qed.


(** *** Arrays *)

Lemma stringify_array leaf xs ts key :
  Forall2 (fun x t => forall key, SerializeJSONProperty leaf key x = Text t) xs ts ->
  SerializeJSONProperty leaf key (JArray xs) = Text ("[" +:+ join "," ts +:+ "]").
Proof.
  intros Hxs. cbn.
  match goal with
  | |- match ?a with _ => _ end = _ => assert (a = Some ts) as ->; [|reflexivity]
  end.
  generalize 0 as i.
  induction Hxs as [|x t xs ts Hx _ IH]; intros i; [reflexivity|].
  cbn. by rewrite Hx, IH.
Qed.

Lemma value_size_array_cons x xs :
  value_size (JArray (x :: xs)) = (value_size x + value_size (JArray xs) + 1)%nat.
Proof. cbn. lia. Qed.

Lemma value_size_pos v : (1 <= value_size v)%nat.
Proof. destruct v; cbn; lia. Qed.

Lemma parse_elements_S fuel s :
  parse_elements (S fuel) s =
  match parse_value fuel s with
  | Some (x, rest) =>
      match skip_ws rest with
      | c :: rest' =>
          if (N_of_ascii c =? 93)%N then Some ([x], rest')
          else if (N_of_ascii c =? 44)%N then
            match parse_elements fuel rest' with
            | Some (xs, rest'') => Some (x :: xs, rest'')
            | None => None
            end
          else None
      | [] => None
      end
  | None => None
  end.
Proof. reflexivity. Qed.

Lemma parse_elements_join xs ts fuel rest :
  Forall2 reads_back xs ts -> xs <> [] ->
  (value_size (JArray xs) <= S fuel)%nat ->
  parse_elements fuel (chars (join "," ts) ++ "]"%char :: rest) = Some (xs, rest).
Proof.
  intros Hxs. revert fuel.
  induction Hxs as [|x t xs ts Hx Hrest IH]; intros fuel Hne Hfuel; [done|].
  rewrite value_size_array_cons in Hfuel.
  pose proof (value_size_pos x). pose proof (value_size_pos (JArray xs)).
  destruct fuel as [|fuel]; [lia|].
  destruct Hx as (_ & _ & Hparse).
  rewrite parse_elements_S.
  destruct Hrest as [|x' t' xs' ts' Hx' Hrest'].
  - cbn [join]. rewrite Hparse; [|cbn in *; lia|by right; left]. reflexivity.
  - change (join "," (t :: t' :: ts')) with (t +:+ "," +:+ join "," (t' :: ts')).
    rewrite !chars_app, <- !app_assoc. cbn [chars app].
    rewrite Hparse; [|lia|by left]. cbn [skip_ws].
    change (is_ws ",") with false. cbv beta iota.
    change (N_of_ascii "," =? 93)%N with false.
    change (N_of_ascii "," =? 44)%N with true. cbv beta iota.
    rewrite IH; [reflexivity|done|lia].
Qed.

Lemma join_length_array xs ts :
  Forall2 reads_back xs ts ->
  (value_size (JArray xs) <= 2 * String.length (join "," ts) + 2)%nat.
Proof.
  induction 1 as [|x t xs ts Hx Hrest IH]; [cbn; lia|].
  rewrite value_size_array_cons. destruct Hx as (_ & Hlen & _).
  destruct Hrest as [|x' t' xs' ts' Hx' Hrest'].
  - cbn [join]. cbn. cbn in Hlen. lia.
  - change (join "," (t :: t' :: ts')) with (t +:+ "," +:+ join "," (t' :: ts')).
    rewrite !string_append_length. cbn [String.length]. lia.
Qed.

Lemma reads_back_array xs ts :
  Forall2 reads_back xs ts ->
  reads_back (JArray xs) ("[" +:+ join "," ts +:+ "]").
Proof.
  intros Hxs. split; [|split].
  - eexists _, _. split; [reflexivity|]. by repeat split.
  - pose proof (join_length_array xs ts Hxs).
    change ("[" +:+ join "," ts +:+ "]") with (String "[" (join "," ts +:+ "]")).
    cbn [String.length]. rewrite string_append_length. cbn [String.length]. lia.
  - intros [|fuel] rest Hfuel Hrest; [pose proof (value_size_pos (JArray xs)); lia|].
    change ("[" +:+ join "," ts +:+ "]") with (String "[" (join "," ts +:+ "]")).
    cbn [chars app]. rewrite chars_app, <- app_assoc. cbn [chars app].
    destruct Hxs as [|x t xs ts Hx Hxs]; [reflexivity|].
    assert (parse_elements fuel (chars (join "," (t :: ts)) ++ "]"%char :: rest) =
            Some (x :: xs, rest)) as Helems
      by (apply parse_elements_join; [by constructor|done|done]).
    destruct Hx as ((c & tl & Ht & Hws & Hclose & _) & _).
    assert (exists tl', (chars (join "," (t :: ts)) ++ "]"%char :: rest)%list = c :: tl')
      as [tl' Hstart].
    { destruct ts as [|t' ts]; cbn [join]; rewrite ?chars_app, ?Ht; cbn; eauto. }
    rewrite Hstart in *.
    change (parse_value (S fuel) ("["%char :: c :: tl'))
      with (match skip_ws (c :: tl') with
            | c' :: rest' =>
                if (N_of_ascii c' =? 93)%N then Some (JArray [], rest')
                else match parse_elements fuel (c :: tl') with
                     | Some (xs, rest'') => Some (JArray xs, rest'')
                     | None => None
                     end
            | [] => None
            end).
    cbn [skip_ws]. rewrite Hws, Helems.
    destruct (N.eqb_spec (N_of_ascii c) 93) as [Heq|]; [|reflexivity].
    destruct Hclose. rewrite <- (ascii_N_embedding c), Heq. reflexivity.
Qed.


(** *** Objects *)

Local Abbreviation member_text :=
  (fun (kx : string * JsValue) (t : string) => QuoteJSONString kx.1 +:+ ":" +:+ t).

Lemma stringify_object leaf props ts key :
  Forall2 (fun kx t => forall key, SerializeJSONProperty leaf key kx.2 = Text t) props ts ->
  SerializeJSONProperty leaf key (JObject props) =
  Text ("{" +:+ join "," (zip_with member_text props ts) +:+ "}").
Proof.
  intros Hprops. cbn.
  match goal with
  | |- match ?a with _ => _ end = _ =>
      assert (a = Some (zip_with member_text props ts)) as ->; [|reflexivity]
  end.
  induction Hprops as [|[k x] t props ts Hx _ IH]; [reflexivity|].
  cbn in Hx. cbn. by rewrite Hx, IH.
Qed.

Lemma value_size_object_cons k x props :
  value_size (JObject ((k, x) :: props)) =
  (value_size x + value_size (JObject props) + 1)%nat.
Proof. cbn. lia. Qed.

Lemma parse_members_S fuel s acc :
  parse_members (S fuel) s acc =
  match expect dquote s with
  | Some rest =>
      match parse_string_body (S (length rest)) rest [] with
      | Some (k, rest1) =>
          match expect ":"%char rest1 with
          | Some rest2 =>
              match parse_value fuel rest2 with
              | Some (x, rest3) =>
                  let acc' := obj_set k x acc in
                  match skip_ws rest3 with
                  | c :: rest4 =>
                      if (N_of_ascii c =? 125)%N then Some (acc', rest4)
                      else if (N_of_ascii c =? 44)%N then parse_members fuel rest4 acc'
                      else None
                  | [] => None
                  end
              | None => None
              end
          | None => None
          end
      | None => None
      end
  | None => None
  end.
Proof. reflexivity. Qed.

Lemma member_text_chars k x t tail :
  (chars (member_text (k, x) t) ++ tail)%list =
  dquote :: (chars (json_escape k) ++ dquote :: ":"%char :: chars t ++ tail)%list.
Proof.
  cbn [fst]. unfold QuoteJSONString. rewrite !chars_app, <- !app_assoc.
  change (String dquote (json_escape k))
    with (String dquote EmptyString +:+ json_escape k).
  rewrite chars_app, <- app_assoc. reflexivity.
Qed.

Lemma parse_members_join props ts fuel rest acc :
  Forall2 (fun kx t => reads_back kx.2 t) props ts -> props <> [] ->
  (value_size (JObject props) <= S fuel)%nat ->
  parse_members fuel (chars (join "," (zip_with member_text props ts)) ++ "}"%char :: rest)
    acc =
  Some (fold_left (fun acc kx => obj_set kx.1 kx.2 acc) props acc, rest).
Proof.
  intros Hprops. revert fuel acc.
  induction Hprops as [|[k x] t props ts Hx Hrest IH]; intros fuel acc Hne Hfuel; [done|].
  rewrite value_size_object_cons in Hfuel.
  pose proof (value_size_pos x). pose proof (value_size_pos (JObject props)).
  destruct fuel as [|fuel]; [lia|].
  destruct Hx as (_ & _ & Hparse). cbn [snd] in Hparse.
  rewrite parse_members_S.
  destruct Hrest as [|[k' x'] t' props' ts' Hx' Hrest'].
  - cbn [zip_with join]. rewrite member_text_chars.
    change (expect dquote (dquote :: ?r)) with (Some r). cbv beta iota.
    rewrite parse_quoted.
    change (expect ":"%char (":"%char :: ?r)) with (Some r). cbv beta iota.
    rewrite Hparse; [|cbn in *; lia|by right; right]. reflexivity.
  - change (zip_with member_text ((k, x) :: (k', x') :: props') (t :: t' :: ts'))
      with (member_text (k, x) t :: zip_with member_text ((k', x') :: props') (t' :: ts')).
    change (join "," (?m :: zip_with member_text ((k', x') :: props') (t' :: ts')))
      with (m +:+ "," +:+ join "," (zip_with member_text ((k', x') :: props') (t' :: ts'))).
    rewrite chars_app, <- app_assoc, member_text_chars.
    change (expect dquote (dquote :: ?r)) with (Some r). cbv beta iota.
    rewrite parse_quoted.
    change (expect ":"%char (":"%char :: ?r)) with (Some r). cbv beta iota.
    rewrite chars_app, <- app_assoc. cbn [chars app].
    rewrite Hparse; [|lia|by left]. cbn [skip_ws].
    change (is_ws ",") with false. cbv beta iota zeta.
    change (N_of_ascii "," =? 125)%N with false.
    change (N_of_ascii "," =? 44)%N with true. cbv beta iota.
    rewrite IH; [reflexivity|done|lia].
Qed.

Lemma join_length_object props ts :
  Forall2 (fun kx t => reads_back kx.2 t) props ts ->
  (value_size (JObject props) <=
   2 * String.length (join "," (zip_with member_text props ts)) + 2)%nat.
Proof.
  induction 1 as [|[k x] t props ts Hx Hrest IH]; [cbn; lia|].
  rewrite value_size_object_cons. destruct Hx as (_ & Hlen & _). cbn [snd] in Hlen.
  assert (String.length t <= String.length (member_text (k, x) t))%nat as Hmember.
  { rewrite !string_append_length. lia. }
  destruct Hrest as [|[k' x'] t' props' ts' Hx' Hrest'].
  - cbn [zip_with join]. cbn in *. lia.
  - change (zip_with member_text ((k, x) :: (k', x') :: props') (t :: t' :: ts'))
      with (member_text (k, x) t :: zip_with member_text ((k', x') :: props') (t' :: ts')).
    change (join "," (?m :: zip_with member_text ((k', x') :: props') (t' :: ts')))
      with (m +:+ "," +:+ join "," (zip_with member_text ((k', x') :: props') (t' :: ts'))).
    set (m := member_text (k, x) t) in *.
    set (others := join "," (zip_with member_text ((k', x') :: props') (t' :: ts'))) in *.
    rewrite (string_append_length m), (string_append_length "," others).
    cbn [String.length]. lia.
Qed.

Lemma reads_back_object props ts :
  Forall2 (fun kx t => reads_back kx.2 t) props ts -> in_own_order props ->
  reads_back (JObject props) ("{" +:+ join "," (zip_with member_text props ts) +:+ "}").
Proof.
  intros Hprops Horder. split; [|split].
  - eexists _, _. split; [reflexivity|]. by repeat split.
  - pose proof (join_length_object props ts Hprops).
    set (members := join "," (zip_with member_text props ts)) in *.
    change ("{" +:+ members +:+ "}") with (String "{" (members +:+ "}")).
    cbn [String.length]. rewrite string_append_length. cbn [String.length]. lia.
  - intros [|fuel] rest Hfuel Hrest; [pose proof (value_size_pos (JObject props)); lia|].
    pose proof (parse_members_join props ts fuel rest [] Hprops) as Hmembers.
    set (members := join "," (zip_with member_text props ts)) in *.
    change ("{" +:+ members +:+ "}") with (String "{" (members +:+ "}")).
    cbn [chars app]. rewrite chars_app, <- app_assoc. cbn [chars app].
    destruct Hprops as [|[k x] t props ts Hx Hprops]; [reflexivity|].
    rewrite Horder in Hmembers. specialize (Hmembers ltac:(done) Hfuel).
    assert (exists tl', (chars members ++ "}"%char :: rest)%list = dquote :: tl')
      as [tl' Hstart].
    { subst members. destruct Hprops as [|[k' x'] t' props' ts' ? ?].
      - cbn [zip_with join]. rewrite member_text_chars. eauto.
      - change (zip_with member_text ((k, x) :: (k', x') :: props') (t :: t' :: ts'))
          with (member_text (k, x) t ::
                zip_with member_text ((k', x') :: props') (t' :: ts')).
        change (join "," (?m :: zip_with member_text ((k', x') :: props') (t' :: ts')))
          with (m +:+ "," +:+
                join "," (zip_with member_text ((k', x') :: props') (t' :: ts'))).
        rewrite chars_app, <- app_assoc, member_text_chars. eauto. }
    rewrite Hstart in *.
    change (parse_value (S fuel) ("{"%char :: dquote :: tl'))
      with (match parse_members fuel (dquote :: tl') [] with
            | Some (ps, rest'') => Some (JObject ps, rest'')
            | None => None
            end).
    by rewrite Hmembers.
Qed.


(** *** Every value, leaf by leaf *)

Lemma in_own_order_relabel g props :
  in_own_order props ->
  in_own_order (map (fun kx : string * JsValue => let '(k, x) := kx in (k, relabel g x))
                  props).
Proof.
  unfold in_own_order. intros Horder. rewrite <- Horder at 2.
  change (@nil (string * JsValue))
    with (map (fun kx : string * JsValue => let '(k, x) := kx in (k, relabel g x)) [])
    at 1.
  generalize (@nil (string * JsValue)) as acc. clear Horder.
  induction props as [|[k x] props IH]; intros acc; [reflexivity|].
  cbn [map fold_left fst snd]. rewrite obj_set_relabel. apply IH.
Qed.

Section LeafByLeaf.
Variable leaf : string -> JsValue -> Stringified.
Variable g : JsValue -> JsValue.
Variable carried : JsValue -> Prop.
Hypothesis carried_leaf : forall v,
  is_container v = false -> carried v ->
  exists text, (forall key, leaf key v = Text text) /\ reads_back (g v) text.
Hypothesis carried_array : forall xs, carried (JArray xs) -> Forall carried xs.
Hypothesis carried_object : forall props,
  carried (JObject props) ->
  Forall (fun kx => carried kx.2) props /\ in_own_order props.

Lemma stringify_reads_back v :
  carried v ->
  exists text,
    (forall key, SerializeJSONProperty leaf key v = Text text) /\
    reads_back (relabel g v) text.
Proof.
  induction v as [| | | | | | |xs IH|props IH] using JsValue_nested_ind; intros Hv;
    try (by apply carried_leaf).
  - apply carried_array in Hv.
    assert (exists ts,
      Forall2 (fun x t => forall key, SerializeJSONProperty leaf key x = Text t) xs ts /\
      Forall2 reads_back (map (relabel g) xs) ts) as (ts & Htext & Hback).
    { induction IH as [|x xs Hx _ IHxs]; [by exists []|].
      apply Forall_cons in Hv as [Hcx Hcxs].
      destruct (Hx Hcx) as (t & Ht & Hbt), (IHxs Hcxs) as (ts & Hts & Hbts).
      exists (t :: ts). split; by constructor. }
    exists ("[" +:+ join "," ts +:+ "]"). split.
    + intros key. by apply stringify_array.
    + by apply reads_back_array.
  - apply carried_object in Hv as [Hv Horder].
    assert (exists ts,
      Forall2 (fun kx t => forall key, SerializeJSONProperty leaf key kx.2 = Text t)
        props ts /\
      Forall2 (fun kx t => reads_back kx.2 t)
        (map (fun kx : string * JsValue => let '(k, x) := kx in (k, relabel g x)) props)
        ts /\
      zip_with member_text
        (map (fun kx : string * JsValue => let '(k, x) := kx in (k, relabel g x)) props)
        ts = zip_with member_text props ts) as (ts & Htext & Hback & Hzip).
    { clear Horder. induction IH as [|[k x] props Hx _ IHprops]; [by exists []|].
      apply Forall_cons in Hv as [Hcx Hcxs]. cbn [snd] in Hx, Hcx.
      destruct (Hx Hcx) as (t & Ht & Hbt), (IHprops Hcxs) as (ts & Hts & Hbts & Hzip).
      exists (t :: ts). repeat split; [by constructor|by constructor|].
      cbn [map zip_with fst]. by rewrite Hzip. }
    exists ("{" +:+ join "," (zip_with member_text props ts) +:+ "}"). split.
    + intros key. by apply stringify_object.
    + rewrite <- Hzip. cbn [relabel].
      apply reads_back_object; [done|]. by apply in_own_order_relabel.
Qed.

End LeafByLeaf.


(** *** The leaves *)

Lemma reads_back_literal v text :
  (v, text) ∈ [(JNull, "null"); (JBool true, "true"); (JBool false, "false")] ->
  reads_back v text.
Proof.
  intros Hv. apply reads_back_leaf.
  - intros fuel rest _. by apply parse_value_literal.
  - revert Hv. rewrite !elem_of_cons, elem_of_nil.
    by intros [[= -> ->]|[[= -> ->]|[[= -> ->]|[]]]].
  - revert Hv. rewrite !elem_of_cons, elem_of_nil.
    intros [[= -> ->]|[[= -> ->]|[[= -> ->]|[]]]]; eexists _, _; by repeat split.
Qed.

Lemma reads_back_number n : reads_back (JNumber n) (Number_toString n).
Proof.
  apply reads_back_leaf; [|done|].
  - intros fuel rest Hrest. by apply parse_value_number.
  - rewrite Number_toString_chars. destruct n as [|p|p]; [| |by eexists _, _].
    + by eexists _, _.
    + pose proof (DecimalPos.Unsigned.to_uint_nonnil p).
      destruct (Pos.to_uint p); [done|..]; eexists _, _; by repeat split.
Qed.

Lemma reads_back_string s : reads_back (JString s) (QuoteJSONString s).
Proof.
  apply reads_back_leaf; [|done|].
  - intros fuel rest _. apply parse_value_string.
  - by eexists _, _.
Qed.

Lemma relabel_same v : relabel (fun x => x) v = v.
Proof.
  induction v as [| | | | | | |xs IH|props IH] using JsValue_nested_ind; try reflexivity.
  - cbn. f_equal. induction IH as [|x xs Hx _ IHxs]; [reflexivity|].
    cbn. by rewrite Hx, IHxs.
  - cbn. f_equal. induction IH as [|[k x] props Hx _ IHprops]; [reflexivity|].
    cbn in *. by rewrite Hx, IHprops.
Qed.

Lemma JSON_parse_reads_back v text : reads_back v text -> JSON_parse text = Some v.
Proof.
  intros (_ & Hlen & Hparse). unfold JSON_parse.
  specialize (Hparse (2 * length (chars text) + 2)%nat [] ).
  rewrite app_nil_r in Hparse. rewrite Hparse; [done| |done].
  rewrite chars_length. lia.
Qed.

Lemma json_value_stringify v :
  json_value v ->
  exists text, (forall key, SerializeJSONProperty plain_leaf key v = Text text) /\
               reads_back v text.
Proof.
  intros Hv.
  cut (exists text, (forall key, SerializeJSONProperty plain_leaf key v = Text text) /\
                    reads_back (relabel (fun x => x) v) text).
  { by rewrite relabel_same. }
  apply (stringify_reads_back plain_leaf (fun x => x) json_value); [| | |done].
  - clear v Hv. intros v Hleaf Hv. destruct Hv as [|[|]|n _|s| |]; try done.
    + exists "null". split; [done|]. apply reads_back_literal. set_solver.
    + exists "true". split; [done|]. apply reads_back_literal. set_solver.
    + exists "false". split; [done|]. apply reads_back_literal. set_solver.
    + exists (Number_toString n). split; [done|]. apply reads_back_number.
    + exists (QuoteJSONString s). split; [done|]. apply reads_back_string.
  - intros xs Hxs. by inversion Hxs.
  - intros props Hprops. by inversion Hprops.
Qed.

(** *** What the reviver undoes *)

Lemma substring_prefix t r : substring 0 (String.length t) (t +:+ r) = t.
Proof.
  induction t as [|c t IH]; [by destruct r|].
  change (String c t +:+ r) with (String c (t +:+ r)). cbn. by rewrite IH.
Qed.

Lemma slice_tagged t : slice_7_minus_1 ("BigInt(" +:+ t +:+ ")") = t.
Proof.
  unfold slice_7_minus_1.
  change ("BigInt(" +:+ t +:+ ")")
    with (String "B" (String "i" (String "g" (String "I" (String "n" (String "t"
            (String "(" (t +:+ ")")))))))).
  cbn [String.length]. rewrite string_append_length. cbn [String.length].
  replace (S (S (S (S (S (S (S (String.length t + 1))))))) - 1 - 7)%nat
    with (String.length t) by lia.
  cbn [substring]. apply substring_prefix.
Qed.

Lemma digits_after_to_uint p : digits_after (Pos.to_uint p) 0 = Zpos p.
Proof.
  pose proof (DecimalPos.Unsigned.of_to p) as Hof.
  pose proof (DecimalPos.Unsigned.to_uint_nonnil p) as Hnonnil.
  pose proof (to_uint_first_digit p) as Hfirst.
  destruct (Pos.to_uint p) as [|l|l|l|l|l|l|l|l|l|l]; [done|by destruct (Hfirst l)|..];
    cbn [Pos.of_uint] in Hof; injection Hof as <-;
    cbn [digits_after]; apply digits_after_pos.
Qed.

Lemma BigInt_of_digits p (neg : bool) :
  BigInt_of_string
    (string_of_list_ascii ((if neg then ["-"%char] else []) ++
                           chars (NilEmpty.string_of_uint (Pos.to_uint p)))) =
  Some (if neg then Zneg p else Zpos p).
Proof.
  unfold BigInt_of_string. rewrite list_ascii_of_string_of_list_ascii.
  pose proof (digits_after_to_uint p) as Hvalue.
  pose proof (read_digits_uint (Pos.to_uint p) 0 [] I) as Hread.
  rewrite app_nil_r, Hvalue in Hread.
  pose proof (DecimalPos.Unsigned.to_uint_nonnil p) as Hnonnil.
  pose proof (to_uint_first_digit p) as Hfirst.
  destruct (Pos.to_uint p) as [|l|l|l|l|l|l|l|l|l|l]; [done|by destruct (Hfirst l)|..];
    destruct neg; cbn [NilEmpty.string_of_uint chars app] in *.
  all: repeat match goal with
       | |- context [(N_of_ascii ?c =? ?k)%N] =>
           let v := eval vm_compute in (N_of_ascii c =? k)%N in
           change (N_of_ascii c =? k)%N with v
       end; cbv beta iota; by rewrite Hread.
Qed.

Lemma prefix_append p s : String.prefix p (p +:+ s) = true.
Proof.
  induction p as [|c p IH]; [by destruct s|].
  change (String c p +:+ s) with (String c (p +:+ s)). cbn [String.prefix].
  by destruct (ascii_dec c c).
Qed.

Lemma BigInt_of_Number_toString n : BigInt_of_string (Number_toString n) = Some n.
Proof.
  rewrite <- (string_of_list_ascii_of_string (Number_toString n)).
  rewrite Number_toString_chars. destruct n as [|p|p]; [reflexivity|..].
  - apply (BigInt_of_digits p false).
  - apply (BigInt_of_digits p true).
Qed.

Local Abbreviation replacer_leaf := (fun (k : string) v => serialize_leaf (replacer k v)).

Lemma plain_argument_stringify v :
  plain_argument v ->
  exists text, (forall key, SerializeJSONProperty replacer_leaf key v = Text text) /\
               reads_back (relabel tag_bigint v) text.
Proof.
  apply (stringify_reads_back replacer_leaf tag_bigint plain_argument).
  - clear v. intros v Hleaf Hv. destruct Hv as [|[|]|n _|n|s _| |]; try done.
    + exists "null". split; [done|]. apply reads_back_literal. set_solver.
    + exists "true". split; [done|]. apply reads_back_literal. set_solver.
    + exists "false". split; [done|]. apply reads_back_literal. set_solver.
    + exists (Number_toString n). split; [done|]. apply reads_back_number.
    + eexists. split; [done|]. apply reads_back_string.
    + exists (QuoteJSONString s). split; [done|]. apply reads_back_string.
  - intros xs Hxs. by inversion Hxs.
  - intros props Hprops. by inversion Hprops.
Qed.

Lemma revive_tagged v key :
  plain_argument v -> revive key (relabel tag_bigint v) = Some v.
Proof.
  revert key.
  induction v as [| | | | n | s | |xs IH|props IH] using JsValue_nested_ind;
    intros key Hv; try (by inversion Hv).
  - cbn [relabel tag_bigint revive reviver].
    by rewrite prefix_append, slice_tagged, BigInt_of_Number_toString.
  - inversion Hv as [| | | |? Hs| |]; subst. cbn [relabel tag_bigint revive reviver].
    by rewrite Hs.
  - inversion Hv as [| | | | |? Hxs|]; subst. cbn [relabel revive].
    match goal with
    | |- option_map _ ?a = _ => assert (a = Some xs) as ->; [|reflexivity]
    end.
    generalize 0 as i. clear Hv.
    induction IH as [|x xs Hx _ IHxs]; intros i; [reflexivity|].
    apply Forall_cons in Hxs as [Hpx Hpxs]. cbn [map].
    by rewrite (Hx _ Hpx), (IHxs Hpxs).
  - inversion Hv as [| | | | | |? Hprops _]; subst. cbn [relabel revive].
    match goal with
    | |- option_map _ ?a = _ => assert (a = Some props) as ->; [|reflexivity]
    end.
    clear Hv. induction IH as [|[k x] props Hx _ IHprops]; [reflexivity|].
    apply Forall_cons in Hprops as [Hpx Hpxs]. cbn [map]. cbn [snd] in Hx, Hpx.
    by rewrite (Hx _ Hpx), (IHprops Hpxs).
Qed.

(** The text [serialize()] writes for a tuple of plain arguments is also
    the text of the tuple with its bigints spelled as strings, and
    [JSON.parse] with the reviver reads the tuple back from it. *)
Lemma arguments_text vs :
  Forall plain_argument vs ->
  exists text,
    JSON_stringify_replacer (JArray vs) = Text text /\
    JSON_stringify_replacer (JArray (map (relabel tag_bigint) vs)) = Text text /\
    JSON_parse_reviver text = Some (JArray vs).
Proof.
  intros Hvs.
  destruct (plain_argument_stringify (JArray vs)) as (text & Htext & Hback);
    [by constructor|].
  exists text. split; [apply Htext|]. split.
  - unfold JSON_stringify_replacer.
    change (JArray (map (relabel tag_bigint) vs)) with (relabel tag_bigint (JArray vs)).
    rewrite SerializeJSONProperty_relabel;
      first [apply Htext | by intros [] | by intros k []].
  - unfold JSON_parse_reviver. rewrite (JSON_parse_reads_back _ _ Hback).
    apply revive_tagged. by constructor.
Qed.

End JsonRoundTrip.

(** ** A cached result is returned *)

Section CachedResult.
Context {E : Type}.
Implicit Types w : World E.
Implicit Types t : Task E.



End CachedResult.

(** ** What is written is read back *)

Section SerializeMore.
Context {E : Type}.
Implicit Types w : World E.
Implicit Types t : Task E.
Implicit Types registry : gmap string (TaskConstructor E).

(** X19.  Memoization holds for the values of JSON.  When [run()] finds
    nothing cached and nothing in flight and the body returns a value of
    JSON ([null], a boolean, an integer a double holds exactly, a string,
    an array or an object of such values, the members in the order they
    are enumerated), [run()] returns that value, and every [run()] of the
    task made later, before the entry expires, returns the same value and
    changes nothing but the clock: [JSON.parse(JSON.stringify(data))] is
    [data]. *)
Theorem run_again_returns_json_result t w (data : JsValue) wb :
  json_value data ->
  fst (getCache (task_key t) w) = Ok None ->
  locksMap w !! task_key t = None ->
  fn t (task_providers t) (values (args t)) (elapse 0 w) = (Ok data, wb) ->
  exists text w1,
    JSON_stringify data = Text text /\ decoded text = Ok data /\
    run t w = (Ok data, w1) /\
    forall w2,
      later w1 w2 ->
      not_expired (expiry_seconds (expiry t)) (toUnixSeconds (now w2)) = true ->
      run t w2 = (Ok data, elapse 0 w2).
Proof.
  intros Hdata Hmiss Hlock Hfn.
  destruct (json_value_stringify data Hdata) as (text & Htext & Hback).
  specialize (Htext ""). change (JSON_stringify data = Text text) in Htext.
  assert (decoded text = Ok data) as Hdecoded.
  { unfold decoded. by rewrite (JSON_parse_reads_back _ _ Hback). }
  destruct (run_uncached_returns t (task_key t) (elapse 0 w) data wb Hlock Hfn)
    as (w1 & Hrun & _ & _ & _ & _ & _ & Hcache).
  unfold answered in Hrun. rewrite Htext in Hrun, Hcache.
  exists text, w1. rewrite (run_miss _ _ Hmiss). do 3 (split; [done|]).
  intros w2 (Hdb & _) Hlive. rewrite <- Hdecoded.
  apply (run_hit t w2 {| kv_value := text; kv_expires_at := expiry_seconds (expiry t) |}).
  - rewrite Hdb, Hcache. apply lookup_insert_eq.
  - done.
  - by apply (JSON_stringify_nonempty data).
Qed.

(** X22.  A result without a JSON text does not come back.  When [run()]
    finds nothing cached and nothing in flight and the body returns
    [undefined] or a function, [run()] returns that result and caches the
    text [{}]; every [run()] of the task made later, before the entry
    expires, returns an empty object instead, which is another value and,
    unlike [undefined], a truthy one. *)
Theorem run_again_after_void_result t w (data : JsValue) wb :
  JSON_stringify data = Undefined ->
  fst (getCache (task_key t) w) = Ok None ->
  locksMap w !! task_key t = None ->
  fn t (task_providers t) (values (args t)) (elapse 0 w) = (Ok data, wb) ->
  exists w1,
    run t w = (Ok data, w1) /\
    key_value_cache (db w1) !! task_key t =
      Some {| kv_value := "{}"; kv_expires_at := expiry_seconds (expiry t) |} /\
    data <> JObject [] /\ truthy (JObject []) = true /\
    forall w2,
      later w1 w2 ->
      not_expired (expiry_seconds (expiry t)) (toUnixSeconds (now w2)) = true ->
      run t w2 = (Ok (JObject []), elapse 0 w2).
Proof.
  intros Hvoid Hmiss Hlock Hfn.
  destruct (run_uncached_returns t (task_key t) (elapse 0 w) data wb Hlock Hfn)
    as (w1 & Hrun & _ & _ & _ & _ & _ & Hcache).
  unfold answered in Hrun. rewrite Hvoid in Hrun, Hcache.
  assert (key_value_cache (db w1) !! task_key t =
          Some {| kv_value := "{}"; kv_expires_at := expiry_seconds (expiry t) |})
    as Hentry by (rewrite Hcache; apply lookup_insert_eq).
  exists w1. rewrite (run_miss _ _ Hmiss). do 2 (split; [done|]).
  split; [by intros ->|]. split; [reflexivity|].
  intros w2 (Hdb & _) Hlive.
  by apply (run_hit t w2 {| kv_value := "{}"; kv_expires_at := expiry_seconds (expiry t) |});
    [rewrite Hdb| |].
Qed.

(** X20.  [deserialize(serialize(t))]: when the arguments of a task are
    plain (values of JSON and bigints, at any depth, and no string that
    starts with [BigInt(]) and the class of the task is registered,
    [serialize()] returns a record from which [deserialize()] calls the
    registered constructor with exactly the arguments of the task. *)
Theorem deserialize_after_serialize registry t construct w :
  Forall plain_argument (values (args t)) ->
  getFromRegistry registry (constructor_name t) = Some construct ->
  exists record w1,
    serialize t w = (Ok record, w1) /\
    task_name record = constructor_name t /\
    forall w', deserialize registry record w' = construct (values (args t)) w'.
Proof.
  intros Hplain Hregistered.
  destruct (arguments_text _ Hplain) as (text & Htext & _ & Hback).
  eexists _, _. split; [reflexivity|]. split; [reflexivity|]. intros w'.
  unfold deserialize. cbn [task_name arguments]. by rewrite Hregistered, Htext, Hback.
Qed.

(** X21.  A string argument that spells [BigInt(], the decimal digits of
    an integer and [)] does not come back as it was: from the record
    [serialize()] writes for a task with such strings among its arguments,
    at any depth, [deserialize()] calls the registered constructor with
    bigints in their places. *)
Theorem deserialize_makes_bigints_of_tagged_strings registry t vs construct w :
  Forall plain_argument vs ->
  values (args t) = map (relabel tag_bigint) vs ->
  getFromRegistry registry (constructor_name t) = Some construct ->
  exists record w1,
    serialize t w = (Ok record, w1) /\
    forall w', deserialize registry record w' = construct vs w'.
Proof.
  intros Hplain Hargs Hregistered.
  destruct (arguments_text _ Hplain) as (text & _ & Htext & Hback).
  eexists _, _. split; [reflexivity|]. intros w'.
  unfold deserialize. cbn [task_name arguments].
  by rewrite Hregistered, Hargs, Htext, Hback.
Qed.

End SerializeMore.

(** ** Timestamps and prompts *)

(** X23.  Seconds survive the round trip through a date, and a date comes
    back as the start of its second: for seconds within 8.64e12 of the
    epoch, [toUnixSeconds(fromUnixSeconds(s))] is [s]; beyond that
    [fromUnixSeconds] gives the Invalid Date; and for a valid date of time
    value [ms], [fromUnixSeconds(toUnixSeconds(ms))] is a valid date not
    after [ms] and less than a second before it, also before 1970, with
    the same seconds. *)
Theorem unix_seconds_round_trip (s ms : Z) :
  (Z.abs s <= 8640000000000 ->
   option_map toUnixSeconds (fromUnixSeconds s) = Some s) /\
  (8640000000000 < Z.abs s -> fromUnixSeconds s = None) /\
  (Z.abs ms <= 8640000000000000 ->
   exists d, fromUnixSeconds (toUnixSeconds ms) = Some d /\
             d <= ms < d + 1000 /\ toUnixSeconds d = toUnixSeconds ms).
Proof.
  unfold fromUnixSeconds, toUnixSeconds. cbv zeta. repeat split.
  - intros Hs. destruct (Z.leb_spec (Z.abs (s * 1000)) 8640000000000000); [|lia].
    cbn. f_equal. apply Z.div_mul. lia.
  - intros Hs. destruct (Z.leb_spec (Z.abs (s * 1000)) 8640000000000000); [lia|done].
  - intros Hms. exists (ms / 1000 * 1000).
    pose proof (Z.div_mod ms 1000 ltac:(lia)) as Hdiv.
    pose proof (Z.mod_pos_bound ms 1000 ltac:(lia)) as Hmod.
    destruct (Z.leb_spec (Z.abs (ms / 1000 * 1000)) 8640000000000000); [|lia].
    split; [done|]. split; [lia|]. apply Z.div_mul. lia.
Qed.

(** X24.  The first request prompted under an id is the one on screen.
    After any sequence of [promptUser] calls on a callback that sets the
    state, the state holds under every id: the request it held before, if
    any (a request shown is never replaced or dropped); otherwise nothing
    if the id is a name objects inherit, such as [constructor]; otherwise
    the first request prompted with that id.  A later request with an id
    already shown is never stored, so its [result] is never called from
    the screen. *)
Theorem promptUser_first_request_wins
    (prompts : list UserPromptData) (prev : gmap string PendingRequest) (id : string) :
  fold_left (fun state promptData =>
               PromptUserWithPendingCard_promptUser set_state promptData state)
    prompts prev !! id =
  match prev !! id with
  | Some request => Some request
  | None =>
      if bool_decide (id ∈ Object_prototype) then None
      else head (filter (fun request => request_id request = id)
                   (map pendingRequest prompts))
  end.
Proof.
  revert prev. induction prompts as [|[n request] prompts IH]; intros prev.
  { cbn. destruct (prev !! id); [done|]. by destruct (bool_decide _). }
  cbn [fold_left map]. rewrite IH.
  unfold PromptUserWithPendingCard_promptUser, set_state, pending_update, shown.
  cbn [pendingRequest]. rewrite filter_cons.
  destruct (decide (request_id request = id)) as [<-|Hother].
  - destruct (prev !! request_id request) as [old|] eqn:Hold.
    + by rewrite ?Hold.
    + destruct (bool_decide (request_id request ∈ Object_prototype)) eqn:Hinherited.
      * by rewrite ?Hold, ?Hinherited.
      * by rewrite lookup_insert_eq.
  - destruct (prev !! request_id request) as [old|] eqn:Hold; [done|].
    destruct (bool_decide (request_id request ∈ Object_prototype)); [done|].
    by rewrite lookup_insert_ne.
Qed.

(** ** The fingerprint: nesting and dotted keys *)

Section FlattenMore.

Local Abbreviation keys := (map (fst : string * JsValue -> string)).

Lemma array_index_text k n : array_index k = Some n -> Number_toString n = k.
Proof.
  unfold array_index. destruct (NilZero.int_of_string k) as [i|]; [|done].
  cbv zeta. destruct (_ && _ && _) eqn:Hcond; [|done].
  intros [= <-]. apply andb_prop in Hcond as [_ Heq]. by apply String.eqb_eq.
Qed.

Lemma obj_replace_None k v props :
  k ∉ keys props -> obj_replace k v props = None.
Proof.
  induction props as [|[k' v'] props IH]; [done|]. cbn.
  rewrite not_elem_of_cons. intros [Hne Hnot].
  destruct (String.eqb_spec k' k); [done|]. by rewrite IH.
Qed.

Lemma obj_replace_keys k v props props' :
  obj_replace k v props = Some props' -> keys props' = keys props.
Proof.
  revert props'. induction props as [|[k' v'] props IH]; intros props'; [done|]. cbn.
  destruct (String.eqb_spec k' k) as [->|Hne]; [by intros [= <-]|].
  destruct (obj_replace k v props) as [r|]; [|done].
  intros [= <-]. cbn. by rewrite (IH r).
Qed.

Lemma obj_insert_index_keys n k v props x :
  x ∈ keys (obj_insert_index n k v props) <-> x = k \/ x ∈ keys props.
Proof.
  induction props as [|[k' v'] props IH]; cbn.
  - rewrite list_elem_of_singleton, elem_of_nil. tauto.
  - destruct (array_index k') as [n'|]; [destruct (n <? n')|]; cbn;
      rewrite ?elem_of_cons, ?IH; cbn; tauto.
Qed.

Lemma ordered_insert_index n k v props :
  array_index k = Some n -> k ∉ keys props ->
  ordered_keys (keys props) -> ordered_keys (keys (obj_insert_index n k v props)).
Proof.
  intros Hk. induction props as [|[k' v'] props IH]; intros Hnot Hord.
  { cbn. rewrite Hk. split; [apply not_elem_of_nil|]. split; [done|constructor]. }
  pose proof Hord as (Hk' & Hrest & Hhead). cbn [fst] in Hk', Hrest, Hhead.
  fold (keys props) in Hk', Hrest, Hhead.
  cbn [map fst] in Hnot. apply not_elem_of_cons in Hnot as [Hne Hnot].
  cbn [obj_insert_index].
  destruct (array_index k') as [n'|] eqn:Hindex.
  - destruct (Z.ltb_spec n n') as [Hlt|Hge].
    + change (ordered_keys (k :: keys ((k', v') :: props))).
      cbn [ordered_keys]. rewrite Hk. split; [set_solver|]. split; [exact Hord|].
      cbn [map fst]. constructor; [by rewrite Hindex|].
      eapply Forall_impl; [exact Hhead|]. intros k''. cbn.
      destruct (array_index k''); [lia|done].
    + assert (n' < n) as Hlt.
      { destruct (decide (n = n')) as [->|]; [|lia].
        apply array_index_text in Hk, Hindex. congruence. }
      change (ordered_keys (k' :: keys (obj_insert_index n k v props))).
      cbn [ordered_keys]. rewrite Hindex. split; [|split].
      * rewrite obj_insert_index_keys. intros [->|Hin]; done.
      * by apply IH.
      * apply Forall_forall. intros x [->|Hin]%obj_insert_index_keys.
        -- by rewrite Hk.
        -- by apply (proj1 (Forall_forall _ _) Hhead).
  - change (ordered_keys (k :: keys ((k', v') :: props))).
    cbn [ordered_keys]. rewrite Hk. split; [set_solver|]. split; [exact Hord|].
    cbn [map fst]. constructor; [by rewrite Hindex|].
    eapply Forall_impl; [exact Hhead|]. intros k'' Hnone. cbn. by rewrite Hnone.
Qed.

Lemma ordered_append k props :
  array_index k = None -> k ∉ props ->
  ordered_keys props -> ordered_keys (props ++ [k]).
Proof.
  intros Hk. induction props as [|k' props IH]; intros Hnot Hord.
  { cbn. rewrite Hk. split; [apply not_elem_of_nil|]. split; [done|constructor]. }
  cbn in Hord. destruct Hord as (Hk' & Hrest & Hhead).
  apply not_elem_of_cons in Hnot as [Hne Hnot].
  cbn. split; [|split].
  - rewrite elem_of_app, list_elem_of_singleton. intros [?|?]; done.
  - by apply IH.
  - destruct (array_index k'); apply Forall_app; (split; [done|]);
      constructor; [by rewrite Hk|constructor|done|constructor].
Qed.

Lemma ordered_obj_set k v props :
  ordered_keys (keys props) -> ordered_keys (keys (obj_set k v props)).
Proof.
  intros Hord. unfold obj_set.
  destruct (obj_replace k v props) as [props'|] eqn:Hreplace.
  { by rewrite (obj_replace_keys _ _ _ _ Hreplace). }
  assert (k ∉ keys props) as Hnot.
  { intros Hin. clear Hord. induction props as [|[k' v'] props IH]; [by inversion Hin|].
    cbn in Hreplace, Hin. destruct (String.eqb_spec k' k) as [->|Hne]; [done|].
    apply elem_of_cons in Hin as [->|Hin]; [done|].
    destruct (obj_replace k v props); [done|]. by apply IH. }
  destruct (array_index k) as [n|] eqn:Hk.
  - by apply ordered_insert_index.
  - rewrite map_app. by apply ordered_append.
Qed.

Lemma ordered_before acc k rest :
  ordered_keys (acc ++ k :: rest) ->
(k ∉ acc) /\
  forall n, array_index k = Some n ->
            Forall (fun a => exists n', array_index a = Some n' /\ n' < n) acc.
Proof.
  induction acc as [|a acc IH]; intros Hord.
  { split; [apply not_elem_of_nil|]. by constructor. }
  destruct Hord as (Ha & Hrest & Hhead). destruct (IH Hrest) as [Hnot Hless].
  fold (app acc (k :: rest)) in Ha, Hhead. split.
  - apply not_elem_of_cons. split; [|done]. intros ->. apply Ha.
    apply elem_of_app. right. apply list_elem_of_here.
  - intros n Hk. constructor; [|by apply Hless].
    destruct (array_index a) as [n'|].
    + exists n'. split; [done|].
      apply Forall_app in Hhead as [_ Hhead]. apply Forall_cons in Hhead as [Hhead _].
      by rewrite Hk in Hhead.
    + apply Forall_app in Hhead as [_ Hhead]. apply Forall_cons in Hhead as [Hhead _].
      congruence.
Qed.

Lemma obj_insert_index_last n k v props :
  Forall (fun a => exists n', array_index a = Some n' /\ n' < n) (keys props) ->
  obj_insert_index n k v props = (props ++ [(k, v)])%list.
Proof.
  induction props as [|[k' v'] props IH]; intros Hless; [done|].
  apply Forall_cons in Hless as [(n' & Hindex & Hlt) Hless]. cbn in Hindex.
  cbn [obj_insert_index]. rewrite Hindex.
  destruct (Z.ltb_spec n n'); [lia|]. by rewrite IH.
Qed.

Lemma obj_set_last k v props :
  k ∉ keys props ->
  (forall n, array_index k = Some n ->
             Forall (fun a => exists n', array_index a = Some n' /\ n' < n) (keys props)) ->
  obj_set k v props = (props ++ [(k, v)])%list.
Proof.
  intros Hnot Hless. unfold obj_set. rewrite obj_replace_None by done.
  destruct (array_index k) as [n|]; [|done]. by apply obj_insert_index_last, Hless.
Qed.

Lemma ordered_in_own_order props : ordered_keys (keys props) -> in_own_order props.
Proof.
  unfold in_own_order.
  cut (forall acc, ordered_keys (keys (acc ++ props)) ->
         fold_left (fun acc kx => obj_set kx.1 kx.2 acc) props acc = (acc ++ props)%list).
  { intros Hacc. apply (Hacc []). }
  induction props as [|[k v] props IH]; intros acc Hord.
  { by rewrite app_nil_r. }
  cbn [fold_left fst snd]. rewrite map_app in Hord. cbn [map fst] in Hord.
  destruct (ordered_before _ _ _ Hord) as [Hnot Hless].
  rewrite (obj_set_last k v acc Hnot Hless).
  rewrite IH, <- app_assoc; [done|].
  by rewrite <- app_assoc, map_app.
Qed.

(** What [flattened] returns is an object the engine can hold: its
    keys are in enumeration order, and none of its values is an object. *)
Lemma ordered_fold_obj_set {A : Type} (f : A -> string) (g : A -> JsValue) l acc :
  ordered_keys (keys acc) ->
  ordered_keys (keys (fold_left (fun acc x => obj_set (f x) (g x) acc) l acc)).
Proof.
  revert acc. induction l as [|x l IH]; intros acc Hacc; [done|].
  cbn [fold_left]. by apply IH, ordered_obj_set.
Qed.

Lemma ordered_flatten_property acc iv :
  ordered_keys (keys acc) -> ordered_keys (keys (flatten_property acc iv)).
Proof.
  intros Hacc. unfold flatten_property.
  destruct (String.eqb (typeof iv.2) "object").
  - by apply (ordered_fold_obj_set (fun xf => iv.1 +:+ "." +:+ fst xf) snd).
  - by apply ordered_obj_set.
Qed.

Lemma ordered_flattened ob : ordered_keys (keys (flattened ob)).
Proof.
  rewrite flattened_loop.
  cut (forall l acc, ordered_keys (keys acc) ->
         ordered_keys (keys (fold_left flatten_property l acc))).
  { intros Hfold. by apply Hfold. }
  induction l as [|iv l IH]; intros acc Hacc; [done|].
  cbn [fold_left]. by apply IH, ordered_flatten_property.
Qed.

Local Abbreviation leaves :=
  (Forall (fun kx : string * JsValue => String.eqb (typeof kx.2) "object" = false)).

Lemma obj_set_elem k v props kx :
  kx ∈ obj_set k v props -> kx = (k, v) \/ kx ∈ props.
Proof.
  unfold obj_set. destruct (obj_replace k v props) as [props'|] eqn:Hreplace.
  - revert props' Hreplace.
    induction props as [|[k' v'] props IH]; intros props' Hreplace; [done|].
    cbn in Hreplace. destruct (String.eqb k' k).
    + injection Hreplace as <-. rewrite !elem_of_cons. tauto.
    + destruct (obj_replace k v props) as [r|]; [|done]. injection Hreplace as <-.
      rewrite !elem_of_cons. intros [->|Hin]; [tauto|].
      destruct (IH r eq_refl Hin); tauto.
  - destruct (array_index k) as [n|].
    + clear Hreplace. induction props as [|[k' v'] props IH]; cbn.
      * rewrite list_elem_of_singleton. tauto.
      * destruct (array_index k') as [n'|]; [destruct (n <? n')|];
          rewrite !elem_of_cons;
          first [tauto | intros [->|Hin]; [tauto|destruct (IH Hin); tauto]].
    + rewrite elem_of_app, list_elem_of_singleton. tauto.
Qed.

Lemma leaves_obj_set k v props :
  String.eqb (typeof v) "object" = false -> leaves props -> leaves (obj_set k v props).
Proof.
  intros Hv Hprops. apply Forall_forall. intros kx [->|Hin]%obj_set_elem; [done|].
  by apply (proj1 (Forall_forall _ _) Hprops).
Qed.

Lemma leaves_flattened ob : leaves (flattened ob).
Proof.
  assert (forall i (flat acc : list (string * JsValue)),
             leaves flat -> leaves acc ->
             leaves (fold_left (fun acc xf => obj_set (i +:+ "." +:+ fst xf) (snd xf) acc)
                       flat acc)) as Hcopy.
  { intros i flat. induction flat as [|[x v] flat IH]; intros acc Hflat Hacc; [done|].
    apply Forall_cons in Hflat as [Hv Hflat]. cbn [fold_left fst snd].
    apply IH; [done|]. by apply leaves_obj_set. }
  induction ob as [| | | | | | |xs IH|props IH] using JsValue_nested_ind;
    try (by constructor).
  - rewrite flattened_loop. cbn [own_properties].
    cut (forall i acc, leaves acc ->
           leaves (fold_left flatten_property (indexed_from i xs) acc)).
    { intros Hfold. apply Hfold. constructor. }
    induction IH as [|x xs Hx _ IHxs]; intros i acc Hacc; [done|].
    cbn [indexed_from fold_left]. apply IHxs. unfold flatten_property. cbn [fst snd].
    destruct (String.eqb (typeof x) "object") eqn:Htype.
    + by apply Hcopy.
    + by apply leaves_obj_set.
  - rewrite flattened_loop. cbn [own_properties].
    cut (forall acc, leaves acc -> leaves (fold_left flatten_property props acc)).
    { intros Hfold. apply Hfold. constructor. }
    induction IH as [|[k x] props Hx _ IHprops]; intros acc Hacc; [done|].
    cbn [fold_left]. apply IHprops. unfold flatten_property. cbn [fst snd] in *.
    destruct (String.eqb (typeof x) "object") eqn:Htype.
    + by apply Hcopy.
    + by apply leaves_obj_set.
Qed.

(** Flattening what was flattened changes nothing. *)
Lemma flattened_flat ob : flattened (JObject (flattened ob)) = flattened ob.
Proof.
  rewrite (flattened_loop (JObject _)). cbn [own_properties].
  pose proof (ordered_in_own_order _ (ordered_flattened ob)) as Horder.
  pose proof (leaves_flattened ob) as Hleaves.
  unfold in_own_order in Horder. etransitivity; [|exact Horder].
  clear Horder. revert Hleaves. generalize (flattened ob) as flat.
  intros flat Hleaves. generalize (@nil (string * JsValue)) as acc.
  induction Hleaves as [|[k x] flat Hx _ IH]; intros acc; [done|].
  cbn [fold_left]. unfold flatten_property at 2. cbn [fst snd] in *. rewrite Hx.
  apply IH.
Qed.

End FlattenMore.

(** ** The fingerprint of ordinary arguments *)

Section Ordinary.

Local Abbreviation plain :=
  (Forall (fun kx : string * JsValue => plain_key kx.1 = true)).
Local Abbreviation all_ordinary := (forallb ordinary).

Lemma has_dot_app i x : existsb (Ascii.eqb ".") (list_ascii_of_string (i +:+ "." +:+ x)) = true.
Proof.
  induction i as [|c i IH]; [reflexivity|].
  change (String c i +:+ "." +:+ x) with (String c (i +:+ "." +:+ x)).
  cbn [list_ascii_of_string existsb]. rewrite IH. apply orb_true_r.
Qed.

(** A dotted key is neither [hasOwnProperty] nor [__proto__]. *)
Lemma dotted_key_plain i x : plain_key (i +:+ "." +:+ x) = true.
Proof.
  pose proof (has_dot_app i x) as Hdot. unfold plain_key.
  destruct (String.eqb_spec (i +:+ "." +:+ x) "hasOwnProperty") as [Heq|_];
    [by rewrite Heq in Hdot|].
  destruct (String.eqb_spec (i +:+ "." +:+ x) "__proto__") as [Heq|_];
    [by rewrite Heq in Hdot|].
  reflexivity.
Qed.

(** Nor is the index of an array element. *)
Lemma index_key_plain i : plain_key (Number_toString i) = true.
Proof.
  pose proof (BigInt_of_Number_toString i) as Hread. unfold plain_key.
  destruct (String.eqb_spec (Number_toString i) "hasOwnProperty") as [Heq|_];
    [by rewrite Heq in Hread|].
  destruct (String.eqb_spec (Number_toString i) "__proto__") as [Heq|_];
    [by rewrite Heq in Hread|].
  reflexivity.
Qed.

Lemma assign_plain k v toReturn :
  plain_key k = true -> assign k v toReturn = Some (obj_set k v toReturn).
Proof.
  unfold plain_key, assign. intros [_ Hproto]%andb_prop.
  by destruct (String.eqb k "__proto__").
Qed.

Lemma inherits_plain props : plain props -> inherits_hasOwnProperty props = true.
Proof.
  unfold inherits_hasOwnProperty. induction 1 as [|[k x] props Hk _ IH]; [reflexivity|].
  cbn in *. unfold plain_key in Hk. apply andb_prop in Hk as [Hk _].
  destruct (String.eqb k "hasOwnProperty"); [done|]. exact IH.
Qed.

Lemma copy_leaves_plain i flatObject toReturn :
  plain flatObject ->
  copy_leaves i flatObject toReturn =
  Some (fold_left (fun acc xf => obj_set (i +:+ "." +:+ fst xf) (snd xf) acc)
          flatObject toReturn).
Proof.
  intros Hinherits%inherits_plain. unfold copy_leaves. rewrite Hinherits.
  clear Hinherits. revert toReturn.
  induction flatObject as [|[x v] flat IH]; intros toReturn; [reflexivity|].
  cbn [fold_left fst snd]. rewrite assign_plain by apply dotted_key_plain. apply IH.
Qed.

Lemma plain_obj_set k v props : plain_key k = true -> plain props -> plain (obj_set k v props).
Proof.
  intros Hk Hprops. apply Forall_forall. intros kx [->|Hin]%obj_set_elem; [done|].
  by apply (proj1 (Forall_forall _ _) Hprops).
Qed.

Lemma plain_copy_leaves i flat acc :
  plain acc ->
  plain (fold_left (fun acc xf => obj_set (i +:+ "." +:+ fst xf) (snd xf) acc) flat acc).
Proof.
  revert acc. induction flat as [|[x v] flat IH]; intros acc Hacc; [done|].
  cbn [fold_left fst snd]. apply IH, plain_obj_set; [apply dotted_key_plain|done].
Qed.

Lemma plain_flatten_property acc iv :
  plain_key iv.1 = true -> plain acc -> plain (flatten_property acc iv).
Proof.
  intros Hk Hacc. unfold flatten_property.
  destruct (String.eqb (typeof iv.2) "object").
  - by apply plain_copy_leaves.
  - by apply plain_obj_set.
Qed.

Lemma plain_fold_flatten_property props acc :
  plain props -> plain acc -> plain (fold_left flatten_property props acc).
Proof.
  intros Hprops. revert acc. induction Hprops as [|iv props Hk _ IH]; intros acc Hacc; [done|].
  cbn [fold_left]. by apply IH, plain_flatten_property.
Qed.

Lemma plain_indexed_from i xs : plain (indexed_from i xs).
Proof.
  revert i. induction xs as [|x xs IH]; intros i; constructor; [apply index_key_plain|apply IH].
Qed.

Lemma ordinary_members props :
  ordinary (JObject props) = true ->
  plain props /\ Forall (fun kx => ordinary kx.2 = true) props.
Proof.
  cbn [ordinary]. induction props as [|[k x] props IH]; [done|].
  cbn [forallb fst snd]. intros [[Hk Hx]%andb_prop Hrest]%andb_prop.
  destruct (IH Hrest). split; by constructor.
Qed.

Lemma ordinary_elements xs :
  ordinary (JArray xs) = true <-> Forall (fun x => ordinary x = true) xs.
Proof.
  cbn [ordinary]. induction xs as [|x xs IH]; [done|]. cbn [forallb].
  rewrite andb_true_iff, Forall_cons, IH. tauto.
Qed.

(** No key of the flattening of an ordinary value is [hasOwnProperty] or
    [__proto__]. *)
Lemma plain_flattened v : ordinary v = true -> plain (flattened v).
Proof.
  intros Hv. rewrite flattened_loop. destruct v; try done.
  - cbn [own_properties]. apply plain_fold_flatten_property; [apply plain_indexed_from|done].
  - cbn [own_properties]. apply ordinary_members in Hv as [Hkeys _].
    by apply plain_fold_flatten_property.
Qed.

(** On an ordinary value [flattenObject] returns the object [flattened]. *)
Lemma flattenObject_ordinary v : ordinary v = true -> flattenObject v = Some (flattened v).
Proof.
  induction v as [| | | | | | |xs IH|props IH] using JsValue_nested_ind; try reflexivity.
  - intros Hxs%ordinary_elements. cbn [flattenObject flattened].
    generalize (@nil (string * JsValue)) as acc. generalize 0 as i.
    induction IH as [|x xs Hx _ IHxs]; intros i acc; [reflexivity|].
    apply Forall_cons in Hxs as [Hox Hxs].
    destruct (String.eqb (typeof x) "object") eqn:Htype.
    + rewrite (Hx Hox), copy_leaves_plain by by apply plain_flattened. by apply IHxs.
    + rewrite assign_plain by apply index_key_plain. by apply IHxs.
  - intros [Hkeys Hvalues]%ordinary_members. cbn [flattenObject flattened].
    rewrite (inherits_plain _ Hkeys).
    generalize (@nil (string * JsValue)) as acc.
    induction IH as [|[k x] props Hx _ IHprops]; intros acc; [reflexivity|].
    apply Forall_cons in Hkeys as [Hk Hkeys]. apply Forall_cons in Hvalues as [Hox Hvalues].
    cbn [fst snd] in *.
    destruct (String.eqb (typeof x) "object") eqn:Htype.
    + rewrite (Hx Hox), copy_leaves_plain by by apply plain_flattened. by apply IHprops.
    + rewrite assign_plain by done. by apply IHprops.
Qed.

(** So the arguments have a text, the text of their flattening. *)
Lemma hash_text_ordinary args :
  all_ordinary args = true ->
  exists jsonArgs,
    JSON_stringify_replacer (JObject (flattened (JArray args))) = Text jsonArgs /\
    hash_text args = Some jsonArgs.
Proof.
  intros Hargs. unfold hash_text. rewrite (flattenObject_ordinary (JArray args)) by done.
  destruct (stringify_replacer_defined (flattened (JArray args))) as [text Htext].
  exists text. by rewrite Htext.
Qed.

(** Two tuples of ordinary arguments whose flattenings have one text have
    one fingerprint. *)
Lemma hash_same_text x y :
  all_ordinary x = true -> all_ordinary y = true ->
  JSON_stringify_replacer (JObject (flattened (JArray x))) =
  JSON_stringify_replacer (JObject (flattened (JArray y))) ->
  (exists jsonArgs, hash_text x = Some jsonArgs /\ hash_text y = Some jsonArgs) /\
  hash (JsonArguments x) = hash (JsonArguments y) /\
  Arguments_equals (JsonArguments x) (JsonArguments y) = true.
Proof.
  intros Hx Hy Hsame.
  destruct (hash_text_ordinary x Hx) as (tx & Htx & Hhx).
  destruct (hash_text_ordinary y Hy) as (ty & Hty & Hhy).
  assert (ty = tx) as -> by congruence.
  split; [by exists tx|].
  unfold Arguments_equals. cbn [hash JsonArguments]. unfold JsonArguments_hash.
  rewrite Hhx, Hhy. split; [reflexivity|]. apply String.eqb_refl.
Qed.

Lemma all_ordinary_app xs ys :
  all_ordinary (xs ++ ys) = true <-> all_ordinary xs = true /\ all_ordinary ys = true.
Proof. by rewrite forallb_app, andb_true_iff. Qed.

Lemma all_ordinary_erase args :
  all_ordinary (map erase_functions args) = all_ordinary args.
Proof. induction args as [|x xs IH]; [done|]. cbn. by rewrite ordinary_erase, IH. Qed.

Lemma hollow_flattened h :
  hollow h <-> ordinary h = true /\ typeof h = "object" /\ flattened h = [].
Proof.
  unfold hollow. split; intros (Ho & Htype & Hflat); (split; [done|split; [done|]]).
  - rewrite flattenObject_ordinary in Hflat by done. congruence.
  - by rewrite flattenObject_ordinary, Hflat.
Qed.

Lemma hollow_array xs : Forall hollow xs -> hollow (JArray xs).
Proof.
  intros Hxs. apply hollow_flattened. split; [|split; [done|]].
  - apply ordinary_elements. eapply Forall_impl; [exact Hxs|]. by intros x [? _].
  - apply flattened_array_empty. eapply Forall_impl; [exact Hxs|].
    intros x Hx. by apply hollow_flattened in Hx as (_ & ? & ?).
Qed.

Lemma hollow_object props :
  Forall (fun kx => plain_key kx.1 = true /\ hollow kx.2) props -> hollow (JObject props).
Proof.
  intros Hps. apply hollow_flattened. split; [|split; [done|]].
  - cbn [ordinary]. induction Hps as [|[k x] props [Hk [Hx _]] _ IH]; [done|].
    cbn in *. by rewrite Hk, Hx, IH.
  - apply flattened_object_empty. eapply Forall_impl; [exact Hps|].
    intros kx [_ Hx]. by apply hollow_flattened in Hx as (_ & ? & ?).
Qed.

Lemma ordinary_flattened v : ordinary v = true -> ordinary (JObject (flattened v)) = true.
Proof.
  intros Hv. pose proof (plain_flattened v Hv) as Hkeys.
  pose proof (leaves_flattened v) as Hleaves. cbn [ordinary].
  revert Hkeys Hleaves. generalize (flattened v) as flat. intros flat Hkeys.
  induction Hkeys as [|[k x] flat Hk _ IH]; [done|].
  intros [Hx Hleaves]%Forall_cons. cbn [forallb fst snd] in *.
  rewrite Hk, IH by done. by destruct x.
Qed.

(** C8, as amended.  The fingerprint of arguments that have no member
    named [hasOwnProperty] or [__proto__] is a function of their structure,
    the insertion order of the members included, and of their values that
    are no functions: two tuples of the same length whose arguments are,
    one by one, the same up to which functions sit at their function-valued
    leaves are flattened to one JSON text, have the same digest and are
    [equals].  Equal tuples are the case with the same functions. *)
Theorem C8_fingerprint_deterministic (a b : list JsValue) :
  forallb ordinary a = true ->
  Forall2 same_modulo_functions a b ->
  (exists jsonArgs, hash_text a = Some jsonArgs /\ hash_text b = Some jsonArgs) /\
  hash (JsonArguments a) = hash (JsonArguments b) /\
  Arguments_equals (JsonArguments a) (JsonArguments b) = true.
Proof.
  intros Ha Hab%map_erase_Forall2.
  assert (all_ordinary b = true) as Hb.
  { by rewrite <- all_ordinary_erase, <- Hab, all_ordinary_erase. }
  apply hash_same_text; [done|done|].
  by rewrite <- (flattened_text_erase a), <- (flattened_text_erase b), Hab.
Qed.

(** X12.  The fingerprint does not see an argument that is [null], an empty
    array, an empty object, or an array or object with nothing but such
    values in it (under keys other than [hasOwnProperty] and [__proto__]):
    among arguments that have no member of those two names, one of them in
    the place of another leaves the fingerprint as it is, and so does one
    more of them at the end of the tuple.  So [new T(a, null)],
    [new T(a, {})] and [new T(a)] have one key. *)
Theorem hash_ignores_hollow_arguments :
  (hollow JNull /\ hollow (JArray []) /\ hollow (JObject []) /\
   (forall xs, Forall hollow xs -> hollow (JArray xs)) /\
   (forall props, Forall (fun kx => plain_key kx.1 = true /\ hollow kx.2) props ->
                  hollow (JObject props))) /\
  (forall pre h h' post,
     forallb ordinary (pre ++ post) = true -> hollow h -> hollow h' ->
     (exists jsonArgs, hash_text (pre ++ h :: post) = Some jsonArgs /\
                       hash_text (pre ++ h' :: post) = Some jsonArgs) /\
     hash (JsonArguments (pre ++ h :: post)) = hash (JsonArguments (pre ++ h' :: post)) /\
     Arguments_equals (JsonArguments (pre ++ h :: post))
       (JsonArguments (pre ++ h' :: post)) = true) /\
  (forall xs h,
     forallb ordinary xs = true -> hollow h ->
     (exists jsonArgs, hash_text (xs ++ [h]) = Some jsonArgs /\
                       hash_text xs = Some jsonArgs) /\
     hash (JsonArguments (xs ++ [h])) = hash (JsonArguments xs) /\
     Arguments_equals (JsonArguments (xs ++ [h])) (JsonArguments xs) = true).
Proof.
  split; [|split].
  - split; [done|]. split; [by apply hollow_array|].
    split; [by apply hollow_object|]. split; [apply hollow_array|apply hollow_object].
  - intros pre h h' post [Hpre Hpost]%all_ordinary_app
      (Ho & Htype & Hflat)%hollow_flattened (Ho' & Htype' & Hflat')%hollow_flattened.
    apply hash_same_text.
    + apply all_ordinary_app. split; [done|]. cbn. by rewrite Ho, Hpost.
    + apply all_ordinary_app. split; [done|]. cbn. by rewrite Ho', Hpost.
    + by rewrite !flattened_skips_empty.
  - intros xs h Hxs (Ho & Htype & Hflat)%hollow_flattened.
    apply hash_same_text.
    + apply all_ordinary_app. split; [done|]. cbn. by rewrite Ho.
    + done.
    + by rewrite flattened_skips_empty.
Qed.

(** X13.  The fingerprint does not tell a bigint from the string that spells
    [BigInt(], its decimal digits and [)]: with such a string in the place
    of a bigint, anywhere in arguments that have no member named
    [hasOwnProperty] or [__proto__] and at any depth, the fingerprint is
    the same.  So [new T(5n)] and [new T('BigInt(5)')] have one key. *)
Theorem hash_confuses_bigint_and_its_tag (args : list JsValue) :
  forallb ordinary args = true ->
  (exists jsonArgs, hash_text (map (relabel tag_bigint) args) = Some jsonArgs /\
                    hash_text args = Some jsonArgs) /\
  hash (JsonArguments (map (relabel tag_bigint) args)) = hash (JsonArguments args) /\
  Arguments_equals (JsonArguments (map (relabel tag_bigint) args)) (JsonArguments args)
    = true /\
  (forall n, relabel tag_bigint (JBigInt n) =
             JString ("BigInt(" +:+ Number_toString n +:+ ")")).
Proof.
  intros Hargs.
  assert (all_ordinary (map (relabel tag_bigint) args) = true) as Htagged.
  { rewrite <- Hargs. clear Hargs. induction args as [|x xs IH]; [done|].
    cbn [map forallb]. rewrite IH. f_equal. apply ordinary_relabel. by intros []. }
  destruct (hash_same_text (map (relabel tag_bigint) args) args Htagged Hargs)
    as (Htext & Hhash & Hequals).
  { apply flattened_text_relabel.
    - by intros [].
    - by intros [].
    - by intros k []. }
  done.
Qed.

(** X14.  The fingerprint of arguments that have no member named
    [hasOwnProperty] or [__proto__] is 32 numbers between 0 and 255, in
    decimal, separated by commas: the bytes of the SHA-256 digest of the
    text of the flattened arguments, a text that exists for all of them. *)
Theorem hash_is_32_bytes (args : list JsValue) :
  forallb ordinary args = true ->
  exists jsonArgs bytes,
    hash_text args = Some jsonArgs /\
    bytes = Sha256.digest jsonArgs /\
    length bytes = 32%nat /\
    Forall (fun b => 0 <= b < 256) bytes /\
    hash (JsonArguments args) = join "," (map Number_toString bytes).
Proof.
  intros Hargs. destruct (hash_text_ordinary args Hargs) as (jsonArgs & _ & Htext).
  exists jsonArgs, (Sha256.digest jsonArgs).
  destruct (digest_shape jsonArgs) as [Hlen Hbytes].
  split; [done|]. split; [done|]. split; [done|]. split; [done|].
  cbn [hash JsonArguments]. unfold JsonArguments_hash. by rewrite Htext.
Qed.

(** X25.  The fingerprint does not tell an array or an object from its
    flattened form, the object that has a dotted key for every leaf: among
    arguments that have no member named [hasOwnProperty] or [__proto__],
    with one in the place of the other, at any position, the fingerprint
    is the same.  So [new T({a: {b: 1}})] and [new T({'a.b': 1})] have one
    key, and so have [new T([1, 2])] and [new T({0: 1, 1: 2})]. *)
Theorem hash_confuses_nesting_and_dotted_keys (pre post : list JsValue) (v : JsValue) :
  forallb ordinary (pre ++ v :: post) = true ->
  typeof v = "object" ->
  flattenObject v = Some (flattened v) /\
  (exists jsonArgs,
     hash_text (pre ++ JObject (flattened v) :: post) = Some jsonArgs /\
     hash_text (pre ++ v :: post) = Some jsonArgs) /\
  hash (JsonArguments (pre ++ JObject (flattened v) :: post)) =
    hash (JsonArguments (pre ++ v :: post)) /\
  Arguments_equals (JsonArguments (pre ++ JObject (flattened v) :: post))
    (JsonArguments (pre ++ v :: post)) = true.
Proof.
  intros Hall Htype. pose proof Hall as [Hpre Hrest]%all_ordinary_app.
  cbn [forallb] in Hrest. apply andb_prop in Hrest as [Hv Hpost].
  split; [by apply flattenObject_ordinary|].
  apply hash_same_text; [|done|].
  - apply all_ordinary_app. split; [done|]. cbn [forallb].
    by rewrite ordinary_flattened, Hpost.
  - rewrite !(flattened_loop (JArray _)). cbn [own_properties].
    rewrite !indexed_from_app, !fold_left_app. cbn [indexed_from fold_left].
    assert (forall acc i, flatten_property acc (i, JObject (flattened v)) =
                          flatten_property acc (i, v)) as ->; [|done].
    intros acc i. unfold flatten_property. cbn [fst snd].
    by rewrite flattened_flat, Htype.
Qed.

End Ordinary.

(* ===================================================================== *)
(** * Part III: the properties at concrete inputs                        *)
(* ===================================================================== *)

(** The constructor builds the instance the scenarios use. *)
Example counted_task_constructs o time :
  counted_task o (fresh_world time) = (Ok (counted_T o), fresh_world time).
Proof. reflexivity. Qed.

(** Check values of the digest and of the fingerprint of the empty tuple
    (the SHA-256 of ["abc"] and of ["{}"]). *)
Example sha256_abc :
  Sha256.digest "abc" =
  [186; 120; 22; 191; 143; 1; 207; 234; 65; 65; 64; 222; 93; 174; 34; 35;
   176; 3; 97; 163; 150; 23; 122; 156; 180; 16; 255; 97; 242; 0; 21; 173].
Proof. vm_compute. reflexivity. Qed.

Example hash_of_no_arguments :
  JsonArguments_hash [] =
  "68,19,111,163,85,179,103,138,17,70,173,22,247,232,100,158,148,251,79,194,31,231,126,131,16,192,96,246,28,170,255,138".
Proof. vm_compute. reflexivity. Qed.

(** An expired entry and an expired record, never swept, at second 20. *)
Lemma C4_witness :
  fst (getCache (task_key (counted_T (Ok JNull))) stale_world) = Ok None /\
  run (counted_T (Ok JNull)) stale_world =
    run_uncached (counted_T (Ok JNull)) (task_key (counted_T (Ok JNull)))
      (elapse 0 stale_world) /\
  fst (extractNextQueuedTask stale_world) <> Ok (Some stale_record).
Proof.
  destruct (C4_expired_never_returned stale_world) as (Hcache & Hrun & Hqueue).
  split; [|split].
  - apply (Hcache _ {| kv_value := "null"; kv_expires_at := Some 10 |} 10);
      [vm_compute; reflexivity|reflexivity|vm_compute; discriminate].
  - apply (Hrun _ {| kv_value := "null"; kv_expires_at := Some 10 |} 10);
      [vm_compute; reflexivity|reflexivity|vm_compute; discriminate].
  - apply (Hqueue stale_record 10);
      [apply list_elem_of_here|reflexivity|vm_compute; discriminate].
Defined.

(** The queue of [two_queued]: the older of two records of equal priority
    is extracted and stays queued; and the scenario A, B, C with 600 ms
    between the calls, A with an expiry that lies ahead. *)
Lemma C5_witness :
  (exists r, fst (extractNextQueuedTask (two_queued 5000)) = Ok (Some r) /\
             task_id r = 1 /\ r ∈ queued_tasks (db (two_queued 5000))) /\
  fst (enqueue_ABC_then_drain "[1]" "[2]" "[3]" (Some 999000) None None
         (slow_world 5000)) =
    Ok [Some "A"; Some "C"; Some "B"; None].
Proof.
  split.
  - destruct (C5_extract_next_order (two_queued 5000)) as (_ & Hret & _).
    eexists. split; [vm_compute; reflexivity|]. split; [reflexivity|].
    eapply Hret. vm_compute. reflexivity.
  - destruct (C5_extract_next_order (slow_world 5000)) as (_ & _ & _ & _ & Hscenario).
    apply Hscenario; [reflexivity|vm_compute; reflexivity|].
    repeat constructor.
Defined.

(** A, B and C enqueued within one second, A with an expiry that lies
    ahead, on SQLite with the indexes of the schema: C is extracted
    before A. *)
Lemma C5_counterexample :
  fst (enqueue_ABC_then_drain "[1]" "[2]" "[3]" (Some 999000) None None
         (sqlite_world 5000)) =
    Ok [Some "C"; Some "A"; Some "B"; None].
Proof. vm_compute. reflexivity. Defined.

(** Two tuples with a large integer and nested objects that differ only in
    their functions. *)
Lemma C8_witness :
  (exists jsonArgs, hash_text tuple_a = Some jsonArgs /\ hash_text tuple_b = Some jsonArgs) /\
  hash (JsonArguments tuple_a) = hash (JsonArguments tuple_b) /\
  Arguments_equals (JsonArguments tuple_a) (JsonArguments tuple_b) = true.
Proof.
  apply (C8_fingerprint_deterministic tuple_a tuple_b).
  - reflexivity.
  - repeat constructor.
Defined.

(** One object with its two members inserted in either order: the same
    members with the same values, two fingerprints. *)
Lemma C8_counterexample :
  own_properties amount_then_memo ≡ₚ own_properties memo_then_amount /\
  ordinary amount_then_memo = true /\ ordinary memo_then_amount = true /\
  hash (JsonArguments [amount_then_memo]) <> hash (JsonArguments [memo_then_amount]) /\
  Arguments_equals (JsonArguments [amount_then_memo]) (JsonArguments [memo_then_amount])
    = false.
Proof.
  split; [apply perm_swap|]. split; [reflexivity|]. split; [reflexivity|].
  split; [vm_compute; discriminate|vm_compute; reflexivity].
Defined.

(** Arguments outside the ordinary ones.  With a member named
    [hasOwnProperty] there is no fingerprint to speak of: [hash()] throws or
    runs the member.  A number under [__proto__] is dropped, members of an
    object under [__proto__] are kept under their dotted keys. *)
Example flattenObject_of_other_arguments :
  flattenObject (JArray [JObject [("hasOwnProperty", JNull); ("a", JNumber 1)]]) = None /\
  hash_text [JObject [("a", JNumber 1); ("hasOwnProperty", JFunction "f")]] = None /\
  flattenObject (JObject [("a", JObject [("__proto__", JNumber 5); ("b", JNumber 1)])]) =
    Some [("a.b", JNumber 1)] /\
  flattenObject (JObject [("__proto__", JObject [("b", JNumber 1)])]) =
    Some [("__proto__.b", JNumber 1)].
Proof. repeat split. Qed.

(** No database service registered, a declared provider missing too. *)
Lemma C10_witness :
  Task_constructor "T" (inr []) ["WalletProvider"] (counting_body (Ok JNull))
    (set_providers ∅ (fresh_world 0)) =
    (Throw (Error "DatabaseService not found"), set_providers ∅ (fresh_world 0)) /\
  WaitForRelaysConnectedTask (set_providers ∅ (fresh_world 0)) =
    (Throw (Error "DatabaseService not found"), set_providers ∅ (fresh_world 0)).
Proof.
  destruct (C10_constructor_needs_DatabaseService "T" (inr []) ["WalletProvider"]
              (counting_body (Ok JNull)) (set_providers ∅ (fresh_world 0)))
    as [[_ Hthrows] Hsub].
  split; [apply Hthrows; reflexivity|apply Hsub; reflexivity].
Defined.



(** A task whose counted body throws: the failed call leaves the cache
    empty and nothing in flight, and the next call fails the same way after
    executing the body a second time. *)
Lemma C3_witness :
  exists w1,
    run (counted_T (Throw (Error "boom"))) (fresh_world 1000) = (Throw (Error "boom"), w1) /\
    key_value_cache (db w1) = ∅ /\
    locksMap w1 !! task_key (counted_T (Throw (Error "boom"))) = None /\
    ext w1 = 1%nat /\
    fst (run (counted_T (Throw (Error "boom"))) w1) = Throw (Error "boom") /\
    ext (snd (run (counted_T (Throw (Error "boom"))) w1)) = 2%nat.
Proof.
  destruct (C3_failure_is_not_cached (counted_T (Throw (Error "boom"))) (fresh_world 1000)
              (Error "boom") (set_ext 1%nat (elapse 0 (fresh_world 1000))))
    as (w1 & Hrun & Hdb & Hext & Hlock & Hagain);
    [vm_compute; reflexivity|vm_compute; reflexivity|reflexivity|].
  exists w1. split; [exact Hrun|]. split; [by rewrite Hdb|]. split; [exact Hlock|].
  split; [exact Hext|].
  destruct (Hagain ltac:(by rewrite getCache_eq, Hdb) (Throw (Error "boom"))
              (set_ext (S (ext (elapse 0 w1))) (elapse 0 w1)) eq_refl)
    as [Hthrows Hcount].
  split; [exact Hthrows|]. rewrite Hcount. cbn. by rewrite Hext.
Defined.

(** The queue of [two_queued]: the first record names a class that is not
    registered. *)
Lemma C6_witness :
  exists w2,
    processQueue (counted_registry (Ok (JString "done"))) 10 (two_queued 5000) =
      Some (Throw (Error "Task constructor not found: Gone"), w2) /\
    forall r, r ∈ queued_tasks (db w2) -> task_id r <> 1.
Proof.
  destruct (C6_failed_record_is_deleted_and_ends_the_pass
              (counted_registry (Ok (JString "done"))) (two_queued 5000)
              {| task_id := 1; task_name := "Gone"; arguments := "[]";
                 added_at := 10; expires_at := None; priority := 0 |}
              (elapse 0 (two_queued 5000))
              (Error "Task constructor not found: Gone")
              (snd (runTask (counted_registry (Ok (JString "done")))
                      {| task_id := 1; task_name := "Gone"; arguments := "[]";
                         added_at := 10; expires_at := None; priority := 0 |}
                      (elapse 0 (two_queued 5000))))
              9%nat)
    as (_ & Hgone & _ & Hpass);
    [vm_compute; reflexivity|vm_compute; reflexivity|].
  eexists. split; [apply Hpass; eexists; vm_compute; reflexivity|exact Hgone].
Defined.

(** A drain pass over [two_queued]: the first record fails, the pass ends
    with its error, and the second record, which would run, is still queued
    and has not been executed: the next [extractNextQueuedTask] returns it. *)
Lemma C6_counterexample :
  exists w',
    processQueue (counted_registry (Ok (JString "done"))) 10 (two_queued 5000) =
      Some (Throw (Error "Task constructor not found: Gone"), w') /\
    map task_id (queued_tasks (db w')) = [2] /\
    ext w' = 0%nat /\
    option_map task_id
      match fst (extractNextQueuedTask w') with Ok r => r | Throw _ => None end
    = Some 2.
Proof. eexists. vm_compute. repeat split. Defined.

(** C7 (the code differs).  [enqueueTask] of a registered task whose body
    returns, on an empty queue: the task runs once and its result is
    returned, but the record [addQueuedTask] inserted, of id 1, is still in
    the queue afterwards; [runTask] was given the record of [serialize()],
    whose id is 0, and deleted that id. *)
Theorem C7_enqueued_record_is_not_deleted :
  fst (enqueueTask (counted_registry (Ok (JString "done")))
         (counted_T (Ok (JString "done"))) (fresh_world 5000)) = Ok (JString "done") /\
  ext (snd (enqueueTask (counted_registry (Ok (JString "done")))
              (counted_T (Ok (JString "done"))) (fresh_world 5000))) = 1%nat /\
  map (fun r => (task_id r, task_name r))
    (queued_tasks (db (snd (enqueueTask (counted_registry (Ok (JString "done")))
                              (counted_T (Ok (JString "done"))) (fresh_world 5000)))))
  = [(1, "T")].
Proof. vm_compute. repeat split. Qed.



Section InterleavedScenarios.
Import Interleaving.

(** Three callers, the body returning 7: one body is executed and the
    three callers settle with 7. *)
Lemma C2_witness :
  (executing three_callers_end <= 1)%nat /\
  started three_callers_end = 1%nat /\
  map pc (callers three_callers_end) =
    [Finished (FromBody 0) (Ok (JNumber 7)); Finished (FromLock 0) (Ok (JNumber 7));
     Finished (FromLock 0) (Ok (JNumber 7))].
Proof.
  destruct (C2_one_body_in_flight three_callers 5000 None [forever; forever; forever]
              three_callers_end)
    as ((Hone & _ & _) & _ & _ & _ & Hall); [vm_compute; reflexivity|].
  split; [exact Hone|].
  destruct (Hall 0%nat {| caller_expiry := forever;
                          pc := Finished (FromBody 0) (Ok (JNumber 7)) |}
              0%nat (Ok (JNumber 7)))
    as (Hstarted & _); [reflexivity|reflexivity| |].
  - intros [|[|[|i]]] c Hne Hc; [done| | |discriminate Hc];
      injection Hc as <-; eexists _, _; reflexivity.
  - split; [exact Hstarted|reflexivity].
Defined.

(** Two calls that overlap, the body executed twice: the results of the
    task expire at once, caller 1 calls [run()] while caller 0 is in
    [setCache], and runs on from its cache miss after caller 0 has removed
    its entry.  And two callers that get different answers from one body:
    the body returns a [BigInt], the caller that started it fails in
    [JSON.stringify], the caller that awaited the registered promise gets
    the [BigInt]. *)
Lemma C2_counterexample :
  (exists s' s,
     play (take 6 overlapping_callers) (init 5000 None [ExpiryDate 0; ExpiryDate 0])
       = Some s' /\
     map pc (callers s') =
       [AwaitSetCache 0 JUndefined {| kv_value := "{}"; kv_expires_at := Some 0 |} false;
        AwaitGetCache 5 None] /\
     play (drop 6 overlapping_callers) s' = Some s /\
     started s = 2%nat /\
     map pc (callers s) =
       [Finished (FromBody 0) (Ok JUndefined); Finished (FromBody 1) (Ok JUndefined)]) /\
  (exists s,
     play bigint_callers (init 5000 None [forever; forever]) = Some s /\
     started s = 1%nat /\
     map pc (callers s) =
       [Finished (FromBody 0) (Throw (TypeError "Do not know how to serialize a BigInt"));
        Finished (FromLock 0) (Ok (JBigInt 5))]).
Proof.
  split.
  - eexists _, _. split; [vm_compute; reflexivity|]. split; [reflexivity|].
    split; [vm_compute; reflexivity|]. split; reflexivity.
  - eexists. split; [vm_compute; reflexivity|]. split; reflexivity.
Defined.
End InterleavedScenarios.

(** ** More properties at concrete inputs *)

(** A value stored until the millisecond 61500, looked up at 60999 and at
    61000. *)
Lemma setCache_then_getCache_witness :
  fst (getCache "k"
         (set_db (db (snd (setCache "k" (Some "v") (ExpiryDate 61500) (fresh_world 60000))))
            (fresh_world 60999))) = Ok (Some "v") /\
  fst (getCache "k"
         (set_db (db (snd (setCache "k" (Some "v") (ExpiryDate 61500) (fresh_world 60000))))
            (fresh_world 61000))) = Ok None.
Proof.
  split.
  - apply (proj1 (setCache_then_getCache "k" (Some "v") (ExpiryDate 61500)
                    (fresh_world 60000)
                    (set_db (db (snd (setCache "k" (Some "v") (ExpiryDate 61500)
                                        (fresh_world 60000))))
                       (fresh_world 60999)) eq_refl)).
  - apply (proj1 (setCache_then_getCache "k" (Some "v") (ExpiryDate 61500)
                    (fresh_world 60000)
                    (set_db (db (snd (setCache "k" (Some "v") (ExpiryDate 61500)
                                        (fresh_world 60000))))
                       (fresh_world 61000)) eq_refl)).
Defined.

Lemma two_queued_unique_ids time : unique_ids (db (two_queued time)).
Proof.
  split; [|split]; cbn.
  - apply NoDup_cons. split; [|apply NoDup_singleton].
    by intros ?%list_elem_of_singleton.
  - repeat constructor; cbn; lia.
  - lia.
Qed.

(** A third record added to the queue of [two_queued], with an expiry of
    90500 ms: it gets the id 3 and is found under it, its expiry stored as
    second 90. *)
Lemma addQueuedTask_then_getQueuedTask_witness :
  exists w1,
    addQueuedTask "T" "[7]" (Some 90500) 4 (two_queued 5000) = (Ok 3, w1) /\
    fst (getQueuedTask 3 w1) =
      Ok (Some {| task_id := 3; task_name := "T"; arguments := "[7]";
                   added_at := 5; expires_at := Some 90; priority := 4 |}).
Proof.
  destruct (addQueuedTask_then_getQueuedTask "T" "[7]" (Some 90500) 4 (two_queued 5000)
              (two_queued_unique_ids 5000))
    as (id & w1 & Hadd & _ & _ & _ & Hget).
  exists w1. assert (id = 3) as -> by (vm_compute in Hadd; congruence).
  split; [exact Hadd|]. apply (Hget w1 eq_refl).
Defined.

(** The second record of [two_queued] deleted: it is gone and the first is
    still found; no row has the id 0, and deleting it changes nothing. *)
Lemma deleteQueuedTask_then_getQueuedTask_witness :
  (exists w1,
     deleteQueuedTask 2 (two_queued 5000) = (Ok tt, w1) /\
     fst (getQueuedTask 2 w1) = Ok None /\
     map task_id (queued_tasks (db w1)) = [1]) /\
  db (snd (deleteQueuedTask 0 (two_queued 5000))) = db (two_queued 5000).
Proof.
  split.
  - destruct (deleteQueuedTask_then_getQueuedTask 2 (two_queued 5000)
                (two_queued_unique_ids 5000))
      as (w1 & Hdel & _ & _ & _ & _ & _ & Hget).
    exists w1. split; [exact Hdel|]. split; [apply (Hget w1 eq_refl)|].
    injection Hdel as <-. reflexivity.
  - destruct (deleteQueuedTask_then_getQueuedTask 0 (two_queued 5000)
                (two_queued_unique_ids 5000))
      as (w1 & Hdel & _ & _ & _ & _ & Hsame & _).
    injection Hdel as <-. apply Hsame.
    intros r [->|[->|[]%elem_of_nil]%elem_of_cons]%elem_of_cons; discriminate.
Defined.

(** Two tasks of the class [T] with one key. *)
Lemma task_key_injective_witness :
  constructor_name (counted_T (Ok JNull)) = constructor_name (counted_T (Throw (Error "x"))) /\
  hash (args (counted_T (Ok JNull))) = hash (args (counted_T (Throw (Error "x")))).
Proof.
  apply (task_key_injective (E := nat)).
  - cbn. intros [H|[]]. discriminate.
  - cbn. intros [H|[]]. discriminate.
  - reflexivity.
Defined.

(** The counted task enqueued on the queue of [two_queued]: the row
    inserted has the id 3. *)
Lemma enqueueTask_keeps_its_row_witness :
  exists text (w1 : World nat) o (w2 : World nat),
    JSON_stringify_replacer (JArray (values (args (counted_T (Ok (JNumber 7)))))) = Text text /\
    map task_id (queued_tasks (db w1)) = [1; 2; 3] /\
    fst (enqueueTask (counted_registry (Ok (JNumber 7))) (counted_T (Ok (JNumber 7)))
           (two_queued 5000)) = o /\
    queued_tasks (db (snd (enqueueTask (counted_registry (Ok (JNumber 7)))
                             (counted_T (Ok (JNumber 7))) (two_queued 5000)))) =
      filter (fun r => task_id r <> 0) (queued_tasks (db w2)).
Proof.
  destruct (enqueueTask_keeps_its_row (counted_registry (Ok (JNumber 7)))
              (counted_T (Ok (JNumber 7))) (two_queued 5000))
    as (text & w1 & o & w2 & Htext & Hrows & _ & Hout & Hqueue & _).
  - eexists. reflexivity.
  - apply two_queued_unique_ids.
  - exists text, w1, o, w2. split; [exact Htext|]. split; [by rewrite Hrows|].
    split; [exact Hout|exact Hqueue].
Defined.

(** With the database service and a relay provider registered, a task
    that declares the relay provider and then a wallet provider, which is
    not registered. *)
Lemma Task_constructor_resolves_providers_witness :
  Task_constructor "GetWalletInfoTask" (inr [])
    ["RelayStatusesProvider"; "ActiveWalletProvider"] (counting_body (Ok JNull))
    (relay_world None 0) =
  (Throw (Error "Provider ActiveWalletProvider not found"), relay_world None 0).
Proof.
  apply (proj2 (Task_constructor_resolves_providers "GetWalletInfoTask" (inr [])
                  ["RelayStatusesProvider"; "ActiveWalletProvider"]
                  (counting_body (Ok JNull)) DatabaseService (relay_world None 0) eq_refl)
           ["RelayStatusesProvider"] [RelayStatusesProvider (counting_relays None)]
           "ActiveWalletProvider" []).
  - reflexivity.
  - repeat constructor.
  - reflexivity.
Defined.

Section InterleavedScenariosMore.
Import Interleaving.

(** The three callers, after the first nine actions of their schedule:
    caller 1 awaits the registered promise, which is pending and which
    caller 0 awaits as the one that started the body. *)
Lemma no_caller_is_stuck_witness :
  exists s c,
    play (take 9 three_callers) (init 5000 None [forever; forever; forever]) = Some s /\
    callers s !! 1%nat = Some c /\
    pc c = AwaitLock 0 /\
    ((exists o, promises s !! 0%nat = Some (Some o) /\ is_Some (act (Resume 1) s)) \/
     (promises s !! 0%nat = Some None /\ lock s = Some 0%nat /\
      exists j cj, callers s !! j = Some cj /\ pc cj = AwaitBody 0)).
Proof.
  eexists _, _. split; [vm_compute; reflexivity|]. split; [reflexivity|].
  split; [reflexivity|].
  apply (no_caller_is_stuck (take 9 three_callers) 5000 None [forever; forever; forever]
           _ 1%nat _ eq_refl eq_refl).
Defined.

(** The three callers at the end of their schedule: the row cached is the
    row of the result 7. *)
Lemma only_results_are_cached_witness :
  cached_from_a_result None three_callers_end.
Proof.
  apply (only_results_are_cached three_callers 5000 None [forever; forever; forever]).
  vm_compute. reflexivity.
Defined.
End InterleavedScenariosMore.

(** *** A drain pass over two records of [new T(1)] *)

Lemma draining_T1_start time : draining_T1 (queue_of_two time).
Proof.
  split; [reflexivity|]. split; [reflexivity|]. split; [by repeat constructor|].
  intros entry. cbn. by rewrite lookup_empty.
Qed.

Lemma draining_T1_elapse w : draining_T1 w -> draining_T1 (elapse 0 w).
Proof. done. Qed.

Lemma draining_T1_delete w id : draining_T1 w -> draining_T1 (snd (deleteQueuedTask id w)).
Proof.
  intros (Hp & Hl & Hq & Hc). split; [done|]. split; [done|]. split; [|done].
  cbn. rewrite Forall_forall in Hq |- *. intros r [_ Hr]%list_elem_of_filter. by apply Hq.
Qed.

Lemma draining_T1_runs record w :
  draining_T1 w -> record ∈ queued_tasks (db w) ->
  exists v w',
    (let* t := deserialize (counted_registry (Ok (JNumber 7))) record in run t) w
      = (Ok v, w') /\
    queued_tasks (db w') = queued_tasks (db w) /\ draining_T1 w'.
Proof.
  intros HI Hin. pose proof HI as (Hp & Hl & Hq & Hc).
  rewrite Forall_forall in Hq. destruct (Hq record Hin) as [Hname Hargs].
  assert (deserialize (counted_registry (Ok (JNumber 7))) record w =
          (Ok (counted_T1 (Ok (JNumber 7))), w)) as Hnew.
  { unfold deserialize, getFromRegistry. rewrite Hname, Hargs.
    unfold counted_registry, Task_register. rewrite lookup_insert_eq.
    change (JSON_parse_reviver "[1]") with (Some (JArray [JNumber 1])).
    cbn [spread]. unfold Task_constructor, bind, ProviderRepository_get.
    rewrite Hp. reflexivity. }
  rewrite (bind_Ok _ _ _ _ _ Hnew).
  set (t := counted_T1 (Ok (JNumber 7))).
  destruct (key_value_cache (db w) !! task_key t) as [entry|] eqn:Hentry.
  - pose proof (Hc entry Hentry) as ->.
    exists (JNumber 7), (elapse 0 w). split.
    + by rewrite (run_hit t w _ Hentry).
    + split; [done|]. by apply draining_T1_elapse.
  - assert (fst (getCache (task_key t) w) = Ok None) as Hmiss.
    { rewrite getCache_eq. cbn. unfold select_cache. by rewrite Hentry. }
    rewrite (run_miss _ _ Hmiss).
    destruct (run_uncached_returns t (task_key t) (elapse 0 w) (JNumber 7)
                (set_ext (S (ext w)) (elapse 0 w)))
      as (w1 & Hrun & Hl1 & Hp1 & _ & Hq1 & _ & Hc1).
    { cbn. rewrite Hl. apply lookup_empty. }
    { reflexivity. }
    exists (JNumber 7), w1. split; [exact Hrun|]. split; [exact Hq1|].
    split; [by rewrite Hp1|]. split; [rewrite Hl1; cbn; rewrite Hl; apply delete_empty|].
    split; [rewrite Hq1; cbn; by apply Forall_forall|].
    intros entry. rewrite Hc1. change (JSON_stringify (JNumber 7)) with (Text "7").
    cbv beta iota. rewrite lookup_insert_eq. by intros [= <-].
Qed.

(** The pass returns, within three turns, and no record is left that has
    not expired. *)
Lemma processQueue_drains_witness :
  exists w',
    processQueue (counted_registry (Ok (JNumber 7))) 3 (queue_of_two 5000)
      = Some (Ok tt, w') /\
    forall r, r ∈ queued_tasks (db w') ->
              not_expired (expires_at r) (toUnixSeconds (now w')) = false.
Proof.
  destruct (processQueue_drains (counted_registry (Ok (JNumber 7))) draining_T1
              (queue_of_two 5000) draining_T1_elapse draining_T1_delete draining_T1_runs
              (draining_T1_start 5000))
    as (w' & Hpass & _ & _ & Hleft).
  - eexists. reflexivity.
  - exists w'. split; [exact Hpass|exact Hleft].
Defined.

(** A body that returns a receipt: the receipt is returned by the first
    [run()] and by every later one. *)
Lemma run_again_returns_json_result_witness :
  exists text w1,
    JSON_stringify receipt = Text text /\ decoded text = Ok receipt /\
    run (counted_T1 (Ok receipt)) (fresh_world 1000) = (Ok receipt, w1) /\
    forall w2,
      later w1 w2 ->
      not_expired None (toUnixSeconds (now w2)) = true ->
      run (counted_T1 (Ok receipt)) w2 = (Ok receipt, elapse 0 w2).
Proof.
  apply (run_again_returns_json_result (counted_T1 (Ok receipt)) (fresh_world 1000)
           receipt (set_ext 1%nat (elapse 0 (fresh_world 1000)))).
  - apply json_object; [|reflexivity].
    apply Forall_cons; split; [constructor; lia|].
    apply Forall_cons; split; [constructor|].
    apply Forall_cons; split; [|apply Forall_nil_2].
    apply json_array.
    apply Forall_cons; split; [constructor|].
    apply Forall_cons; split; [constructor|].
    apply Forall_cons; split; [constructor; lia|apply Forall_nil_2].
  - vm_compute; reflexivity.
  - vm_compute; reflexivity.
  - reflexivity.
Defined.

(** A body that returns nothing: the first [run()] returns [undefined],
    every later one an empty object. *)
Lemma run_again_after_void_result_witness :
  exists w1,
    run (counted_T1 (Ok JUndefined)) (fresh_world 1000) = (Ok JUndefined, w1) /\
    key_value_cache (db w1) !! task_key (counted_T1 (Ok JUndefined)) =
      Some {| kv_value := "{}"; kv_expires_at := None |} /\
    JUndefined <> JObject [] /\ truthy (JObject []) = true /\
    forall w2,
      later w1 w2 ->
      not_expired None (toUnixSeconds (now w2)) = true ->
      run (counted_T1 (Ok JUndefined)) w2 = (Ok (JObject []), elapse 0 w2).
Proof.
  apply (run_again_after_void_result (counted_T1 (Ok JUndefined)) (fresh_world 1000)
           JUndefined (set_ext 1%nat (elapse 0 (fresh_world 1000)))).
  - reflexivity.
  - vm_compute; reflexivity.
  - vm_compute; reflexivity.
  - reflexivity.
Defined.

(** The record of [new T(1n, {amount: 5})] gives [new T(1n, {amount: 5})]
    back. *)
Lemma deserialize_after_serialize_witness :
  exists record w1,
    serialize (counted_T (Ok (JNumber 7))) (fresh_world 0) = (Ok record, w1) /\
    task_name record = "T" /\
    forall w',
      deserialize (counted_registry (Ok (JNumber 7))) record w' =
      Task_constructor "T" (inr [JBigInt 1; JObject [("amount", JNumber 5)]]) []
        (counting_body (Ok (JNumber 7))) w'.
Proof.
  apply (deserialize_after_serialize (counted_registry (Ok (JNumber 7)))
           (counted_T (Ok (JNumber 7)))
           (fun arguments =>
              Task_constructor "T" (inr arguments) [] (counting_body (Ok (JNumber 7))))
           (fresh_world 0)).
  - apply Forall_cons; split; [constructor|].
    apply Forall_cons; split; [|apply Forall_nil_2].
    apply plain_object; [|reflexivity].
    apply Forall_cons; split; [|apply Forall_nil_2]. cbn [snd]. constructor. lia.
  - apply lookup_insert_eq.
Defined.

(** The record of [new T('BigInt(5)', ['BigInt(-12)'])] gives
    [new T(5n, [-12n])]. *)
Lemma deserialize_makes_bigints_of_tagged_strings_witness :
  exists record w1,
    serialize (spelled_T (Ok (JNumber 7))) (fresh_world 0) = (Ok record, w1) /\
    forall w',
      deserialize (counted_registry (Ok (JNumber 7))) record w' =
      Task_constructor "T" (inr [JBigInt 5; JArray [JBigInt (-12)]]) []
        (counting_body (Ok (JNumber 7))) w'.
Proof.
  apply (deserialize_makes_bigints_of_tagged_strings
           (counted_registry (Ok (JNumber 7))) (spelled_T (Ok (JNumber 7)))
           [JBigInt 5; JArray [JBigInt (-12)]]
           (fun arguments =>
              Task_constructor "T" (inr arguments) [] (counting_body (Ok (JNumber 7))))
           (fresh_world 0)).
  - apply Forall_cons; split; [constructor|].
    apply Forall_cons; split; [|apply Forall_nil_2].
    apply plain_array. apply Forall_cons; split; [constructor|apply Forall_nil_2].
  - reflexivity.
  - apply lookup_insert_eq.
Defined.

(** [new T({'a.b': 1, 'c.0': 2})] and [new T({a: {b: 1}, c: [2]})] have one
    key. *)
Lemma hash_confuses_nesting_and_dotted_keys_witness :
  flattenObject (JObject [("a", JObject [("b", JNumber 1)]); ("c", JArray [JNumber 2])]) =
    Some [("a.b", JNumber 1); ("c.0", JNumber 2)] /\
  hash (JsonArguments [JObject [("a.b", JNumber 1); ("c.0", JNumber 2)]]) =
    hash (JsonArguments
            [JObject [("a", JObject [("b", JNumber 1)]); ("c", JArray [JNumber 2])]]) /\
  Arguments_equals
    (JsonArguments [JObject [("a.b", JNumber 1); ("c.0", JNumber 2)]])
    (JsonArguments
       [JObject [("a", JObject [("b", JNumber 1)]); ("c", JArray [JNumber 2])]]) = true.
Proof.
  destruct (hash_confuses_nesting_and_dotted_keys [] []
              (JObject [("a", JObject [("b", JNumber 1)]); ("c", JArray [JNumber 2])]))
    as (Hflat & _ & Hhash & Hequals); [reflexivity|reflexivity|].
  split; [exact Hflat|]. split; [exact Hhash|exact Hequals].
Defined.

(** [new T(1, null)], [new T(1, {})] and [new T(1)] have one key. *)
Lemma hash_ignores_hollow_arguments_witness :
  hash (JsonArguments [JNumber 1; JNull]) = hash (JsonArguments [JNumber 1; JObject []]) /\
  hash (JsonArguments [JNumber 1; JNull]) = hash (JsonArguments [JNumber 1]).
Proof.
  destruct hash_ignores_hollow_arguments as [(Hnull & _ & Hempty & _) [Hreplace Happend]].
  split.
  - apply (Hreplace [JNumber 1] JNull (JObject []) []); [reflexivity|exact Hnull|exact Hempty].
  - apply (Happend [JNumber 1] JNull); [reflexivity|exact Hnull].
Defined.

(** [new T(5n, {fee: [-12n]})] and
    [new T('BigInt(5)', {fee: ['BigInt(-12)']})] have one key. *)
Lemma hash_confuses_bigint_and_its_tag_witness :
  map (relabel tag_bigint) [JBigInt 5; JObject [("fee", JArray [JBigInt (-12)])]] =
    [JString "BigInt(5)"; JObject [("fee", JArray [JString "BigInt(-12)"])]] /\
  hash (JsonArguments
          [JString "BigInt(5)"; JObject [("fee", JArray [JString "BigInt(-12)"])]]) =
    hash (JsonArguments [JBigInt 5; JObject [("fee", JArray [JBigInt (-12)])]]).
Proof.
  split; [reflexivity|].
  apply (hash_confuses_bigint_and_its_tag
           [JBigInt 5; JObject [("fee", JArray [JBigInt (-12)])]]).
  reflexivity.
Defined.

(** The fingerprint of [new T('abc')]. *)
Lemma hash_is_32_bytes_witness :
  exists jsonArgs bytes,
    hash_text [JString "abc"] = Some jsonArgs /\
    bytes = Sha256.digest jsonArgs /\
    length bytes = 32%nat /\
    Forall (fun b => 0 <= b < 256) bytes /\
    hash (JsonArguments [JString "abc"]) = join "," (map Number_toString bytes).
Proof. apply (hash_is_32_bytes [JString "abc"]). reflexivity. Defined.
